(** * Text_Editor: ruler geometry, page-setup input and find/replace

    A shallow embedding of the original logic of the editor:
    - [EditorRuler] (pixel/inch conversion, click, double-click and drag handlers),
    - the tab-stop and margin state kept by [TextEditor],
    - the margin fields of [PageSetupDialog],
    - the match scanner, navigation, replace and replace-all of
      [FindReplaceDialog], and the dialog as a whole under sequences of events,
    - the ruler under sequences of gestures and its tick marks,
    - page sizes and orientation of [PageSetupDialog],
    - the word counts, the font-size steps of the toolbars, the document
      outline, the indent extension and the AI sidebar.

    JavaScript numbers are modelled by exact rationals ([Q], compared with
    [==]); the not-a-number and undefined values are modelled explicitly
    where the code can produce them. *)

From Stdlib Require Import QArith Qround Qabs Lqa ZArith Lia.
From Stdlib Require Import List Bool Permutation Sorted SetoidList SetoidPermutation.
From Stdlib Require Import Ascii String.
From Stdlib Require Import DecimalString DecimalNat.
Import ListNotations.

Local Open Scope Q_scope.

(** ** JavaScript built-ins used by the components *)

Module JS.

(** [Math.round]: nearest integer, ties towards plus infinity. *)
Definition Math_round (x : Q) : Q := inject_Z (Qfloor (x + (1#2))).

Definition Math_abs (x : Q) : Q := Qabs x.

Definition Math_max (a b : Q) : Q := if Qle_bool a b then b else a.

Definition Math_min (a b : Q) : Q := if Qle_bool a b then a else b.

(** [a < b] and [a > b] on numbers. *)
Definition ltb (a b : Q) : bool := negb (Qle_bool b a).
Definition gtb (a b : Q) : bool := ltb b a.

(** [Array.prototype.sort] with a comparator: a stable sort that puts [x]
    before [y] when [cmp x y <= 0]. *)
Section Sort.
Context {A : Type} (cmp : A -> A -> Q).

Fixpoint insert (x : A) (l : list A) : list A :=
  match l with
  | [] => [x]
  | y :: l' => if Qle_bool (cmp x y) 0 then x :: y :: l' else y :: insert x l'
  end.

Definition sort (l : list A) : list A := fold_right insert [] l.
End Sort.

End JS.

(** ** The ruler ([EditorRuler]) and the state it edits ([TextEditor]) *)

Module Ruler.
Import JS.

(** The props handed to the ruler on each render. *)
Record EditorRulerProps := {
  pageWidth : Q;      (* in inches *)
  leftMargin : Q;     (* in inches *)
  rightMargin : Q;    (* in inches *)
  tabStops : list Q;  (* in inches from left margin *)
  zoom : Q
}.

Inductive DragKind := DragLeft | DragRight | DragTab.

(** The margin handle a drag starts from: ['left' | 'right']. *)
Inductive Side := LeftSide | RightSide.

(** The ruler's own state: [dragging] and [dragTabIndex]. *)
Record DragState := {
  dragging : option DragKind;
  dragTabIndex : option nat
}.

Definition idle : DragState := {| dragging := None; dragTabIndex := None |}.

(** The callbacks the ruler invokes on its parent, in call order.
    [tabStops[i]] is [undefined] when [i] is out of range, hence the option. *)
Inductive Callback :=
| OnTabStopAdd (position : Q)
| OnTabStopRemove (position : option Q)
| OnMarginChange (left right : Q).

(** Convert inches to pixels (96 DPI) and back. The zoom is never zero: the
    editor keeps it between 50 and 200 (see [handleZoomChange]). The
    arithmetic is exact: the rounding of doubles, which can move a quotient
    by one unit in the last place, is not modelled. *)
Definition inchesToPx (zoom inches : Q) : Q := inches * 96 * (zoom / 100).
Definition pxToInches (zoom px : Q) : Q := px / 96 / (zoom / 100).

(** [Math.round(x * 4) / 4]. *)
Definition snap (x : Q) : Q := Math_round (x * 4) / 4.

(** [clickX] is [e.clientX - rect.left]. *)
Definition handleRulerClick (p : EditorRulerProps) (d : DragState) (clickX : Q)
  : list Callback :=
  match dragging d with
  | Some _ => []
  | None =>
      let posInches := pxToInches (zoom p) clickX - leftMargin p in
      if gtb posInches 0 && ltb posInches (pageWidth p - leftMargin p - rightMargin p)
      then [OnTabStopAdd (snap posInches)]
      else []
  end.

Definition handleTabDoubleClick (p : EditorRulerProps) (index : nat) : list Callback :=
  [OnTabStopRemove (nth_error (tabStops p) index)].

Definition handleMarginDragStart (side : Side) (d : DragState) : DragState :=
  {| dragging := Some match side with LeftSide => DragLeft | RightSide => DragRight end;
     dragTabIndex := dragTabIndex d |}.

Definition handleTabDragStart (index : nat) (d : DragState) : DragState :=
  {| dragging := Some DragTab; dragTabIndex := Some index |}.

(** [mouseX] is [e.clientX - rect.left]. *)
Definition handleMouseMove (p : EditorRulerProps) (d : DragState) (mouseX : Q)
  : list Callback :=
  match dragging d with
  | None => []
  | Some DragLeft =>
      let posInches := pxToInches (zoom p) mouseX in
      let newLeft := Math_max (1#4) (Math_min (pageWidth p - rightMargin p - 1) posInches) in
      [OnMarginChange (snap newLeft) (rightMargin p)]
  | Some DragRight =>
      let posInches := pxToInches (zoom p) mouseX in
      let newRight :=
        Math_max (1#4) (Math_min (pageWidth p - leftMargin p - 1) (pageWidth p - posInches)) in
      [OnMarginChange (leftMargin p) (snap newRight)]
  | Some DragTab =>
      match dragTabIndex d with
      | None => []
      | Some i =>
          let posInches := pxToInches (zoom p) mouseX in
          let newPos := posInches - leftMargin p in
          if gtb newPos 0 && ltb newPos (pageWidth p - leftMargin p - rightMargin p)
          then [OnTabStopRemove (nth_error (tabStops p) i); OnTabStopAdd (snap newPos)]
          else []
      end
  end.

Definition handleMouseUp (d : DragState) : DragState := idle.

(** The parent's state setters ([TextEditor]). *)

Definition handleZoomChange (newZoom : Q) : Q :=
  Math_min 200 (Math_max 50 newZoom).

Definition handleTabStopAdd (position : Q) (prev : list Q) : list Q :=
  sort (fun a b => a - b) (prev ++ [position]).

(** A comparison with [undefined] is false, so the filter then keeps nothing. *)
Definition handleTabStopRemove (position : option Q) (prev : list Q) : list Q :=
  match position with
  | Some pos => filter (fun t => gtb (Math_abs (t - pos)) (5#100)) prev
  | None => filter (fun _ => false) prev
  end.

(** The part of [TextEditor]'s state that the ruler shows and edits. *)
Record EditorState := {
  pageSizeWidth : Q;
  marginLeft : Q;
  marginRight : Q;
  stops : list Q;
  zoomPct : Q
}.

Definition propsOf (s : EditorState) : EditorRulerProps :=
  {| pageWidth := pageSizeWidth s; leftMargin := marginLeft s;
     rightMargin := marginRight s; tabStops := stops s; zoom := zoomPct s |}.

Definition runCallback (s : EditorState) (c : Callback) : EditorState :=
  match c with
  | OnTabStopAdd pos =>
      {| pageSizeWidth := pageSizeWidth s; marginLeft := marginLeft s;
         marginRight := marginRight s; stops := handleTabStopAdd pos (stops s);
         zoomPct := zoomPct s |}
  | OnTabStopRemove pos =>
      {| pageSizeWidth := pageSizeWidth s; marginLeft := marginLeft s;
         marginRight := marginRight s; stops := handleTabStopRemove pos (stops s);
         zoomPct := zoomPct s |}
  | OnMarginChange l r =>
      {| pageSizeWidth := pageSizeWidth s; marginLeft := l;
         marginRight := r; stops := stops s; zoomPct := zoomPct s |}
  end.

Definition runCallbacks (s : EditorState) (cs : list Callback) : EditorState :=
  fold_left runCallback cs s.

(** One ruler event applied to the editor state. *)
Definition click (s : EditorState) (d : DragState) (clickX : Q) : EditorState :=
  runCallbacks s (handleRulerClick (propsOf s) d clickX).

Definition doubleClick (s : EditorState) (index : nat) : EditorState :=
  runCallbacks s (handleTabDoubleClick (propsOf s) index).

Definition mouseMove (s : EditorState) (d : DragState) (mouseX : Q) : EditorState :=
  runCallbacks s (handleMouseMove (propsOf s) d mouseX).

(** The initial state of [TextEditor]: Letter page, one-inch margins. *)
Definition initialState : EditorState :=
  {| pageSizeWidth := 85#10; marginLeft := 1; marginRight := 1;
     stops := [1#2; 1; 3#2; 2; 5#2; 3; 7#2; 4]; zoomPct := 100 |}.

(** *** Vocabulary of the statements below *)

(** A length on the quarter-inch grid. *)
Definition onGrid (q : Q) : Prop := exists k : Z, q == inject_Z k / 4.

(** The width of the content band. *)
Definition band (p : EditorRulerProps) : Q := pageWidth p - leftMargin p - rightMargin p.

(** The click position in inches from the left margin. *)
Definition clickPos (p : EditorRulerProps) (clickX : Q) : Q :=
  pxToInches (zoom p) clickX - leftMargin p.

Definition draggingRight : DragState := {| dragging := Some DragRight; dragTabIndex := None |}.
Definition draggingTab (i : nat) : DragState :=
  {| dragging := Some DragTab; dragTabIndex := Some i |}.

(** A Letter page with a 1.3 inch right margin, as the page-setup dialog
    (step 0.1) can set it: the content band is 6.2 inches wide. *)
Definition offGridState : EditorState :=
  {| pageSizeWidth := 85#10; marginLeft := 1; marginRight := 13#10;
     stops := []; zoomPct := 100 |}.

End Ruler.

(** ** The margin fields of [PageSetupDialog] *)

Module PageSetup.

(** A JavaScript number: not-a-number, an infinity, or a finite value. *)
Inductive number :=
| NaN
| Infinity (negative : bool)
| Fin (q : Q).

(** Leading white space skipped by [parseFloat] (tab, line feed, vertical tab,
    form feed, carriage return, space, no-break space). *)
Definition isWhiteSpace (c : ascii) : bool :=
  let n := nat_of_ascii c in
  ((9 <=? n) && (n <=? 13) || (n =? 32) || (n =? 160))%nat.

Fixpoint trimStart (s : string) : string :=
  match s with
  | String c s' => if isWhiteSpace c then trimStart s' else s
  | EmptyString => s
  end.

Definition digitOf (c : ascii) : option Z :=
  let n := nat_of_ascii c in
  if ((48 <=? n) && (n <=? 57))%nat then Some (Z.of_nat (n - 48)) else None.

(** The longest run of decimal digits at the start of [s], and what follows. *)
Fixpoint takeDigits (s : string) : list Z * string :=
  match s with
  | String c s' =>
      match digitOf c with
      | Some d => let (ds, rest) := takeDigits s' in (d :: ds, rest)
      | None => ([], s)
      end
  | EmptyString => ([], s)
  end.

Definition intValue (ds : list Z) : Z :=
  fold_left (fun acc d => acc * 10 + d)%Z ds 0%Z.

(** Value of the digits after the decimal point. *)
Definition fracValue (ds : list Z) : Q :=
  inject_Z (intValue ds) / inject_Z (10 ^ Z.of_nat (List.length ds)).

(** An optional exponent part: [e] or [E], an optional sign, at least one
    digit; anything else is no exponent at all. *)
Definition exponent (s : string) : Z :=
  match s with
  | String c s' =>
      if (Ascii.eqb c "e" || Ascii.eqb c "E")%bool then
        let (neg, s'') :=
          match s' with
          | String sg t =>
              if Ascii.eqb sg "-" then (true, t)
              else if Ascii.eqb sg "+" then (false, t)
              else (false, s')
          | EmptyString => (false, s')
          end in
        match fst (takeDigits s'') with
        | [] => 0%Z
        | ds => if neg then (- intValue ds)%Z else intValue ds
        end
      else 0%Z
  | EmptyString => 0%Z
  end.

(** The range of a number: a decimal value of [2^1024 - 2^970] or more is
    read as [Infinity] ([None]), one of [2^-1075] or less as zero. Between
    these the value is kept exact: rounding to the nearest double is not
    modelled. *)
Definition toNumber (q : Q) : option Q :=
  if Qle_bool (Qpower 2 1024 - Qpower 2 970) q then None
  else if Qle_bool q (Qpower 2 (-1075)) then Some 0
  else Some q.

(** The unsigned part: [Infinity], or digits with an optional fraction and
    exponent; the longest prefix that is a decimal literal is used. *)
Definition parseUnsigned (s : string) : option (option Q) :=
  if String.prefix "Infinity" s then Some None
  else
    let (ip, rest) := takeDigits s in
    let (fp, rest') :=
      match rest with
      | String c t => if Ascii.eqb c "." then takeDigits t else ([], rest)
      | EmptyString => ([], rest)
      end in
    match ip, fp with
    | [], [] => None
    | _, _ =>
        Some (toNumber ((inject_Z (intValue ip) + fracValue fp)
                          * Qpower 10 (exponent rest')))
    end.

Definition parseFloat (s : string) : number :=
  let t := trimStart s in
  let (neg, u) :=
    match t with
    | String c t' =>
        if Ascii.eqb c "-" then (true, t')
        else if Ascii.eqb c "+" then (false, t')
        else (false, t)
    | EmptyString => (false, t)
    end in
  match parseUnsigned u with
  | None => NaN
  | Some None => Infinity neg
  | Some (Some q) => Fin (if neg then - q else q)
  end.

(** [x || 0] on numbers: [NaN] and zero are falsy. *)
Definition orZero (x : number) : number :=
  match x with
  | NaN => Fin 0
  | Infinity b => Infinity b
  | Fin q => if Qeq_bool q 0 then Fin 0 else Fin q
  end.

Record Margins := {
  top : number;
  bottom : number;
  left : number;
  right : number
}.

(** The four [onChange] handlers; [value] is [e.target.value]. *)
Definition onTopChange (localMargins : Margins) (value : string) : Margins :=
  {| top := orZero (parseFloat value); bottom := bottom localMargins;
     left := left localMargins; right := right localMargins |}.

Definition onBottomChange (localMargins : Margins) (value : string) : Margins :=
  {| top := top localMargins; bottom := orZero (parseFloat value);
     left := left localMargins; right := right localMargins |}.

Definition onLeftChange (localMargins : Margins) (value : string) : Margins :=
  {| top := top localMargins; bottom := bottom localMargins;
     left := orZero (parseFloat value); right := right localMargins |}.

Definition onRightChange (localMargins : Margins) (value : string) : Margins :=
  {| top := top localMargins; bottom := bottom localMargins;
     left := left localMargins; right := orZero (parseFloat value) |}.

End PageSetup.

(** ** Find and replace ([FindReplaceDialog]) *)

Module FindReplace.

(** *** The editing framework, as far as the dialog uses it

    A document is taken through its position-indexed content, in document
    order: a text node occupies one position per character; [Token] stands
    for any single non-text position (the opening or closing boundary of a
    block, or a leaf such as an image).  Adjacent text nodes are text runs
    that differ in their formatting marks.  Characters are 8-bit. *)

Definition text := list ascii.

Inductive Node :=
| TextNode (t : text)
| Token.

Definition Doc := list Node.

Definition nodeSize (n : Node) : nat :=
  match n with
  | TextNode t => List.length t
  | Token => 1
  end.

(** [doc.descendants(f)]: every node with the position it starts at. *)
Fixpoint descendantsFrom (pos : nat) (doc : Doc) : list (Node * nat) :=
  match doc with
  | [] => []
  | n :: rest => (n, pos) :: descendantsFrom (pos + nodeSize n) rest
  end.

Definition descendants (doc : Doc) : list (Node * nat) := descendantsFrom 0 doc.

(** [doc.textContent]. *)
Fixpoint textContent (doc : Doc) : text :=
  match doc with
  | [] => []
  | TextNode t :: rest => t ++ textContent rest
  | Token :: rest => textContent rest
  end.

Record SearchResult := {
  from : nat;
  to : nat
}.

(** [doc.content.size]: the number of positions a run of nodes takes. *)
Definition docSize (d : Doc) : nat := list_sum (map nodeSize d).

(** The editor: its document and its selection. The selection is [None]
    where the framework has put it somewhere this model does not follow: a
    range that is not inside one text node is clamped to the first and last
    cursor position and resolved by the framework. *)
Record Editor := {
  doc : Doc;
  selection : option (nat * nat)
}.

(** Does the range [[a, b]] lie inside one text node? *)
Fixpoint inTextNode (pos : nat) (d : Doc) (a b : nat) : bool :=
  match d with
  | [] => false
  | TextNode t :: rest =>
      ((pos <=? a) && (a <=? b) && (b <=? pos + List.length t))%nat
      || inTextNode (pos + List.length t) rest a b
  | Token :: rest => inTextNode (pos + 1) rest a b
  end.

(** [setTextSelection({from, to})]. *)
Definition setTextSelection (m : SearchResult) (e : Editor) : Editor :=
  {| doc := doc e;
     selection := if inTextNode 0 (doc e) (from m) (to m)
                  then Some (from m, to m) else None |}.

(** Replace the characters in [[a, b)] of [t] by [r]. *)
Definition splice (t : text) (a b : nat) (r : text) : text :=
  firstn a t ++ r ++ skipn b t.

(** Replacing the range [[a, b)] of the document by the plain text [r], for a
    range inside one text node (the first that contains it).  [None]: the
    range is not inside one text node; what the framework does then (it may
    join blocks) is outside this model. *)
Fixpoint replaceRange (pos : nat) (d : Doc) (a b : nat) (r : text) : option Doc :=
  match d with
  | [] => None
  | TextNode t :: rest =>
      if ((pos <=? a) && (a <=? b) && (b <=? pos + List.length t))%nat
      then Some (TextNode (splice t (a - pos) (b - pos) r) :: rest)
      else option_map (cons (TextNode t)) (replaceRange (pos + List.length t) rest a b r)
  | Token :: rest => option_map (cons Token) (replaceRange (pos + 1) rest a b r)
  end.

(** A character that is no markup: not [<], not [&], no control character. *)
Definition isPlainChar (c : ascii) : bool :=
  let n := nat_of_ascii c in
  ((32 <=? n) && negb (n =? 60) && negb (n =? 38))%nat.

(** [insertContent] parses a string as HTML. A string that is not empty and
    has no markup character is one run of text, and is inserted as it is;
    what becomes of any other string is outside this model. *)
Definition isPlainText (r : text) : bool :=
  match r with
  | [] => false
  | _ :: _ => forallb isPlainChar r
  end.

(** [insertContent(r)]: the selection is replaced by [r] and the cursor is
    left after the insertion.  [None]: outside this model. *)
Definition insertContent (r : text) (e : Editor) : option Editor :=
  if isPlainText r then
    match selection e with
    | Some (a, b) =>
        match replaceRange 0 (doc e) a b r with
        | Some d' =>
            Some {| doc := d';
                    selection := Some (a + List.length r, a + List.length r)%nat |}
        | None => None
        end
    | None => None
    end
  else None.

(** [chain().setTextSelection({from, to}).insertContent(replaceTerm).run()]. *)
Definition insertContentAt (m : SearchResult) (r : text) (e : Editor) : option Editor :=
  insertContent r (setTextSelection m e).

(** [view.coordsAtPos(pos)] throws a RangeError for a position outside the
    document. *)
Definition coordsAtPosThrows (pos : nat) (e : Editor) : bool :=
  (docSize (doc e) <? pos)%nat.

(** *** The search expression

    The search term is escaped, so the expression matches it literally; with
    the [i] flag characters are compared after upper-casing. *)

Definition toUpperCase (c : ascii) : ascii :=
  let n := nat_of_ascii c in
  if ((97 <=? n) && (n <=? 122)
      || (224 <=? n) && (n <=? 254) && negb (n =? 247))%nat
  then ascii_of_nat (n - 32) else c.

Definition canonicalize (caseSensitive : bool) (c : ascii) : ascii :=
  if caseSensitive then c else toUpperCase c.

Section Regex.
Variable searchTerm : text.
Variable caseSensitive : bool.

(** Does the term occur at the very start of [s]? *)
Fixpoint matchHere (pat s : text) : bool :=
  match pat with
  | [] => true
  | p :: pat' =>
      match s with
      | [] => false
      | c :: s' =>
          Ascii.eqb (canonicalize caseSensitive p) (canonicalize caseSensitive c)
          && matchHere pat' s'
      end
  end.

(** The first index, counted from [i], at which the term occurs in [s]. *)
Fixpoint indexFrom (s : text) (i : nat) : option nat :=
  if matchHere searchTerm s then Some i
  else match s with
       | [] => None
       | _ :: s' => indexFrom s' (S i)
       end.

(** [searchRegex.exec(s)] with the [g] flag, started at [lastIndex]: the
    index of the next occurrence, if any. On a match [lastIndex] becomes
    the end of the match, on failure it is reset to 0. *)
Definition exec (s : text) (lastIndex : nat) : option nat :=
  if (lastIndex <=? List.length s)%nat
  then indexFrom (skipn lastIndex s) lastIndex
  else None.

(** [while ((match = searchRegex.exec(s)) !== null) ...]: the indices of
    the successive matches. Each round moves [lastIndex] forward by the
    length of the (non-empty) term, so [S (length s)] rounds are enough. *)
Fixpoint execLoop (fuel : nat) (s : text) (lastIndex : nat) : list nat :=
  match fuel with
  | O => []
  | S fuel' =>
      match exec s lastIndex with
      | None => []
      | Some i => i :: execLoop fuel' s (i + List.length searchTerm)
      end
  end.

Definition matchIndices (s : text) : list nat := execLoop (S (List.length s)) s 0.

(** The callback given to [doc.descendants]. *)
Definition visit (np : Node * nat) : list SearchResult :=
  match np with
  | (TextNode t, pos) =>
      map (fun index =>
             {| from := pos + index;
                to := pos + index + List.length searchTerm |})
          (matchIndices t)
  | (Token, _) => []
  end.

Definition scan (d : Doc) : list SearchResult := flat_map visit (descendants d).

(** What [replaceAll] leaves in a text node: every occurrence replaced,
    found left to right as the scanner finds them. *)
Fixpoint replaceLoop (fuel : nat) (r s : text) (lastIndex : nat) : text :=
  match fuel with
  | O => skipn lastIndex s
  | S fuel' =>
      match exec s lastIndex with
      | None => skipn lastIndex s
      | Some i =>
          firstn (i - lastIndex) (skipn lastIndex s) ++ r
            ++ replaceLoop fuel' r s (i + List.length searchTerm)
      end
  end.

Definition replaceInText (r s : text) : text := replaceLoop (S (List.length s)) r s 0.

Definition replaceInNode (r : text) (n : Node) : Node :=
  match n with
  | TextNode t => TextNode (replaceInText r t)
  | Token => Token
  end.
End Regex.

(** *** The dialog's state and handlers *)

Record Session := {
  searchTerm : text;
  replaceTerm : text;
  results : list SearchResult;
  currentIndex : Z;
  caseSensitive : bool
}.

Definition State := (Session * Editor)%type.

Definition setResults (rs : list SearchResult) (s : Session) : Session :=
  {| searchTerm := searchTerm s; replaceTerm := replaceTerm s; results := rs;
     currentIndex := currentIndex s; caseSensitive := caseSensitive s |}.

Definition setCurrentIndex (i : Z) (s : Session) : Session :=
  {| searchTerm := searchTerm s; replaceTerm := replaceTerm s; results := results s;
     currentIndex := i; caseSensitive := caseSensitive s |}.

(** [results[i]]: [undefined] outside the array. *)
Definition at_index (rs : list SearchResult) (i : Z) : option SearchResult :=
  if (i <? 0)%Z then None else nth_error rs (Z.to_nat i).

(** How a call ends: it returns, or it throws. *)
Inductive Completion :=
| Returns
| TypeError
| RangeError.

(** [highlightMatch]: the selection is set, then [coordsAtPos(match.from)]
    is asked for the place to scroll to. *)
Definition highlightMatch (m : SearchResult) (e : Editor) : Editor * Completion :=
  let e' := setTextSelection m e in
  if coordsAtPosThrows (from m) e' then (e', RangeError) else (e', Returns).

Definition findMatches (st : State) : State * Completion :=
  let (s, e) := st in
  match searchTerm s with
  | [] => ((setResults [] s, e), Returns)
  | _ =>
      let matches := scan (searchTerm s) (caseSensitive s) (doc e) in
      match matches with
      | [] => ((setResults matches s, e), Returns)
      | m0 :: _ =>
          let (e', c) := highlightMatch m0 e in
          ((setCurrentIndex 0 (setResults matches s), e'), c)
      end
  end.

(** [goToNext] and [goToPrevious]: the index is set, then the match at the
    new index is highlighted; reading a field of [undefined] (no match at
    that index) throws a TypeError. [%] is the remainder that truncates
    towards zero. *)
Definition goToNext (st : State) : State * Completion :=
  let (s, e) := st in
  if (List.length (results s) =? 0)%nat then (st, Returns)
  else
    let nextIndex := Z.rem (currentIndex s + 1) (Z.of_nat (List.length (results s))) in
    match at_index (results s) nextIndex with
    | Some m =>
        let (e', c) := highlightMatch m e in
        ((setCurrentIndex nextIndex s, e'), c)
    | None => ((setCurrentIndex nextIndex s, e), TypeError)
    end.

Definition goToPrevious (st : State) : State * Completion :=
  let (s, e) := st in
  if (List.length (results s) =? 0)%nat then (st, Returns)
  else
    let prevIndex :=
      Z.rem (currentIndex s - 1 + Z.of_nat (List.length (results s)))
            (Z.of_nat (List.length (results s))) in
    match at_index (results s) prevIndex with
    | Some m =>
        let (e', c) := highlightMatch m e in
        ((setCurrentIndex prevIndex s, e'), c)
    | None => ((setCurrentIndex prevIndex s, e), TypeError)
    end.

(** The comparator [(a, b) => b.from - a.from]. *)
Definition byFromDesc (a b : SearchResult) : Q :=
  inject_Z (Z.of_nat (from b)) - inject_Z (Z.of_nat (from a)).

(** [[...results].sort((a, b) => b.from - a.from)]. *)
Definition sortedResults (rs : list SearchResult) : list SearchResult :=
  JS.sort byFromDesc rs.

(** The [forEach] of [replaceAll]: one edit per match, in the given order. *)
Fixpoint replaceEach (ms : list SearchResult) (r : text) (e : Editor) : option Editor :=
  match ms with
  | [] => Some e
  | m :: ms' =>
      match insertContentAt m r e with
      | Some e' => replaceEach ms' r e'
      | None => None
      end
  end.

(** [replaceAll], up to the rescan it schedules. [None]: an edit fell outside
    the modelled ranges (see [replaceRange] and [insertContent]). *)
Definition replaceAll (st : State) : option State :=
  let (s, e) := st in
  if (List.length (results s) =? 0)%nat then Some st
  else
    match replaceEach (sortedResults (results s)) (replaceTerm s) e with
    | Some e' => Some (s, e')
    | None => None
    end.

(** *** Vocabulary of the statements below *)

(** The span of [m] lies inside one text node of the document. *)
Definition insideText (d : Doc) (m : SearchResult) : Prop :=
  exists t pos,
    In (TextNode t, pos) (descendants d)
    /\ (pos <= from m /\ from m <= to m /\ to m <= pos + List.length t)%nat.

(** The session [s'] differs from [s] in the current index at most. *)
Definition sameSearch (s s' : Session) : Prop :=
  searchTerm s' = searchTerm s /\ replaceTerm s' = replaceTerm s
  /\ results s' = results s /\ caseSensitive s' = caseSensitive s.

(** A text from a string literal. *)
Definition T (s : string) : text := list_ascii_of_string s.

(** The document "cat cat cat" in one paragraph, searched for "cat". *)
Definition catDoc : Doc := [Token; TextNode (T "cat cat cat"); Token].

Definition catSession : Session :=
  {| searchTerm := T "cat"; replaceTerm := T "dog"; results := [];
     currentIndex := 0; caseSensitive := false |}.

Definition catState : State :=
  fst (findMatches (catSession, {| doc := catDoc; selection := Some (0, 0)%nat |})).

End FindReplace.

(** ** The ruler: marks and the gesture state machine *)

Module RulerEvents.
Import JS Ruler.

(** One tick of the ruler as [generateMarks] renders it: its index, its
    left offset in pixels, its two flags and the label of a major tick. *)
Record Mark := {
  markIndex : nat;
  markPos : Q;
  isMajor : bool;
  isHalf : bool;
  markLabel : option Q
}.

Definition mark (p : EditorRulerProps) (i : nat) : Mark :=
  let minorInterval := inchesToPx (zoom p) (125#1000) in
  let major := (i mod 8 =? 0)%nat in
  {| markIndex := i;
     markPos := inject_Z (Z.of_nat i) * minorInterval / 8;
     isMajor := major;
     isHalf := (i mod 4 =? 0)%nat;
     markLabel := if major then Some (inject_Z (Z.of_nat i) / 8) else None |}.

(** [for (let i = 0; i <= pageWidth * 8; i++)]: the loop body runs for
    [i = 0 .. floor (pageWidth * 8)], and not at all for a negative width. *)
Definition markCount (p : EditorRulerProps) : nat :=
  Z.to_nat (Qfloor (pageWidth p * 8) + 1).

Definition generateMarks (p : EditorRulerProps) : list Mark :=
  map (mark p) (seq 0 (markCount p)).

(** The width of the ruler element, [inchesToPx(pageWidth)]. *)
Definition rulerWidth (p : EditorRulerProps) : Q := inchesToPx (zoom p) (pageWidth p).

(** The mouse events the ruler element and its handles listen to. *)
Inductive RulerEvent :=
| Click (clickX : Q)
| TabDoubleClick (index : nat)
| MarginMouseDown (side : Side)
| TabMouseDown (index : nat)
| MouseMove (mouseX : Q)
| MouseUp
| MouseLeave.

(** One event, handled on the current render of the editor and ruler state. *)
Definition rulerStep (sd : EditorState * DragState) (ev : RulerEvent)
  : EditorState * DragState :=
  let (s, d) := sd in
  match ev with
  | Click x => (click s d x, d)
  | TabDoubleClick i => (doubleClick s i, d)
  | MarginMouseDown side => (s, handleMarginDragStart side d)
  | TabMouseDown i => (s, handleTabDragStart i d)
  | MouseMove x => (mouseMove s d x, d)
  | MouseUp => (s, handleMouseUp d)
  | MouseLeave => (s, handleMouseUp d)
  end.

Definition rulerRun (sd : EditorState * DragState) (evs : list RulerEvent)
  : EditorState * DragState :=
  fold_left rulerStep evs sd.

(** The state the ruler gestures keep: margins on the quarter-inch grid, at
    least a quarter inch each and leaving a band of at least one inch; tab
    stops on the grid and in ascending order. *)
Definition rulerInv (s : EditorState) : Prop :=
  50 <= zoomPct s <= 200
  /\ onGrid (pageSizeWidth s)
  /\ onGrid (marginLeft s) /\ onGrid (marginRight s)
  /\ 1#4 <= marginLeft s /\ 1#4 <= marginRight s
  /\ marginLeft s + marginRight s <= pageSizeWidth s - 1
  /\ Forall onGrid (stops s)
  /\ StronglySorted Qle (stops s).

End RulerEvents.

(** ** Find and replace: single replace and the dialog as a whole *)

Module FindReplaceDialog.
Import FindReplace.
Local Open Scope string_scope.

(** [replaceOne], up to the rescan it schedules. [None]: the edit is outside
    the modelled ranges (see [replaceRange] and [insertContent]). *)
Definition replaceOne (st : State) : option (State * Completion) :=
  let (s, e) := st in
  if (List.length (results s) =? 0)%nat then Some (st, Returns)
  else
    match at_index (results s) (currentIndex s) with
    | None => Some (st, TypeError)
    | Some m =>
        match insertContentAt m (replaceTerm s) e with
        | Some e' => Some ((s, e'), Returns)
        | None => None
        end
    end.

(** The dialog: its [open] prop, its own state and the editor it works on. *)
Record Dialog := {
  isOpen : bool;
  session : Session;
  editor : Editor
}.

Definition setSearchTerm (t : text) (s : Session) : Session :=
  {| searchTerm := t; replaceTerm := replaceTerm s; results := results s;
     currentIndex := currentIndex s; caseSensitive := caseSensitive s |}.

Definition setReplaceTerm (t : text) (s : Session) : Session :=
  {| searchTerm := searchTerm s; replaceTerm := t; results := results s;
     currentIndex := currentIndex s; caseSensitive := caseSensitive s |}.

Definition setCaseSensitive (b : bool) (s : Session) : Session :=
  {| searchTerm := searchTerm s; replaceTerm := replaceTerm s; results := results s;
     currentIndex := currentIndex s; caseSensitive := b |}.

(** What the dialog reacts to. [Rescan] is the timer set by a replace: it
    runs the [findMatches] of the render that set it, so it carries that
    render's search term and flag. [DocEdited] is an edit made in the editor
    itself while the dialog is there. *)
Inductive Event :=
| SearchInput (t : text)
| ReplaceInput (t : text)
| MatchCase (checked : bool)
| ClickNext
| ClickPrevious
| ClickReplace
| ClickReplaceAll
| Rescan (term : text) (matchCase : bool)
| KeyDown (key : string) (shiftKey : bool)
| OpenChange (open : bool)
| DocEdited (e : Editor).

(** [findMatches] as created by a render with the given term and flag. *)
Definition findMatchesWith (term : text) (matchCase : bool) (d : Dialog)
    : Dialog * Completion :=
  let (st', c) :=
    findMatches (setCaseSensitive matchCase (setSearchTerm term (session d)), editor d) in
  ({| isOpen := isOpen d;
      session := setCaseSensitive (caseSensitive (session d))
                                  (setSearchTerm (searchTerm (session d)) (fst st'));
      editor := snd st' |}, c).

(** The effect on [open, searchTerm, caseSensitive, findMatches]. *)
Definition searchEffect (d : Dialog) : Dialog * Completion :=
  match isOpen d, searchTerm (session d) with
  | true, _ :: _ => findMatchesWith (searchTerm (session d)) (caseSensitive (session d)) d
  | _, _ => (d, Returns)
  end.

(** The effect on [open]: a closed dialog forgets its search. *)
Definition closeEffect (d : Dialog) : Dialog :=
  if isOpen d then d
  else {| isOpen := false;
          session := {| searchTerm := []; replaceTerm := []; results := [];
                        currentIndex := 0; caseSensitive := caseSensitive (session d) |};
          editor := editor d |}.

Definition withState (d : Dialog) (st : State) : Dialog :=
  {| isOpen := isOpen d; session := fst st; editor := snd st |}.

Definition withSession (d : Dialog) (s : Session) : Dialog :=
  {| isOpen := isOpen d; session := s; editor := editor d |}.

Definition text_eqb (a b : text) : bool :=
  if list_eq_dec ascii_dec a b then true else false.

(** One event: the dialog after it and how the handler or effect it runs
    ends; a handler that throws leaves the state it has set so far. [None]:
    an edit outside the modelled ranges. An input that does not change its
    value triggers nothing. *)
Definition dialogStep (d : Dialog) (ev : Event) : option (Dialog * Completion) :=
  let st := (session d, editor d) in
  let navigate (r : State * Completion) := Some (withState d (fst r), snd r) in
  match ev with
  | SearchInput t =>
      if text_eqb t (searchTerm (session d)) then Some (d, Returns)
      else Some (searchEffect (withSession d (setSearchTerm t (session d))))
  | ReplaceInput t => Some (withSession d (setReplaceTerm t (session d)), Returns)
  | MatchCase b =>
      if Bool.eqb b (caseSensitive (session d)) then Some (d, Returns)
      else Some (searchEffect (withSession d (setCaseSensitive b (session d))))
  | ClickNext => navigate (goToNext st)
  | ClickPrevious => navigate (goToPrevious st)
  | ClickReplace =>
      match replaceOne st with
      | Some (st', c) => Some (withState d st', c)
      | None => None
      end
  | ClickReplaceAll =>
      match replaceAll st with
      | Some st' => Some (withState d st', Returns)
      | None => None
      end
  | Rescan term matchCase => Some (findMatchesWith term matchCase d)
  | KeyDown key shiftKey =>
      if negb (isOpen d) then Some (d, Returns)
      else if String.eqb key "Enter" && negb shiftKey then navigate (goToNext st)
      else if String.eqb key "Enter" && shiftKey then navigate (goToPrevious st)
      else if String.eqb key "Escape"
           then Some (closeEffect {| isOpen := false; session := session d;
                                     editor := editor d |}, Returns)
      else Some (d, Returns)
  | OpenChange open =>
      if Bool.eqb open (isOpen d) then Some (d, Returns)
      else
        let (d1, c) := searchEffect {| isOpen := open; session := session d;
                                       editor := editor d |} in
        Some (closeEffect d1, c)
  | DocEdited e => Some ({| isOpen := isOpen d; session := session d; editor := e |}, Returns)
  end.

(** A sequence of events: the dialog after them and how each one ended. *)
Fixpoint dialogRun (d : Dialog) (evs : list Event) : option (Dialog * list Completion) :=
  match evs with
  | [] => Some (d, [])
  | ev :: evs' =>
      match dialogStep d ev with
      | Some (d', c) =>
          match dialogRun d' evs' with
          | Some (d'', cs) => Some (d'', c :: cs)
          | None => None
          end
      | None => None
      end
  end.

(** The dialog as it is mounted: closed, nothing searched yet. *)
Definition initialDialog (e : Editor) : Dialog :=
  {| isOpen := false;
     session := {| searchTerm := []; replaceTerm := []; results := [];
                   currentIndex := 0; caseSensitive := false |};
     editor := e |}.

(** The current index points into the match list, unless the list is empty. *)
Definition indexValid (s : Session) : Prop :=
  results s = [] \/ (0 <= currentIndex s < Z.of_nat (List.length (results s)))%Z.

(** An event that edits the document through the dialog. *)
Definition isReplace (ev : Event) : bool :=
  match ev with
  | ClickReplace | ClickReplaceAll => true
  | _ => false
  end.

End FindReplaceDialog.

(** ** Page setup: page sizes and orientation *)

Module PageSizes.
Import JS PageSetup.
Local Open Scope string_scope.

Record PageSize := {
  name : string;
  width : Q;   (* in inches *)
  height : Q   (* in inches *)
}.

(** [PAGE_SIZES], in the order of its keys. *)
Definition PAGE_SIZES : list (string * PageSize) :=
  [ ("letter",    {| name := "Letter";    width := 85#10;   height := 11 |});
    ("legal",     {| name := "Legal";     width := 85#10;   height := 14 |});
    ("a4",        {| name := "A4";        width := 827#100; height := 1169#100 |});
    ("a5",        {| name := "A5";        width := 583#100; height := 827#100 |});
    ("executive", {| name := "Executive"; width := 725#100; height := 105#10 |});
    ("tabloid",   {| name := "Tabloid";   width := 11;      height := 17 |}) ].

(** [PAGE_SIZES[key]], for the keys the select offers (the table's own). *)
Fixpoint lookup (key : string) (table : list (string * PageSize)) : option PageSize :=
  match table with
  | [] => None
  | (k, size) :: rest => if String.eqb key k then Some size else lookup key rest
  end.

Inductive Orientation := Portrait | Landscape.

(** The dialog's own state. *)
Record Setup := {
  localPageSize : PageSize;
  localMargins : Margins;
  orientation : Orientation
}.

Definition swapped (size : PageSize) : PageSize :=
  {| name := name size; width := height size; height := width size |}.

(** [handleApply]: what is handed to [onPageSizeChange] and [onMarginsChange]
    (the dialog is then closed). *)
Definition handleApply (st : Setup) : PageSize * Margins :=
  let size := localPageSize st in
  let finalPageSize :=
    match orientation st with
    | Landscape => if ltb (width size) (height size) then swapped size else size
    | Portrait => if gtb (width size) (height size) then swapped size else size
    end in
  (finalPageSize, localMargins st).

Definition handlePageSizeSelect (key : string) (st : Setup) : Setup :=
  match lookup key PAGE_SIZES with
  | Some size =>
      {| localPageSize := size; localMargins := localMargins st;
         orientation := orientation st |}
  | None => st
  end.

(** [getCurrentPageSizeKey]: the first entry with the dialog's two lengths,
    either way round; ['letter'] when there is none. *)
Definition getCurrentPageSizeKey (st : Setup) : string :=
  let w := width (localPageSize st) in
  let h := height (localPageSize st) in
  match find (fun entry =>
                let size := snd entry in
                (Qeq_bool (width size) w && Qeq_bool (height size) h)
                || (Qeq_bool (height size) w && Qeq_bool (width size) h))
             PAGE_SIZES with
  | Some (key, _) => key
  | None => "letter"
  end.

(** The dialog is opened on the applied page size and margins. *)
Definition reopen (applied : PageSize * Margins) (o : Orientation) : Setup :=
  {| localPageSize := fst applied; localMargins := snd applied; orientation := o |}.

End PageSizes.

(** ** Word and character counts *)

Module WordCount.
Import FindReplace.

(** White space as [\s] and [trim] see it (8-bit characters). *)
Definition isSpace (c : ascii) : bool := PageSetup.isWhiteSpace c.

Fixpoint trimStart (s : text) : text :=
  match s with
  | c :: s' => if isSpace c then trimStart s' else s
  | [] => []
  end.

Definition trimEnd (s : text) : text := rev (trimStart (rev s)).

(** [s.trim()]. *)
Definition trim (s : text) : text := trimEnd (trimStart s).

(** [s.split(/\s+/)]: the pieces between the runs of white space; [cur] is
    the piece being read, [inSep] tells that a run of white space is being
    read. A text that starts or ends with white space gives an empty first or
    last piece, and the empty text gives one empty piece. *)
Fixpoint splitFrom (cur : text) (inSep : bool) (s : text) : list text :=
  match s with
  | [] => [cur]
  | c :: s' =>
      if isSpace c
      then if inSep then splitFrom [] true s' else cur :: splitFrom [] true s'
      else splitFrom (cur ++ [c]) false s'
  end.

Definition split (s : text) : list text := splitFrom [] false s.

(** [Boolean] on a string, and [word => word.length > 0]. *)
Definition nonEmpty (w : text) : bool :=
  match w with
  | [] => false
  | _ => true
  end.

(** [text.trim().split(/\s+/).filter(Boolean).length]. *)
Definition countWords (s : text) : nat :=
  List.length (filter nonEmpty (split (trim s))).

(** [updateWordCount] of [TextEditor] and [wordCount] of [EditorHeader]. *)
Definition updateWordCount (d : Doc) : nat := countWords (textContent d).

Record Counts := {
  words : nat;
  characters : nat;
  charactersNoSpaces : nat
}.

(** [getWordCount] of the toolbar. *)
Definition getWordCount (d : Doc) : Counts :=
  let s := textContent d in
  {| words := List.length (filter nonEmpty (split (trim s)));
     characters := List.length s;
     charactersNoSpaces := List.length (filter (fun c => negb (isSpace c)) s) |}.

(** The number of places where a word starts: a character that is not white
    space, at the start or after white space. *)
Fixpoint wordStarts (inWord : bool) (s : text) : nat :=
  match s with
  | [] => 0
  | c :: s' =>
      if isSpace c then wordStarts false s'
      else (if inWord then 0 else 1) + wordStarts true s'
  end.

End WordCount.

(** ** Numbers as strings: [String(n)] and [parseInt] *)

Module JSString.
Local Open Scope string_scope.

(** [String(n)] for an integer (below 10^21 in size, where JavaScript still
    writes all digits). *)
Definition String_of_nat (n : nat) : string :=
  NilEmpty.string_of_uint (Nat.to_uint n).

Definition String_of_Z (z : Z) : string :=
  if (z <? 0)%Z then "-" ++ String_of_nat (Z.to_nat (- z))
  else String_of_nat (Z.to_nat z).

(** The value of [c] as a digit in the given radix (10 or 16). *)
Definition digitValue (radix : nat) (c : ascii) : option nat :=
  let n := nat_of_ascii c in
  if ((48 <=? n) && (n <=? 57))%nat then Some (n - 48)%nat
  else if (radix =? 16)%nat && (97 <=? n)%nat && (n <=? 102)%nat then Some (n - 87)%nat
  else if (radix =? 16)%nat && (65 <=? n)%nat && (n <=? 70)%nat then Some (n - 55)%nat
  else None.

(** The value of the longest run of digits at the start of [s]; [None] when
    there is no digit ([seen] tells whether one has been read). *)
Fixpoint parseDigits (radix : nat) (s : string) (acc : nat) (seen : bool) : option nat :=
  match s with
  | String c s' =>
      match digitValue radix c with
      | Some v => parseDigits radix s' (acc * radix + v) true
      | None => if seen then Some acc else None
      end
  | EmptyString => if seen then Some acc else None
  end.

(** [parseInt(s)] without a radix: leading white space is skipped, a sign is
    read, [0x] or [0X] announces hexadecimal digits, and the longest run of
    digits is read; [None] is NaN. *)
Definition parseInt (s : string) : option Z :=
  let t := PageSetup.trimStart s in
  let (neg, u) :=
    match t with
    | String c t' =>
        if Ascii.eqb c "-" then (true, t')
        else if Ascii.eqb c "+" then (false, t')
        else (false, t)
    | EmptyString => (false, t)
    end in
  let (radix, digits) :=
    match u with
    | String c0 (String c1 u') =>
        if Ascii.eqb c0 "0" && (Ascii.eqb c1 "x" || Ascii.eqb c1 "X")
        then (16%nat, u') else (10%nat, u)
    | _ => (10%nat, u)
    end in
  match parseDigits radix digits 0 false with
  | Some n => Some (if neg then (- Z.of_nat n)%Z else Z.of_nat n)
  | None => None
  end.

(** [s.replace(pattern, replacement)] with a string pattern: the first
    occurrence is replaced. *)
Fixpoint replaceFirst (pattern replacement s : string) : string :=
  if String.prefix pattern s
  then replacement ++ String.substring (String.length pattern)
                                       (String.length s - String.length pattern) s
  else match s with
       | String c s' => String c (replaceFirst pattern replacement s')
       | EmptyString => EmptyString
       end.

(** *** Vocabulary of the statements below *)

(** What may follow a number for [parseInt] to read just the number. *)
Definition endsNumber (rest : string) : Prop :=
  match rest with
  | String c _ => digitValue 10 c = None /\ c <> "x"%char /\ c <> "X"%char
  | EmptyString => True
  end.

(** A text that starts with a decimal digit, not with [0x]. *)
Definition plainStart (u : string) : Prop :=
  match u with
  | String c0 u1 =>
      (exists v, digitValue 10 c0 = Some v)
      /\ match u1 with
         | String c1 _ => c1 <> "x"%char /\ c1 <> "X"%char
         | EmptyString => True
         end
  | EmptyString => False
  end.

End JSString.

(** ** The toolbars' font sizes *)

Module FontSizes.
Import JSString.
Local Open Scope string_scope.

Definition FONT_SIZES : list Z :=
  [8; 9; 10; 11; 12; 14; 16; 18; 20; 24; 28; 32; 36; 48; 72]%Z.

(** *** The menu-bar toolbar: the size is kept as the text of the select *)

(** [handleFontSizeChange]: the new text is kept when it reads as a size
    from 1 to 400. *)
Definition handleFontSizeChange (newSize : string) (fontSize : string) : string :=
  match parseInt newSize with
  | Some size => if ((1 <=? size) && (size <=? 400))%Z then newSize else fontSize
  | None => fontSize
  end.

(** [increaseFontSize]. When the current text is no number, nothing is
    greater than NaN and NaN + 2 is NaN, so ["NaN"] is offered and refused. *)
Definition nextSize (currentSize : Z) : Z :=
  match find (fun s => (currentSize <? s)%Z) FONT_SIZES with
  | Some s => s
  | None => (currentSize + 2)%Z
  end.

Definition increaseFontSize (fontSize : string) : string :=
  match parseInt fontSize with
  | Some currentSize => handleFontSizeChange (String_of_Z (nextSize currentSize)) fontSize
  | None => fontSize
  end.

(** [decreaseFontSize]. *)
Definition prevSize (currentSize : Z) : Z :=
  match find (fun s => (s <? currentSize)%Z) (rev FONT_SIZES) with
  | Some s => s
  | None => Z.max 1 (currentSize - 2)
  end.

Definition decreaseFontSize (fontSize : string) : string :=
  match parseInt fontSize with
  | Some currentSize => handleFontSizeChange (String_of_Z (prevSize currentSize)) fontSize
  | None => fontSize
  end.

(** *** The compact toolbar: the size is kept as a number *)

(** [FONT_SIZES.indexOf(size)]: -1 when the size is not in the list. *)
Fixpoint indexOfFrom (size : Z) (l : list Z) (i : Z) : Z :=
  match l with
  | [] => (-1)%Z
  | s :: l' => if (s =? size)%Z then i else indexOfFrom size l' (i + 1)%Z
  end.

Definition indexOf (size : Z) : Z := indexOfFrom size FONT_SIZES 0.

Definition increaseFontSizeIn (currentFontSize : Z) : Z :=
  let currentIndex := indexOf currentFontSize in
  if (currentIndex <? Z.of_nat (List.length FONT_SIZES) - 1)%Z
  then nth (Z.to_nat (currentIndex + 1)) FONT_SIZES currentFontSize
  else currentFontSize.

Definition decreaseFontSizeIn (currentFontSize : Z) : Z :=
  let currentIndex := indexOf currentFontSize in
  if (0 <? currentIndex)%Z
  then nth (Z.to_nat (currentIndex - 1)) FONT_SIZES currentFontSize
  else currentFontSize.

End FontSizes.

(** ** The document outline: headings and their ids *)

Module Outline.
Import JSString.
Local Open Scope string_scope.
Local Open Scope nat_scope.

(** A document node as the outline needs it: a text node, a leaf that is not
    a heading (an image, a line break), or a node with content: its type
    name, its [level] attribute and its children. *)
#[warnings="-register-all"] Inductive PNode :=
| PText (text : string)
| PLeaf
| PBlock (typeName : string) (level : nat) (content : list PNode).

Fixpoint nodeSize (n : PNode) : nat :=
  match n with
  | PText text => String.length text
  | PLeaf => 1
  | PBlock _ _ content => 2 + list_sum (map nodeSize content)
  end.

(** [node.textContent]. *)
Fixpoint textContent (n : PNode) : string :=
  match n with
  | PText text => text
  | PLeaf => ""
  | PBlock _ _ content => concat "" (map textContent content)
  end.

(** The nodes of a subtree with their positions, as [descendants] calls its
    callback: the node first, then its children from the position after its
    opening. *)
Fixpoint visitNode (n : PNode) (pos : nat) : list (PNode * nat) :=
  (n, pos)
    :: match n with
       | PBlock _ _ content =>
           (fix visitNodes (l : list PNode) (p : nat) : list (PNode * nat) :=
              match l with
              | [] => []
              | c :: l' => (visitNode c p ++ visitNodes l' (p + nodeSize c))%list
              end) content (pos + 1)
       | _ => []
       end.

Fixpoint visitNodes (l : list PNode) (p : nat) : list (PNode * nat) :=
  match l with
  | [] => []
  | c :: l' => (visitNode c p ++ visitNodes l' (p + nodeSize c))%list
  end.

(** [doc.descendants], for the content of the document. *)
Definition descendants (doc : list PNode) : list (PNode * nat) := visitNodes doc 0.

Record Heading := {
  level : nat;
  text : string;
  id : string
}.

Definition isHeading (n : PNode) : bool :=
  match n with
  | PBlock typeName _ _ => String.eqb typeName "heading"
  | _ => false
  end.

(** The callback of [updateHeadings]. *)
Definition headingOf (np : PNode * nat) : list Heading :=
  let (n, pos) := np in
  match n with
  | PBlock typeName lvl _ =>
      if String.eqb typeName "heading"
      then [{| level := lvl; text := textContent n;
               id := "heading-" ++ String_of_nat pos |}]
      else []
  | _ => []
  end.

Definition updateHeadings (doc : list PNode) : list Heading :=
  flat_map headingOf (descendants doc).

(** [handleHeadingClick]: the position handed to [setTextSelection]
    ([None]: NaN). *)
Definition handleHeadingClick (id : string) : option Z :=
  parseInt (replaceFirst "heading-" "" id).

(** Where a visited node lies: it starts at or after [lo] and ends at or
    before [hi]. *)
Definition inRange (lo hi : nat) (np : PNode * nat) : Prop :=
  lo <= snd np /\ snd np + nodeSize (fst np) <= hi.

(** The order of a visit: positions do not go down, and go up after a
    heading. *)
Definition before (a b : PNode * nat) : Prop :=
  snd a <= snd b /\ (isHeading (fst a) = true -> snd a < snd b).

(** The positions of the headings among visited nodes. *)
Definition headingPositions (visited : list (PNode * nat)) : list nat :=
  map snd (filter (fun np => isHeading (fst np)) visited).

Definition headingId (pos : nat) : string := "heading-" ++ String_of_nat pos.

(** The "Sections" figure of the outline panel. *)
Definition sectionCount (headings : list Heading) : nat :=
  List.length (filter (fun h => (level h =? 1)%nat) headings).

End Outline.


(** ** The indent extension *)

Module Indent.
Import JS JSString.

Record IndentOptions := {
  types : list string;
  minIndent : Q;
  maxIndent : Q
}.

Definition addOptions : IndentOptions :=
  {| types := ["paragraph"; "heading"; "listItem"]%string;
     minIndent := 0;
     maxIndent := 8 |}.

(** A node as the commands read it: its type name and its [indent]
    attribute, [None] when the attribute is NaN or missing. *)
Record Node := {
  typeName : string;
  indent : option Q
}.

(** [types.includes(name)]. *)
Definition includes (types : list string) (name : string) : bool :=
  existsb (String.eqb name) types.

(** [x || 0]. *)
Definition orZero (x : option Q) : Q :=
  match x with
  | Some q => q
  | None => 0
  end.

(** The callback of the [indent] command for one node between [from] and
    [to]. *)
Definition indentNode (options : IndentOptions) (dispatch : bool) (node : Node) : Node :=
  if includes (types options) (typeName node) then
    let currentIndent := orZero (indent node) in
    if ltb currentIndent (maxIndent options) then
      if dispatch
      then {| typeName := typeName node; indent := Some (currentIndent + 1) |}
      else node
    else node
  else node.

(** The callback of the [outdent] command. *)
Definition outdentNode (options : IndentOptions) (dispatch : bool) (node : Node) : Node :=
  if includes (types options) (typeName node) then
    let currentIndent := orZero (indent node) in
    if gtb currentIndent (minIndent options) then
      if dispatch
      then {| typeName := typeName node; indent := Some (currentIndent - 1) |}
      else node
    else node
  else node.

(** The commands, on the nodes that [nodesBetween] visits for the selection;
    both return [true]. *)
Definition indentCommand (options : IndentOptions) (dispatch : bool)
    (nodes : list Node) : list Node * bool :=
  (map (indentNode options dispatch) nodes, true).

Definition outdentCommand (options : IndentOptions) (dispatch : bool)
    (nodes : list Node) : list Node * bool :=
  (map (outdentNode options dispatch) nodes, true).

Inductive Command := IndentCmd | OutdentCmd.

(** The toolbar buttons run the commands with a dispatch. *)
Definition click (options : IndentOptions) (nodes : list Node) (c : Command) : list Node :=
  match c with
  | IndentCmd => fst (indentCommand options true nodes)
  | OutdentCmd => fst (outdentCommand options true nodes)
  end.

Definition clicks (options : IndentOptions) (nodes : list Node) (cs : list Command) : list Node :=
  fold_left (click options) cs nodes.

(** [renderHTML] for a whole-number indent: no attribute for 0, else the
    [style] attribute. *)
Definition renderHTML (indent : Z) : option string :=
  if (indent =? 0)%Z then None
  else Some ("margin-left: " ++ String_of_Z (indent * 40) ++ "px")%string.

(** [element.style.marginLeft] of an element rendered with these attributes:
    the value written after [margin-left: ], empty without a style. *)
Definition marginLeft (attributes : option string) : string :=
  match attributes with
  | Some style => replaceFirst "margin-left: " "" style
  | None => ""%string
  end.

(** [parseHTML], from [element.style.marginLeft]; [None] is NaN. *)
Definition parseHTML (marginLeft : string) : option Q :=
  if String.eqb marginLeft "" then Some 0
  else match parseInt marginLeft with
       | Some z => Some (inject_Z z / 40)
       | None => None
       end.

(** *** Vocabulary of the statements below *)

(** An indent attribute that is a whole number between the two limits, or
    missing. *)
Definition levelOk (options : IndentOptions) (node : Node) : Prop :=
  match indent node with
  | Some q => (exists k : Z, q == inject_Z k)
              /\ minIndent options <= q /\ q <= maxIndent options
  | None => True
  end.

(** The same attribute value. *)
Definition sameIndent (a b : option Q) : Prop :=
  match a, b with
  | Some x, Some y => x == y
  | None, None => True
  | _, _ => False
  end.

End Indent.

(** ** The AI sidebar: the streamed preview and the text transformations *)

Module AISidebar.
Import FindReplace WordCount.
Local Open Scope nat_scope.

Definition str (s : string) : text := list_ascii_of_string s.

(** The state of the sidebar that [handleGenerate] reads and sets. *)
Record State := {
  topic : text;
  documentType : text;
  tone : text;
  pages : list Z;
  isGenerating : bool;
  generatedPreview : text
}.

(** The [for] loop of [handleGenerate] from index [i]: the previews it sets,
    in order, each [sampleContent.slice(0, i + 10)]. *)
Fixpoint reveal (fuel : nat) (sampleContent : text) (i : nat) : list text :=
  match fuel with
  | O => []
  | S fuel' =>
      if i <? List.length sampleContent
      then firstn (i + 10) sampleContent :: reveal fuel' sampleContent (i + 10)
      else []
  end.

(** The previews shown while generating. *)
Definition previews (sampleContent : text) : list text :=
  reveal (List.length sampleContent) sampleContent 0.

(** [s.split(sep)] for a separator of one character. *)
Fixpoint split (sep : ascii) (s : text) : list text :=
  match s with
  | [] => [[]]
  | c :: s' =>
      if Ascii.eqb c sep then [] :: split sep s'
      else match split sep s' with
           | w :: ws => (c :: w) :: ws
           | [] => [[c]]
           end
  end.

(** [ws.join(sep)]. *)
Fixpoint join (sep : text) (ws : list text) : text :=
  match ws with
  | [] => []
  | w :: ws' =>
      match ws' with
      | [] => w
      | _ :: _ => w ++ sep ++ join sep ws'
      end
  end.

(** [Math.ceil(n / 2)] for a length. *)
Definition Math_ceil_half (n : nat) : nat :=
  Z.to_nat (Qceiling (inject_Z (Z.of_nat n) / 2)).

(** [s.replace(/\s+/g, ' ')]: every run of white space becomes one space. *)
Fixpoint collapseSpaces (inRun : bool) (s : text) : text :=
  match s with
  | [] => []
  | c :: s' =>
      if isSpace c
      then if inRun then collapseSpaces true s' else " "%char :: collapseSpaces true s'
      else c :: collapseSpaces false s'
  end.

Inductive AIAction := Generate | Rewrite | Expand | Summarize | Grammar | Tone | Code.

Section Sidebar.
(** The sample text of [generateSampleDocument(topic, documentType, tone,
    pages[0])] and [toUpperCase] are taken as given. *)
Variable generateSampleDocument : text -> text -> text -> option Z -> text.
Variable toUpperCase : text -> text.

Definition handleGenerate (s : State) : State :=
  match trim (topic s) with
  | [] => s
  | _ :: _ =>
      let sampleContent :=
        generateSampleDocument (topic s) (documentType s) (tone s) (hd_error (pages s)) in
      {| topic := topic s;
         documentType := documentType s;
         tone := tone s;
         pages := pages s;
         isGenerating := false;
         generatedPreview := last (previews sampleContent) [] |}
  end.

Definition transformText (text : FindReplace.text) (action : AIAction) : FindReplace.text :=
  match action with
  | Rewrite => str "[Rewritten] " ++ join [" "%char] (rev (split " " text))
  | Expand =>
      text ++ ["010"%char; "010"%char]
        ++ str "Furthermore, this concept extends into several related areas that deserve exploration. The implications are far-reaching and touch upon multiple disciplines."
  | Summarize =>
      join [" "%char]
           (firstn (Math_ceil_half (List.length (split " " text))) (split " " text))
        ++ str "..."
  | Grammar =>
      toUpperCase (firstn 1 text) ++ trim (collapseSpaces false (skipn 1 text)) ++ str "."
  | Tone => str "[Tone adjusted] " ++ text
  | _ => text
  end.

(** [handleTransform]: what is handed to [onTransformText], nothing without
    a selected text. *)
Definition handleTransform (selectedText : text) (action : AIAction)
    : option (AIAction * text) :=
  match selectedText with
  | [] => None
  | _ :: _ => Some (action, transformText selectedText action)
  end.

End Sidebar.

End AISidebar.

(** * Properties *)

(** ** Numbers and sorting *)

Module JSFacts.
Import JS.

Lemma ltb_spec (a b : Q) : ltb a b = true <-> a < b.
Proof.
  unfold ltb. rewrite negb_true_iff.
  destruct (Qle_bool b a) eqn:E.
  - apply Qle_bool_iff in E. split; [discriminate | intros H; exfalso; lra].
  - split; [intros _ | reflexivity].
    destruct (Qlt_le_dec a b) as [H | H]; [exact H |].
    apply Qle_bool_iff in H. congruence.
Qed.

Lemma gtb_spec (a b : Q) : gtb a b = true <-> b < a.
Proof. unfold gtb. apply ltb_spec. Qed.

Lemma Math_max_spec (a b : Q) :
  a <= Math_max a b /\ b <= Math_max a b /\ (Math_max a b == a \/ Math_max a b == b).
Proof.
  unfold Math_max. destruct (Qle_bool a b) eqn:E.
  - apply Qle_bool_iff in E. repeat split; lra.
  - assert (b < a).
    { destruct (Qlt_le_dec b a) as [H | H]; [exact H |].
      apply Qle_bool_iff in H. congruence. }
    repeat split; lra.
Qed.

Lemma Math_min_spec (a b : Q) :
  Math_min a b <= a /\ Math_min a b <= b /\ (Math_min a b == a \/ Math_min a b == b).
Proof.
  unfold Math_min. destruct (Qle_bool a b) eqn:E.
  - apply Qle_bool_iff in E. repeat split; lra.
  - assert (b < a).
    { destruct (Qlt_le_dec b a) as [H | H]; [exact H |].
      apply Qle_bool_iff in H. congruence. }
    repeat split; lra.
Qed.

Lemma Math_round_near (x : Q) : x - (1#2) < Math_round x /\ Math_round x <= x + (1#2).
Proof.
  unfold Math_round.
  pose proof (Qfloor_le (x + (1#2))) as Hle.
  pose proof (Qlt_floor (x + (1#2))) as Hlt.
  rewrite inject_Z_plus in Hlt. change (inject_Z 1) with 1 in Hlt.
  split; lra.
Qed.

Lemma Math_round_mono (x y : Q) : x <= y -> Math_round x <= Math_round y.
Proof.
  intros H. unfold Math_round. rewrite <- Zle_Qle.
  apply Qfloor_resp_le. lra.
Qed.

Lemma Math_round_int (k : Z) : Math_round (inject_Z k) == inject_Z k.
Proof.
  unfold Math_round.
  assert (Qfloor (inject_Z k + (1#2)) = k) as ->; [| reflexivity].
  pose proof (Qfloor_le (inject_Z k + (1#2))) as Hle.
  pose proof (Qlt_floor (inject_Z k + (1#2))) as Hlt.
  rewrite inject_Z_plus in Hlt. change (inject_Z 1) with 1 in Hlt.
  set (f := Qfloor (inject_Z k + (1#2))) in *.
  assert (inject_Z f < inject_Z (k + 1)) as H1
      by (rewrite inject_Z_plus; change (inject_Z 1) with 1; lra).
  assert (inject_Z k < inject_Z (f + 1)) as H2
      by (rewrite inject_Z_plus; change (inject_Z 1) with 1; lra).
  rewrite <- Zlt_Qlt in H1, H2. lia.
Qed.

Section SortFacts.
Context {A : Type} (cmp : A -> A -> Q).

Lemma insert_perm (x : A) (l : list A) : Permutation (x :: l) (insert cmp x l).
Proof.
  induction l as [| y l IH]; simpl; [reflexivity |].
  destruct (Qle_bool (cmp x y) 0); [reflexivity |].
  rewrite perm_swap. apply perm_skip, IH.
Qed.

Lemma sort_perm (l : list A) : Permutation l (sort cmp l).
Proof.
  induction l as [| x l IH]; simpl; [reflexivity |].
  rewrite <- insert_perm. apply perm_skip, IH.
Qed.

(** An element that compares above everything in [l] goes to the end. *)
Lemma insert_last (x : A) (l : list A) :
  Forall (fun y => 0 < cmp x y) l -> insert cmp x l = l ++ [x].
Proof.
  induction 1 as [| y l Hy _ IH]; simpl; [reflexivity |].
  destruct (Qle_bool (cmp x y) 0) eqn:E.
  - apply Qle_bool_iff in E. exfalso. lra.
  - now rewrite IH.
Qed.
End SortFacts.

End JSFacts.

(** ** The ruler *)

Module RulerFacts.
Import JS JSFacts Ruler.

Lemma snap_onGrid (x : Q) : onGrid (snap x).
Proof. exists (Qfloor (x * 4 + (1#2))). reflexivity. Qed.

Lemma snap_near (x : Q) : x - (1#8) < snap x /\ snap x <= x + (1#8).
Proof.
  unfold snap. destruct (Math_round_near (x * 4)) as [H1 H2].
  set (r := Math_round (x * 4)) in *.
  split.
  - apply Qlt_shift_div_l; lra.
  - apply Qle_shift_div_r; lra.
Qed.

Lemma snap_mono (x y : Q) : x <= y -> snap x <= snap y.
Proof.
  intros H. unfold snap.
  assert (Math_round (x * 4) <= Math_round (y * 4)) as Hr
      by (apply Math_round_mono; lra).
  unfold Qdiv. apply Qmult_le_compat_r; [exact Hr | discriminate].
Qed.

Lemma snap_fix (q : Q) : onGrid q -> snap q == q.
Proof.
  intros [k Hk]. unfold snap.
  assert (Math_round (q * 4) == inject_Z k) as ->.
  { rewrite <- (Math_round_int k). unfold Math_round.
    assert (q * 4 + (1#2) == inject_Z k + (1#2)) as -> by (rewrite Hk; field).
    reflexivity. }
  now rewrite Hk.
Qed.


Lemma handleRulerClick_add (p : EditorRulerProps) (d : DragState) (x v : Q) :
  In (OnTabStopAdd v) (handleRulerClick p d x) ->
  dragging d = None /\ 0 < clickPos p x < band p /\ v = snap (clickPos p x)
  /\ handleRulerClick p d x = [OnTabStopAdd v].
Proof.
  unfold handleRulerClick, clickPos, band.
  destruct (dragging d); [intros [] |].
  destruct (gtb _ 0 && ltb _ _) eqn:E; [| intros []].
  intros [H | []]. injection H as <-.
  apply andb_true_iff in E. destruct E as [E1 E2].
  apply gtb_spec in E1. apply ltb_spec in E2. auto.
Qed.




Lemma handleTabStopAdd_perm (v : Q) (l : list Q) :
  Permutation (v :: l) (handleTabStopAdd v l).
Proof.
  unfold handleTabStopAdd. rewrite <- sort_perm. apply Permutation_cons_append.
Qed.


Lemma In_handleTabStopRemove (p t : Q) (l : list Q) :
  In t (handleTabStopRemove (Some p) l) <-> In t l /\ ~ Qabs (t - p) <= 5#100.
Proof.
  unfold handleTabStopRemove. rewrite filter_In, gtb_spec. unfold Math_abs.
  split; intros [H1 H2]; split; auto; lra.
Qed.

Lemma filter_all (f : Q -> bool) (l : list Q) :
  (forall j w, nth_error l j = Some w -> f w = true) -> filter f l = l.
Proof.
  induction l as [| y l IH]; intros H; simpl; [reflexivity |].
  rewrite (H 0%nat y eq_refl). f_equal. apply IH.
  intros j w Hj. apply (H (S j) w Hj).
Qed.

(** A filter that rejects the element at index [i] and nothing else removes
    exactly that element. *)
Lemma filter_remove_nth (f : Q -> bool) (l : list Q) (i : nat) (v : Q) :
  nth_error l i = Some v -> f v = false ->
  (forall j w, j <> i -> nth_error l j = Some w -> f w = true) ->
  filter f l = firstn i l ++ skipn (S i) l.
Proof.
  revert i. induction l as [| y l IH]; intros i Hi Hv Hrest.
  - now destruct i.
  - destruct i as [| i]; simpl in Hi |- *.
    + injection Hi as ->. rewrite Hv. apply filter_all.
      intros j w Hj. apply (Hrest (S j) w); [discriminate | exact Hj].
    + rewrite (Hrest 0%nat y); [| discriminate | reflexivity].
      f_equal. apply IH; [exact Hi | exact Hv |].
      intros j w Hji Hj. apply (Hrest (S j) w); [congruence | exact Hj].
Qed.

(** With stops a quarter inch apart, removing at a position within the
    tolerance of stop [i] removes stop [i] alone. *)
Lemma handleTabStopRemove_only (p v : Q) (l : list Q) (i : nat) :
  nth_error l i = Some v ->
  Qabs (p - v) <= 5#100 ->
  (forall j w, j <> i -> nth_error l j = Some w -> 1#4 <= Qabs (w - v)) ->
  handleTabStopRemove (Some p) l = firstn i l ++ skipn (S i) l.
Proof.
  intros Hi Hp Hfar. unfold handleTabStopRemove, Math_abs.
  apply (filter_remove_nth _ l i v Hi).
  - destruct (gtb _ _) eqn:E; [| reflexivity].
    apply gtb_spec in E. revert Hp E.
    apply (Qabs_case (p - v)); apply (Qabs_case (v - p)); intros; lra.
  - intros j w Hji Hj. apply gtb_spec.
    pose proof (Hfar j w Hji Hj) as Hw. revert Hp Hw.
    apply (Qabs_case (p - v)); apply (Qabs_case (w - v));
      apply (Qabs_case (w - p)); intros; lra.
Qed.


(** The zoom stays between 50 and 200. *)
Lemma handleZoomChange_range (newZoom : Q) : 50 <= handleZoomChange newZoom <= 200.
Proof.
  unfold handleZoomChange.
  destruct (Math_max_spec 50 newZoom) as (M1 & M2 & M3).
  destruct (Math_min_spec 200 (Math_max 50 newZoom)) as (N1 & N2 & N3).
  split; [| exact N1]. destruct N3 as [-> | ->]; [discriminate | exact M1].
Qed.

(** What a margin drag hands to [onMarginChange]. *)
Lemma margin_clamp_snap (u x : Q) :
  onGrid u -> 1#4 <= u ->
  let v := snap (Math_max (1#4) (Math_min u x)) in
  1#4 <= v /\ v <= u /\ onGrid v.
Proof.
  intros Hu Hle v. subst v.
  destruct (Math_max_spec (1#4) (Math_min u x)) as (M1 & M2 & M3).
  destruct (Math_min_spec u x) as (N1 & N2 & N3).
  set (c := Math_max (1#4) (Math_min u x)) in *.
  assert (onGrid (1#4)) as Hq by (exists 1%Z; reflexivity).
  repeat split.
  - rewrite <- (snap_fix (1#4) Hq). now apply snap_mono.
  - rewrite <- (snap_fix u Hu). apply snap_mono. destruct M3; lra.
  - apply snap_onGrid.
Qed.

(** C5: converting inches to pixels is [v * 96 * (zoom / 100)], and converting
    back gives [v] again, for every length on the page and every zoom between
    50 and 200 (over exact arithmetic). *)
Theorem px_inches_roundtrip (pw v z : Q) :
  0 <= v <= pw -> 50 <= z <= 200 ->
  inchesToPx z v == v * 96 * (z / 100) /\ pxToInches z (inchesToPx z v) == v.
Proof.
  intros _ Hz. split; [reflexivity |].
  unfold pxToInches, inchesToPx. field. lra.
Qed.

Lemma px_inches_roundtrip_witness :
  pxToInches 100 (inchesToPx 100 (3#2)) == 3#2.
Proof.
  apply (px_inches_roundtrip (85#10) (3#2) 100); split; discriminate.
Defined.

(** C2 (as amended): when a ruler click adds a tab stop, the click position
    lies strictly inside the content band, and the stored stop is that
    position snapped to the nearest quarter inch: a multiple of 0.25 within
    0.125 of the click; when the band width is itself a multiple of 0.25 the
    stored stop lies in the closed band [0, width]. *)
Theorem click_stop_in_closed_band (p : EditorRulerProps) (d : DragState) (x v : Q) :
  In (OnTabStopAdd v) (handleRulerClick p d x) ->
  0 < clickPos p x < band p
  /\ v = snap (clickPos p x)
  /\ onGrid v
  /\ clickPos p x - (1#8) < v <= clickPos p x + (1#8)
  /\ (onGrid (band p) -> 0 <= v <= band p).
Proof.
  intros H. apply handleRulerClick_add in H. destruct H as (_ & Hpos & -> & _).
  repeat split; try apply Hpos; try apply snap_near; try apply snap_onGrid.
  - assert (onGrid 0) as H0 by (exists 0%Z; reflexivity).
    rewrite <- (snap_fix 0 H0). apply snap_mono. lra.
  - rewrite <- (snap_fix (band p) H). apply snap_mono. lra.
Qed.

Lemma click_stop_in_closed_band_witness :
  0 <= 3#2 <= band (propsOf initialState).
Proof.
  assert (In (OnTabStopAdd (snap (clickPos (propsOf initialState) (22848#100))))
             (handleRulerClick (propsOf initialState) idle (22848#100))) as H
      by (left; reflexivity).
  apply click_stop_in_closed_band in H.
  destruct H as (_ & _ & _ & _ & H).
  assert (snap (clickPos (propsOf initialState) (22848#100)) == 3#2) as E
      by reflexivity.
  rewrite <- E. apply H. exists 26%Z. reflexivity.
Defined.

(** C2 fails as stated: in the initial state a click 0.1 inch right of the
    left margin stores a tab stop at 0, which is not strictly inside the band;
    with a 6.2 inch band a click at 6.19 inches stores 6.25, beyond the band. *)
Lemma click_stop_outside_open_band :
  (exists v, handleRulerClick (propsOf initialState) idle (1056#10) = [OnTabStopAdd v]
             /\ ~ (0 < v))
  /\ (exists v, handleRulerClick (propsOf offGridState) idle (69024#100) = [OnTabStopAdd v]
                /\ ~ (v < band (propsOf offGridState))).
Proof.
  split.
  - exists (0#4). split; [reflexivity | discriminate].
  - exists (25#4). split; [reflexivity | discriminate].
Qed.














(** C8: the removal handler deletes precisely the stops within 0.05 inch of
    the given position; so when every other stop is at least 0.25 inch from
    stop [i], double-clicking stop [i] removes it alone and keeps the others
    in place, also for a position that is off by up to 0.05 inch; adding a stop
    at 2.0 inches and double-clicking it gives back the list as it was. *)
Theorem double_click_removes_that_stop :
  (forall l p t,
      In t (handleTabStopRemove (Some p) l) <-> In t l /\ ~ Qabs (t - p) <= 5#100)
  /\ (forall s i v,
        nth_error (stops s) i = Some v ->
        (forall j w, j <> i -> nth_error (stops s) j = Some w -> 1#4 <= Qabs (w - v)) ->
        stops (doubleClick s i) = firstn i (stops s) ++ skipn (S i) (stops s)
        /\ forall p, Qabs (p - v) <= 5#100 ->
                     handleTabStopRemove (Some p) (stops s)
                     = firstn i (stops s) ++ skipn (S i) (stops s))
  /\ (let s := {| pageSizeWidth := 85#10; marginLeft := 1; marginRight := 1;
                  stops := handleTabStopAdd 2 [1#2; 1; 3#2; 3];
                  zoomPct := 100 |} in
      stops s = [1#2; 1; 3#2; 2; 3]
      /\ stops (doubleClick s 3) = [1#2; 1; 3#2; 3]).
Proof.
  split; [| split].
  - intros l p t. apply In_handleTabStopRemove.
  - intros s i v Hi Hfar. split.
    + unfold doubleClick, handleTabDoubleClick. simpl. rewrite Hi.
      apply (handleTabStopRemove_only v v _ i Hi); [| exact Hfar].
      assert (v - v == 0) as -> by ring. discriminate.
    + intros p Hp. now apply (handleTabStopRemove_only p v _ i Hi).
  - split; reflexivity.
Qed.

Lemma double_click_removes_that_stop_witness :
  stops (doubleClick initialState 3) = [1#2; 1; 3#2; 5#2; 3; 7#2; 4].
Proof.
  refine (proj1 (proj1 (proj2 double_click_removes_that_stop)
                       initialState 3%nat 2 eq_refl _)).
  intros j w Hj Hw.
    do 8 (destruct j as [| j];
        [try congruence; injection Hw as <-; vm_compute; discriminate |]).
  simpl in Hw. destruct j; discriminate.
Defined.

End RulerFacts.

(** ** The page-setup margin fields *)

Module PageSetupFacts.
Import PageSetup.
Local Open Scope string_scope.

Lemma orZero_not_NaN (x : number) : orZero x <> NaN.
Proof. destruct x as [| b | q]; simpl; [| | destruct (Qeq_bool q 0)]; discriminate. Qed.

(** C9: when the text of a margin field does not parse as a number
    ([parseFloat] gives NaN, as for the empty string or for letters), the
    margin stored by the field's handler is 0; no handler ever stores NaN. *)
Theorem margin_input_falls_back_to_zero :
  (forall (m : Margins) (value : string),
      parseFloat value = NaN ->
      top (onTopChange m value) = Fin 0
      /\ bottom (onBottomChange m value) = Fin 0
      /\ left (onLeftChange m value) = Fin 0
      /\ right (onRightChange m value) = Fin 0)
  /\ (forall (m : Margins) (value : string),
        top (onTopChange m value) <> NaN
        /\ bottom (onBottomChange m value) <> NaN
        /\ left (onLeftChange m value) <> NaN
        /\ right (onRightChange m value) <> NaN)
  /\ parseFloat "" = NaN
  /\ parseFloat "abc" = NaN.
Proof.
  split; [| split; [| split; reflexivity]].
  - intros m value H. simpl. rewrite H. auto.
  - intros m value. simpl. auto using orZero_not_NaN.
Qed.

Lemma margin_input_falls_back_to_zero_witness :
  parseFloat "1,5" <> NaN
  /\ top (onTopChange {| top := Fin 1; bottom := Fin 1; left := Fin 1; right := Fin 1 |}
                      "inch") = Fin 0.
Proof.
  split; [discriminate |].
  apply (proj1 margin_input_falls_back_to_zero
                {| top := Fin 1; bottom := Fin 1; left := Fin 1; right := Fin 1 |}
                "inch").
  reflexivity.
Defined.

End PageSetupFacts.

(** ** Find and replace *)

Module FindReplaceFacts.
Import JS JSFacts FindReplace.
Local Open Scope nat_scope.

Section RegexFacts.
Variable term : text.
Variable cs : bool.
Hypothesis term_nonempty : term <> [].

Lemma term_length_pos : 0 < List.length term.
Proof. destruct term; [congruence | simpl; lia]. Qed.

Lemma matchHere_length (pat s : text) :
  matchHere cs pat s = true -> List.length pat <= List.length s.
Proof.
  revert s. induction pat as [| p pat IH]; intros s H; simpl; [lia |].
  destruct s as [| c s]; simpl in H; [discriminate |].
  apply andb_true_iff in H. destruct H as [_ H]. apply IH in H. simpl. lia.
Qed.

Lemma indexFrom_spec (s : text) (i j : nat) :
  indexFrom term cs s i = Some j ->
  i <= j /\ j - i <= List.length s /\ matchHere cs term (skipn (j - i) s) = true.
Proof.
  revert i. induction s as [| c s IH]; intros i; simpl.
  - destruct (matchHere cs term []) eqn:E; [| discriminate].
    intros [= <-]. rewrite Nat.sub_diag. simpl. auto with arith.
  - destruct (matchHere cs term (c :: s)) eqn:E.
    + intros [= <-]. rewrite Nat.sub_diag. simpl. auto with arith.
    + intros H. apply IH in H. destruct H as (H1 & H2 & H3).
      replace (j - i) with (S (j - S i)) by lia. simpl. repeat split; (lia || assumption).
Qed.

(** What a successful [exec] returns: an index at or after [lastIndex] at
    which the whole term lies inside the text. *)
Lemma exec_spec (s : text) (lastIndex j : nat) :
  exec term cs s lastIndex = Some j ->
  lastIndex <= j /\ j + List.length term <= List.length s /\ matchHere cs term (skipn j s) = true.
Proof.
  unfold exec. destruct (lastIndex <=? List.length s) eqn:E; [| discriminate].
  apply Nat.leb_le in E. intros H. apply indexFrom_spec in H.
  destruct H as (H1 & H2 & H3). rewrite length_skipn in H2.
  rewrite skipn_skipn in H3. replace (j - lastIndex + lastIndex) with j in H3 by lia.
  pose proof (matchHere_length _ _ H3) as H4. rewrite length_skipn in H4.
  pose proof term_length_pos. repeat split; (lia || assumption).
Qed.

Lemma execLoop_In (fuel : nat) (s : text) (lastIndex j : nat) :
  In j (execLoop term cs fuel s lastIndex) ->
  lastIndex <= j /\ j + List.length term <= List.length s /\ matchHere cs term (skipn j s) = true.
Proof.
  revert lastIndex. induction fuel as [| fuel IH]; intros li; simpl; [intros [] |].
  destruct (exec term cs s li) as [i |] eqn:E; [| intros []].
  apply exec_spec in E. intros [<- | H]; [exact E |].
  apply IH in H. repeat split; (lia || apply H).
Qed.

Lemma execLoop_sorted (fuel : nat) (s : text) (lastIndex : nat) :
  StronglySorted lt (execLoop term cs fuel s lastIndex).
Proof.
  revert lastIndex. induction fuel as [| fuel IH]; intros li; simpl; [constructor |].
  destruct (exec term cs s li) as [i |] eqn:E; [| constructor].
  constructor; [apply IH |].
  apply Forall_forall. intros j Hj. apply execLoop_In in Hj.
  pose proof term_length_pos. lia.
Qed.

(** The loop has come to its own end within [S (length s)] rounds: more
    rounds change nothing. *)
Lemma execLoop_fuel (fuel1 fuel2 : nat) (s : text) (lastIndex : nat) :
  List.length s < lastIndex + fuel1 -> List.length s < lastIndex + fuel2 ->
  execLoop term cs fuel1 s lastIndex = execLoop term cs fuel2 s lastIndex.
Proof.
  revert fuel2 lastIndex.
  assert (forall fuel li, List.length s < li -> execLoop term cs fuel s li = []) as Hend.
  { intros [| fuel] li H; simpl; [reflexivity |].
    unfold exec. destruct (li <=? List.length s) eqn:E; [| reflexivity].
    apply Nat.leb_le in E. lia. }
  induction fuel1 as [| fuel1 IH]; intros fuel2 li H1 H2.
  - rewrite !Hend by lia. reflexivity.
  - destruct fuel2 as [| fuel2]; [rewrite !Hend by lia; reflexivity |].
    simpl. destruct (exec term cs s li) as [i |] eqn:E; [| reflexivity].
    apply exec_spec in E. pose proof term_length_pos.
    f_equal. apply IH; lia.
Qed.

Lemma matchIndices_total (s : text) (extra : nat) :
  execLoop term cs (extra + S (List.length s)) s 0 = matchIndices term cs s.
Proof. unfold matchIndices. apply execLoop_fuel; lia. Qed.

(** The same holds for the left-to-right replacement. *)
Lemma replaceLoop_fuel (fuel1 fuel2 : nat) (r s : text) (lastIndex : nat) :
  List.length s < lastIndex + fuel1 -> List.length s < lastIndex + fuel2 ->
  replaceLoop term cs fuel1 r s lastIndex = replaceLoop term cs fuel2 r s lastIndex.
Proof.
  revert fuel2 lastIndex.
  assert (forall fuel li, List.length s < li ->
                          replaceLoop term cs fuel r s li = skipn li s) as Hend.
  { intros [| fuel] li H; simpl; [reflexivity |].
    unfold exec. destruct (li <=? List.length s) eqn:E; [| reflexivity].
    apply Nat.leb_le in E. lia. }
  induction fuel1 as [| fuel1 IH]; intros fuel2 li H1 H2.
  - rewrite !Hend by lia. reflexivity.
  - destruct fuel2 as [| fuel2]; [rewrite !Hend by lia; reflexivity |].
    simpl. destruct (exec term cs s li) as [i |] eqn:E; [| reflexivity].
    apply exec_spec in E. pose proof term_length_pos.
    do 2 f_equal. apply IH; lia.
Qed.

Lemma replaceInText_total (r s : text) (extra : nat) :
  replaceLoop term cs (extra + S (List.length s)) r s 0 = replaceInText term cs r s.
Proof. unfold replaceInText. apply replaceLoop_fuel; lia. Qed.
End RegexFacts.


Lemma docSize_app (d1 d2 : Doc) : docSize (d1 ++ d2) = docSize d1 + docSize d2.
Proof. unfold docSize. now rewrite map_app, list_sum_app. Qed.

Lemma descendantsFrom_In (d : Doc) (pos : nat) (n : Node) (q : nat) :
  In (n, q) (descendantsFrom pos d) ->
  exists pre post, d = pre ++ n :: post /\ q = pos + docSize pre.
Proof.
  revert pos. induction d as [| n0 d IH]; intros pos; simpl; [intros [] |].
  intros [[= <- <-] | H].
  - exists [], d. split; [reflexivity | unfold docSize; simpl; lia].
  - apply IH in H. destruct H as (pre & post & -> & ->).
    exists (n0 :: pre), post. split; [reflexivity |].
    unfold docSize. simpl. lia.
Qed.

Lemma scan_In (term : text) (cs : bool) (d : Doc) (m : SearchResult) :
  term <> [] ->
  In m (scan term cs d) ->
  exists t pos,
    In (TextNode t, pos) (descendants d)
    /\ pos <= from m
    /\ to m = from m + List.length term
    /\ to m <= pos + List.length t
    /\ matchHere cs term (skipn (from m - pos) t) = true.
Proof.
  intros Hne H. unfold scan in H. apply in_flat_map in H.
  destruct H as ([n pos] & Hn & Hm). destruct n as [t |]; [| destruct Hm].
  simpl in Hm. apply in_map_iff in Hm. destruct Hm as (i & <- & Hi).
  apply (execLoop_In term cs Hne) in Hi. destruct Hi as (_ & Hi & Hmatch).
  exists t, pos. simpl. repeat split; try lia; [exact Hn |].
  replace (pos + i - pos) with i by lia. exact Hmatch.
Qed.

(** C10: every match span reported by the scanner lies inside one text node
    of the document, and is an occurrence of the term in that node's text;
    so the term split over two adjacent text nodes, "ca" followed by "t", is
    not reported although the text of the document is "cat". *)
Theorem matches_stay_inside_one_text_node :
  (forall term cs d m,
      term <> [] ->
      In m (scan term cs d) ->
      exists t pos,
        In (TextNode t, pos) (descendants d)
        /\ pos <= from m /\ from m < to m /\ to m <= pos + List.length t
        /\ to m = from m + List.length term
        /\ matchHere cs term (skipn (from m - pos) t) = true)
  /\ (let d := [Token; TextNode (T "ca"); TextNode (T "t"); Token] in
      textContent d = T "cat"
      /\ scan (T "cat") true d = []
      /\ scan (T "cat") false d = []).
Proof.
  split.
  - intros term cs d m Hne H. destruct (scan_In term cs d m Hne H)
      as (t & pos & H1 & H2 & H3 & H4 & H5).
    exists t, pos. pose proof (term_length_pos term Hne).
    repeat split; try assumption; lia.
  - repeat split; reflexivity.
Qed.

Lemma matches_stay_inside_one_text_node_witness :
  exists t pos,
    In (TextNode t, pos) (descendants [Token; TextNode (T "a cat"); Token])
    /\ pos <= 3 /\ 3 < 6 /\ 6 <= pos + List.length t
    /\ 6 = 3 + List.length (T "cat")
    /\ matchHere false (T "cat") (skipn (3 - pos) t) = true.
Proof.
  apply (proj1 matches_stay_inside_one_text_node (T "cat") false
               [Token; TextNode (T "a cat"); Token] {| from := 3; to := 6 |}).
  - discriminate.
  - left. reflexivity.
Defined.

Lemma at_index_valid (rs : list SearchResult) (i : Z) :
  (0 <= i < Z.of_nat (List.length rs))%Z ->
  exists m, at_index rs i = Some m /\ nth_error rs (Z.to_nat i) = Some m.
Proof.
  intros H. unfold at_index.
  destruct (i <? 0)%Z eqn:E; [apply Z.ltb_lt in E; lia |].
  destruct (nth_error rs (Z.to_nat i)) as [m |] eqn:En; [eauto |].
  apply nth_error_None in En. lia.
Qed.

Lemma inTextNode_spec (d : Doc) (pos a b : nat) :
  inTextNode pos d a b = true
  <-> exists t q, In (TextNode t, q) (descendantsFrom pos d)
                  /\ q <= a /\ a <= b /\ b <= q + List.length t.
Proof.
  revert pos. induction d as [| n d IH]; intros pos; simpl.
  - split; [discriminate | intros (t & q & [] & _)].
  - destruct n as [t0 |].
    + rewrite orb_true_iff, !andb_true_iff, !Nat.leb_le, IH. split.
      * intros [H | (t & q & H & Hq)].
        -- exists t0, pos. split; [now left | lia].
        -- exists t, q. split; [now right | exact Hq].
      * intros (t & q & [[= <- <-] | H] & Hq).
        -- left. lia.
        -- right. exists t, q. split; assumption.
    + rewrite IH. split.
      * intros (t & q & H & Hq). exists t, q. split; [now right | exact Hq].
      * intros (t & q & [H | H] & Hq); [discriminate H |].
        exists t, q. split; assumption.
Qed.

Lemma insideText_iff (d : Doc) (m : SearchResult) :
  insideText d m <-> inTextNode 0 d (from m) (to m) = true.
Proof. unfold insideText, descendants. now rewrite inTextNode_spec. Qed.

Lemma insideText_docSize (d : Doc) (m : SearchResult) :
  insideText d m -> to m <= docSize d.
Proof.
  intros (t & pos & Hin & H1 & H2 & H3).
  apply descendantsFrom_In in Hin. destruct Hin as (pre & post & -> & ->).
  rewrite docSize_app. unfold docSize at 2. simpl. lia.
Qed.

Lemma descendantsFrom_mid (pre post : Doc) (n : Node) (pos : nat) :
  In (n, pos + docSize pre) (descendantsFrom pos (pre ++ n :: post)).
Proof.
  revert pos. induction pre as [| n0 pre IH]; intros pos; simpl.
  - left. unfold docSize. simpl. f_equal. lia.
  - right. replace (pos + docSize (n0 :: pre))
      with (pos + nodeSize n0 + docSize pre) by (unfold docSize; simpl; lia).
    apply IH.
Qed.

(** A match inside a text node is selected as it is, and [coordsAtPos]
    returns. *)
Lemma highlightMatch_inside (m : SearchResult) (e : Editor) :
  insideText (doc e) m ->
  highlightMatch m e = ({| doc := doc e; selection := Some (from m, to m) |}, Returns).
Proof.
  intros H. pose proof (insideText_docSize _ _ H) as Hsize.
  destruct H as (t & pos & Hin & H1 & H2 & H3).
  assert (insideText (doc e) m) as Hi by (exists t, pos; auto).
  apply insideText_iff in Hi.
  unfold highlightMatch, setTextSelection, coordsAtPosThrows. rewrite Hi.
  cbn [doc]. assert ((docSize (doc e) <? from m) = false) as ->
      by (apply Nat.ltb_ge; lia).
  reflexivity.
Qed.

(** A match that starts beyond the document makes [coordsAtPos] throw. *)
Lemma highlightMatch_outside (m : SearchResult) (e : Editor) :
  docSize (doc e) < from m -> snd (highlightMatch m e) = RangeError.
Proof.
  intros H. unfold highlightMatch, coordsAtPosThrows, setTextSelection. cbn [doc].
  now rewrite (proj2 (Nat.ltb_lt _ _) H).
Qed.

Lemma highlightMatch_doc (m : SearchResult) (e : Editor) :
  doc (fst (highlightMatch m e)) = doc e.
Proof.
  unfold highlightMatch. destruct (coordsAtPosThrows _ _); reflexivity.
Qed.

Lemma highlightMatch_not_TypeError (m : SearchResult) (e : Editor) :
  snd (highlightMatch m e) <> TypeError.
Proof.
  unfold highlightMatch. destruct (coordsAtPosThrows _ _); discriminate.
Qed.

Lemma sameSearch_setCurrentIndex (s : Session) (j : Z) :
  sameSearch s (setCurrentIndex j s).
Proof. repeat split. Qed.

Lemma goToNext_valid (s : Session) (e : Editor) :
  results s <> [] ->
  (0 <= currentIndex s < Z.of_nat (List.length (results s)))%Z ->
  let j := ((currentIndex s + 1) mod Z.of_nat (List.length (results s)))%Z in
  exists m, nth_error (results s) (Z.to_nat j) = Some m
            /\ (0 <= j < Z.of_nat (List.length (results s)))%Z
            /\ goToNext (s, e)
               = ((setCurrentIndex j s, fst (highlightMatch m e)),
                  snd (highlightMatch m e)).
Proof.
  intros Hne Hi j.
  assert ((List.length (results s) =? 0) = false) as Hlen.
  { apply Nat.eqb_neq. destruct (results s); [congruence | discriminate]. }
  assert (0 <= j < Z.of_nat (List.length (results s)))%Z as Hj
      by (apply Z.mod_pos_bound; lia).
  destruct (at_index_valid (results s) j Hj) as (m & Hm & Hnth).
  exists m. split; [exact Hnth | split; [exact Hj |]].
  unfold goToNext. rewrite Hlen, Z.rem_mod_nonneg by lia. fold j. rewrite Hm.
  now destruct (highlightMatch m e).
Qed.

Lemma goToPrevious_valid (s : Session) (e : Editor) :
  results s <> [] ->
  (0 <= currentIndex s < Z.of_nat (List.length (results s)))%Z ->
  let n := Z.of_nat (List.length (results s)) in
  let j := ((currentIndex s - 1 + n) mod n)%Z in
  exists m, nth_error (results s) (Z.to_nat j) = Some m
            /\ (0 <= j < n)%Z
            /\ goToPrevious (s, e)
               = ((setCurrentIndex j s, fst (highlightMatch m e)),
                  snd (highlightMatch m e)).
Proof.
  intros Hne Hi n j.
  assert ((List.length (results s) =? 0) = false) as Hlen.
  { apply Nat.eqb_neq. destruct (results s); [congruence | discriminate]. }
  assert (0 <= j < n)%Z as Hj by (apply Z.mod_pos_bound; lia).
  destruct (at_index_valid (results s) j Hj) as (m & Hm & Hnth).
  exists m. split; [exact Hnth | split; [exact Hj |]].
  unfold goToPrevious. rewrite Hlen. fold n. rewrite Z.rem_mod_nonneg by lia.
  fold j. rewrite Hm. now destruct (highlightMatch m e).
Qed.

(** C7: with [n > 0] matches and a valid current index [i], [goToNext] sets
    the index to [(i + 1) mod n] and [goToPrevious] to [(i - 1 + n) mod n];
    the rest of the search and the document stay; the match at the new index
    is selected and the call returns when that match lies inside a text node
    of the document, and the call throws a RangeError, with the index set,
    when the match starts beyond the document; with 3 matches and index 2,
    [goToNext] sets index 0; with no matches both leave the index and the
    selection as they are. *)
Theorem navigation_is_cyclic :
  (forall s e i n,
      n = Z.of_nat (List.length (results s)) -> currentIndex s = i ->
      (0 < n)%Z -> (0 <= i < n)%Z ->
      (exists m s' e' c,
          nth_error (results s) (Z.to_nat ((i + 1) mod n)) = Some m
          /\ goToNext (s, e) = ((s', e'), c)
          /\ currentIndex s' = ((i + 1) mod n)%Z
          /\ sameSearch s s' /\ doc e' = doc e
          /\ (insideText (doc e) m ->
              selection e' = Some (from m, to m) /\ c = Returns)
          /\ (docSize (doc e) < from m -> c = RangeError))
      /\ (exists m s' e' c,
            nth_error (results s) (Z.to_nat ((i - 1 + n) mod n)) = Some m
            /\ goToPrevious (s, e) = ((s', e'), c)
            /\ currentIndex s' = ((i - 1 + n) mod n)%Z
            /\ sameSearch s s' /\ doc e' = doc e
            /\ (insideText (doc e) m ->
                selection e' = Some (from m, to m) /\ c = Returns)
            /\ (docSize (doc e) < from m -> c = RangeError)))
  /\ (forall s e m0 m1 m2,
        results s = [m0; m1; m2] -> currentIndex s = 2%Z ->
        currentIndex (fst (fst (goToNext (s, e)))) = 0%Z
        /\ (insideText (doc e) m0 ->
            selection (snd (fst (goToNext (s, e)))) = Some (from m0, to m0)))
  /\ (forall s e,
        results s = [] ->
        goToNext (s, e) = ((s, e), Returns) /\ goToPrevious (s, e) = ((s, e), Returns)).
Proof.
  split; [| split].
  - intros s e i n Hn Hi Hpos Hrange.
    assert (results s <> []) as Hne
        by (intros Hc; rewrite Hc in Hn; simpl in Hn; lia).
    assert (0 <= currentIndex s < Z.of_nat (List.length (results s)))%Z as Hv
        by (rewrite Hi, <- Hn; exact Hrange).
    split.
    + destruct (goToNext_valid s e Hne Hv) as (m & Hnth & _ & Hgo).
      rewrite Hi, <- Hn in Hnth, Hgo.
      exists m, (setCurrentIndex ((i + 1) mod n) s), (fst (highlightMatch m e)),
             (snd (highlightMatch m e)).
      split; [exact Hnth |]. split; [exact Hgo |]. split; [reflexivity |].
      split; [apply sameSearch_setCurrentIndex |].
      split; [apply highlightMatch_doc |]. split.
      * intros Hin. now rewrite (highlightMatch_inside m e Hin).
      * apply highlightMatch_outside.
    + destruct (goToPrevious_valid s e Hne Hv) as (m & Hnth & _ & Hgo).
      rewrite Hi, <- Hn in Hnth, Hgo.
      exists m, (setCurrentIndex ((i - 1 + n) mod n) s), (fst (highlightMatch m e)),
             (snd (highlightMatch m e)).
      split; [exact Hnth |]. split; [exact Hgo |]. split; [reflexivity |].
      split; [apply sameSearch_setCurrentIndex |].
      split; [apply highlightMatch_doc |]. split.
      * intros Hin. now rewrite (highlightMatch_inside m e Hin).
      * apply highlightMatch_outside.
  - intros s e m0 m1 m2 Hr Hi. unfold goToNext. rewrite Hr, Hi.
    cbn [List.length Nat.eqb].
    change (Z.rem (2 + 1) (Z.of_nat 3)) with 0%Z.
    change (at_index [m0; m1; m2] 0) with (Some m0). cbv beta iota.
    destruct (highlightMatch m0 e) as [e' c] eqn:E. split; [reflexivity |].
    intros Hin. rewrite (highlightMatch_inside m0 e Hin) in E.
    injection E as <- _. reflexivity.
  - intros s e Hr. unfold goToNext, goToPrevious. rewrite Hr. auto.
Qed.

Lemma navigation_is_cyclic_witness :
  let s := {| searchTerm := T "a"; replaceTerm := []; currentIndex := 0;
              results := [{| from := 1; to := 2 |}; {| from := 4; to := 5 |}];
              caseSensitive := false |} in
  let e := {| doc := [Token; TextNode (T "a, a"); Token]; selection := Some (1, 2) |} in
  exists m s' e' c,
    nth_error (results s) (Z.to_nat ((0 - 1 + 2) mod 2)) = Some m
    /\ goToPrevious (s, e) = ((s', e'), c)
    /\ currentIndex s' = ((0 - 1 + 2) mod 2)%Z
    /\ sameSearch s s' /\ doc e' = doc e
    /\ (insideText (doc e) m -> selection e' = Some (from m, to m) /\ c = Returns)
    /\ (docSize (doc e) < from m -> c = RangeError).
Proof.
  intros s e.
  apply (proj2 (proj1 navigation_is_cyclic s e 0%Z 2%Z eq_refl eq_refl
                      ltac:(lia) ltac:(lia))).
Defined.


(** *** Replace all *)

Lemma byFromDesc_le (a b : SearchResult) :
  (byFromDesc a b <= 0)%Q <-> from b <= from a.
Proof.
  unfold byFromDesc. rewrite Nat2Z.inj_le, Zle_Qle. split; intros; lra.
Qed.

Lemma insert_desc_sorted (x : SearchResult) (l : list SearchResult) :
  StronglySorted (fun a b => from b <= from a) l ->
  StronglySorted (fun a b => from b <= from a) (insert byFromDesc x l).
Proof.
  induction 1 as [| y l Hl IH Hy]; simpl; [repeat constructor |].
  destruct (Qle_bool (byFromDesc x y) 0) eqn:E.
  - apply Qle_bool_iff, byFromDesc_le in E.
    constructor; [now constructor |].
    constructor; [exact E |].
    eapply Forall_impl; [| exact Hy]. simpl. intros; lia.
  - assert (from x <= from y).
    { destruct (le_lt_dec (from y) (from x)) as [H | H]; [| lia].
      apply byFromDesc_le, Qle_bool_iff in H. congruence. }
    constructor; [exact IH |].
    rewrite <- (insert_perm byFromDesc x l). now constructor.
Qed.

Lemma sortedResults_sorted (rs : list SearchResult) :
  StronglySorted (fun a b => from b <= from a) (sortedResults rs).
Proof.
  induction rs as [| x rs IH]; simpl; [constructor |].
  now apply insert_desc_sorted.
Qed.

(** Matches that come in ascending order are processed last to first. *)
Lemma sortedResults_rev (rs : list SearchResult) :
  StronglySorted (fun a b => from a < from b) rs -> sortedResults rs = rev rs.
Proof.
  induction 1 as [| x rs Hrs IH Hx]; [reflexivity |].
  unfold sortedResults in *. simpl. rewrite IH. apply insert_last.
  apply Forall_rev. eapply Forall_impl; [| exact Hx]. simpl.
  intros y Hy. unfold byFromDesc.
  assert (inject_Z (Z.of_nat (from x)) < inject_Z (Z.of_nat (from y)))%Q
    by (rewrite <- Zlt_Qlt; lia).
  lra.
Qed.

Lemma replaceEach_app (l1 l2 : list SearchResult) (r : text) (e : Editor) :
  replaceEach (l1 ++ l2) r e
  = match replaceEach l1 r e with
    | Some e' => replaceEach l2 r e'
    | None => None
    end.
Proof.
  revert e. induction l1 as [| m l1 IH]; intros e; simpl; [reflexivity |].
  destruct (insertContentAt m r e); [apply IH | reflexivity].
Qed.

(** An edit in a non-empty range inside a text node changes that node only. *)
Lemma replaceRange_inside (pre post : Doc) (t r : text) (p0 a b : nat) :
  p0 + docSize pre <= a -> a < b -> b <= p0 + docSize pre + List.length t ->
  replaceRange p0 (pre ++ TextNode t :: post) a b r
  = Some (pre ++ TextNode (splice t (a - (p0 + docSize pre)) (b - (p0 + docSize pre)) r)
              :: post).
Proof.
  revert p0. induction pre as [| n pre IH]; intros p0 Ha Hab Hb.
  - unfold docSize in *. simpl in *. rewrite Nat.add_0_r in *.
    assert ((p0 <=? a) && (a <=? b) && (b <=? p0 + List.length t) = true) as ->.
    { rewrite !andb_true_iff, !Nat.leb_le. lia. }
    reflexivity.
  - assert (docSize (n :: pre) = nodeSize n + docSize pre) as Hs by reflexivity.
    rewrite Hs in *. clear Hs. destruct n as [t0 |]; simpl in *.
    + assert ((p0 <=? a) && (a <=? b) && (b <=? p0 + List.length t0) = false) as ->.
      { rewrite !andb_false_iff, !Nat.leb_gt. lia. }
      rewrite IH by lia. now rewrite Nat.add_assoc.
    + rewrite IH by lia.
      now replace (p0 + S (docSize pre)) with (p0 + 1 + docSize pre) by lia.
Qed.

Lemma firstn_plus (A : Type) (a b : nat) (l : list A) :
  firstn (a + b) l = firstn a l ++ firstn b (skipn a l).
Proof.
  revert l. induction a as [| a IH]; intros l; simpl; [reflexivity |].
  destruct l as [| x l]; simpl; [now rewrite firstn_nil | now rewrite IH].
Qed.

(** A plain replacement for a non-empty range inside a text node changes
    that node only, and leaves the cursor after the inserted text. *)
Lemma insertContentAt_inside (pre post : Doc) (t r : text) (m : SearchResult)
      (e : Editor) :
  isPlainText r = true ->
  doc e = pre ++ TextNode t :: post ->
  docSize pre <= from m -> from m < to m -> to m <= docSize pre + List.length t ->
  insertContentAt m r e
  = Some {| doc := pre ++ TextNode (splice t (from m - docSize pre)
                                           (to m - docSize pre) r) :: post;
            selection := Some (from m + List.length r, from m + List.length r) |}.
Proof.
  intros Hr He H1 H2 H3.
  assert (inTextNode 0 (doc e) (from m) (to m) = true) as Hin.
  { apply insideText_iff. exists t, (docSize pre). rewrite He. split; [| lia].
    apply (descendantsFrom_mid pre post (TextNode t) 0). }
  unfold insertContentAt, insertContent, setTextSelection. rewrite Hr, Hin.
  cbn [selection doc]. rewrite He.
  rewrite (replaceRange_inside pre post t r 0) by (simpl; lia).
  reflexivity.
Qed.

Section ReplaceFacts.
Variable term : text.
Variable cs : bool.
Variable r : text.
Hypothesis term_nonempty : term <> [].
Hypothesis r_plain : isPlainText r = true.

Let mk (pos index : nat) : SearchResult :=
  {| from := pos + index; to := pos + index + List.length term |}.

(** Inside one text node: replacing the matches found from [lastIndex] on,
    last one first, leaves the text before [lastIndex] as it is and turns
    the rest into what the left-to-right replacement gives. *)
Lemma replaceEach_node (fuel : nat) (pre post : Doc) (t : text) :
  forall (lastIndex : nat) (e : Editor),
    lastIndex <= List.length t ->
    doc e = pre ++ TextNode t :: post ->
    exists e',
      replaceEach (rev (map (mk (docSize pre))
                            (execLoop term cs fuel t lastIndex))) r e = Some e'
      /\ doc e' = pre ++ TextNode (firstn lastIndex t
                                    ++ replaceLoop term cs fuel r t lastIndex)
                         :: post.
Proof.
  induction fuel as [| fuel IH]; intros li e Hli He; simpl.
  - exists e. now rewrite firstn_skipn.
  - destruct (exec term cs t li) as [i |] eqn:E.
    2:{ exists e. now rewrite firstn_skipn. }
    apply (exec_spec term cs term_nonempty) in E. destruct E as (E1 & E2 & _).
    pose proof (term_length_pos term term_nonempty) as Hpos.
    simpl. rewrite replaceEach_app.
    destruct (IH (i + List.length term) e ltac:(lia) He) as (e1 & -> & He1).
    simpl.
    rewrite (insertContentAt_inside pre post _ r _ e1 r_plain He1); simpl;
      try rewrite length_app, length_firstn; try lia.
    eexists. split; [reflexivity |]. simpl. do 3 f_equal.
    unfold splice.
    replace (docSize pre + i - docSize pre) with i by lia.
    replace (docSize pre + i + List.length term - docSize pre)
      with (i + List.length term) by lia.
    set (X := replaceLoop term cs fuel r t (i + List.length term)).
    rewrite firstn_app, firstn_firstn, length_firstn.
    replace (Init.Nat.min i (i + List.length term)) with i by lia.
    replace (i - Init.Nat.min (i + List.length term) (List.length t)) with 0 by lia.
    simpl. rewrite app_nil_r.
    rewrite skipn_app, length_firstn.
    rewrite (skipn_all2 (firstn _ t)) by (rewrite length_firstn; lia).
    replace (i + List.length term - Init.Nat.min (i + List.length term) (List.length t))
      with 0 by lia.
    simpl.
    replace i with (li + (i - li)) at 1 by lia.
    rewrite firstn_plus, <- app_assoc. reflexivity.
Qed.

(** Over the whole document: replacing the scanner's matches, last one
    first, replaces in every text node and moves nothing else. *)
Lemma replaceEach_doc (items : Doc) :
  forall (pre : Doc) (e : Editor),
    doc e = pre ++ items ->
    exists e',
      replaceEach (rev (flat_map (visit term cs)
                                 (descendantsFrom (docSize pre) items))) r e
      = Some e'
      /\ doc e' = pre ++ map (replaceInNode term cs r) items.
Proof.
  induction items as [| n items IH]; intros pre e He; simpl.
  - exists e. auto.
  - rewrite rev_app_distr, replaceEach_app.
    destruct (IH (pre ++ [n]) e) as (e1 & H1 & He1).
    { now rewrite <- app_assoc. }
    rewrite docSize_app in H1. unfold docSize at 2 in H1. simpl in H1.
    rewrite Nat.add_0_r in H1. rewrite H1.
    rewrite <- app_assoc in He1. simpl in He1.
    destruct n as [t |]; simpl.
    + destruct (replaceEach_node (S (List.length t)) pre _ t 0 e1 ltac:(lia) He1)
        as (e2 & H2 & He2).
      exists e2. split; [exact H2 | exact He2].
    + exists e1. auto.
Qed.

Lemma visit_sorted (n : Node) (pos : nat) :
  StronglySorted (fun a b => from a < from b) (visit term cs (n, pos)).
Proof.
  destruct n as [t |]; simpl; [| constructor].
  unfold matchIndices.
  induction (execLoop_sorted term cs term_nonempty (S (List.length t)) t 0)
    as [| i l Hl IH Hi]; simpl; constructor; [exact IH |].
  apply Forall_map. eapply Forall_impl; [| exact Hi]. simpl. intros; lia.
Qed.

Lemma visit_bounds (n : Node) (pos : nat) (m : SearchResult) :
  In m (visit term cs (n, pos)) -> pos <= from m < pos + nodeSize n.
Proof.
  destruct n as [t |]; simpl; [| intros []].
  intros H. apply in_map_iff in H. destruct H as (i & <- & Hi).
  apply (execLoop_In term cs term_nonempty) in Hi.
  pose proof (term_length_pos term term_nonempty). simpl. lia.
Qed.

Lemma scanFrom_bounds (d : Doc) (pos : nat) (m : SearchResult) :
  In m (flat_map (visit term cs) (descendantsFrom pos d)) -> pos <= from m.
Proof.
  revert pos. induction d as [| n d IH]; intros pos; simpl; [intros [] |].
  rewrite in_app_iff. intros [H | H].
  - apply visit_bounds in H. lia.
  - apply IH in H. lia.
Qed.

Lemma StronglySorted_app (A : Type) (R : A -> A -> Prop) (l1 l2 : list A) :
  StronglySorted R l1 -> StronglySorted R l2 ->
  (forall x y, In x l1 -> In y l2 -> R x y) ->
  StronglySorted R (l1 ++ l2).
Proof.
  induction 1 as [| x l1 H1 IH Hx]; intros H2 H12; simpl; [exact H2 |].
  constructor.
  - apply IH; [exact H2 |]. intros; apply H12; simpl; auto.
  - apply Forall_app. split; [exact Hx |].
    apply Forall_forall. intros y Hy. apply H12; simpl; auto.
Qed.

(** The scanner reports its matches in ascending order of [from]. *)
Lemma scanFrom_sorted (d : Doc) (pos : nat) :
  StronglySorted (fun a b => from a < from b)
                 (flat_map (visit term cs) (descendantsFrom pos d)).
Proof.
  revert pos. induction d as [| n d IH]; intros pos; simpl; [constructor |].
  apply StronglySorted_app; [apply visit_sorted | apply IH |].
  intros x y Hx Hy. apply visit_bounds in Hx. apply scanFrom_bounds in Hy. lia.
Qed.
End ReplaceFacts.


(** C1: [replaceAll] makes one edit per current match, in descending order
    of [from]; when the match list is the scanner's list for the document
    and the replacement is plain text (not empty, no markup character), every
    edit succeeds and the document that results has every occurrence in
    every text node replaced, nothing else moved; on "cat cat cat" with
    "cat" and "dog" the text becomes "dog dog dog"; on an empty match list
    nothing changes. *)
Theorem replaceAll_replaces_every_match :
  (forall rs,
      Permutation rs (sortedResults rs)
      /\ StronglySorted (fun a b => from b <= from a) (sortedResults rs))
  /\ (forall s e,
        searchTerm s <> [] ->
        isPlainText (replaceTerm s) = true ->
        results s = scan (searchTerm s) (caseSensitive s) (doc e) ->
        exists e',
          replaceAll (s, e) = Some (s, e')
          /\ replaceEach (sortedResults (results s)) (replaceTerm s) e = Some e'
          /\ doc e' = map (replaceInNode (searchTerm s) (caseSensitive s) (replaceTerm s))
                          (doc e))
  /\ (results (fst catState)
      = [{| from := 1; to := 4 |}; {| from := 5; to := 8 |}; {| from := 9; to := 12 |}]
      /\ sortedResults (results (fst catState))
         = [{| from := 9; to := 12 |}; {| from := 5; to := 8 |}; {| from := 1; to := 4 |}]
      /\ option_map (fun st => textContent (doc (snd st))) (replaceAll catState)
         = Some (T "dog dog dog"))
  /\ (forall s e, results s = [] -> replaceAll (s, e) = Some (s, e)).
Proof.
  split; [| split; [| split]].
  - intros rs. split; [apply sort_perm | apply sortedResults_sorted].
  - intros s e Hne Hplain Hres.
    destruct (replaceEach_doc (searchTerm s) (caseSensitive s) (replaceTerm s) Hne
                              Hplain (doc e) [] e eq_refl) as (e' & He' & Hdoc).
    change (descendantsFrom (docSize []) (doc e)) with (descendants (doc e)) in He'.
    fold (scan (searchTerm s) (caseSensitive s) (doc e)) in He'.
    rewrite <- Hres in He'.
    assert (sortedResults (results s) = rev (results s)) as Hsort.
    { apply sortedResults_rev. rewrite Hres. now apply scanFrom_sorted. }
    exists e'. simpl in Hdoc. repeat split; [| now rewrite Hsort | exact Hdoc].
    unfold replaceAll. rewrite Hsort.
    destruct (results s) as [| m rs] eqn:Hrs.
    + simpl in *. now injection He' as <-.
    + rewrite He'. reflexivity.
  - repeat split; reflexivity.
  - intros s e Hr. unfold replaceAll. now rewrite Hr.
Qed.

Lemma replaceAll_replaces_every_match_witness :
  exists e',
    replaceAll catState = Some (fst catState, e')
    /\ replaceEach (sortedResults (results (fst catState))) (T "dog") (snd catState)
       = Some e'
    /\ doc e' = map (replaceInNode (T "cat") false (T "dog")) catDoc.
Proof.
  apply (proj1 (proj2 replaceAll_replaces_every_match) (fst catState) (snd catState)).
  - discriminate.
  - reflexivity.
  - reflexivity.
Defined.

End FindReplaceFacts.

(** ** More on the ruler: sorting, gestures, marks *)

Module RulerEventsFacts.
Import JS JSFacts Ruler RulerFacts RulerEvents.

Lemma insert_sorted_Qle (x : Q) (l : list Q) :
  StronglySorted Qle l -> StronglySorted Qle (insert (fun a b => a - b) x l).
Proof.
  induction 1 as [| y l Hl IH Hy]; simpl; [repeat constructor |].
  destruct (Qle_bool (x - y) 0) eqn:E.
  - apply Qle_bool_iff in E.
    constructor; [now constructor |].
    constructor; [lra |].
    eapply Forall_impl; [| exact Hy]. simpl. intros; lra.
  - assert (y <= x).
    { destruct (Qlt_le_dec x y) as [H | H]; [| exact H].
      assert (x - y <= 0) as H' by lra. apply Qle_bool_iff in H'. congruence. }
    constructor; [exact IH |].
    eapply Permutation_Forall; [apply insert_perm |]. now constructor.
Qed.

Lemma sort_sorted_Qle (l : list Q) : StronglySorted Qle (sort (fun a b => a - b) l).
Proof.
  induction l as [| x l IH]; simpl; [constructor | now apply insert_sorted_Qle].
Qed.

Lemma filter_sorted_Qle (f : Q -> bool) (l : list Q) :
  StronglySorted Qle l -> StronglySorted Qle (filter f l).
Proof.
  induction 1 as [| y l Hl IH Hy]; simpl; [constructor |].
  destruct (f y); [| exact IH].
  constructor; [exact IH |].
  apply Forall_forall. intros z Hz. apply filter_In in Hz.
  rewrite Forall_forall in Hy. now apply Hy.
Qed.

Lemma filter_Forall (P : Q -> Prop) (f : Q -> bool) (l : list Q) :
  Forall P l -> Forall P (filter f l).
Proof.
  rewrite !Forall_forall. intros H z Hz. apply filter_In in Hz. now apply H.
Qed.

Lemma handleTabStopRemove_undefined (l : list Q) : handleTabStopRemove None l = [].
Proof. unfold handleTabStopRemove. induction l; simpl; auto. Qed.

(** X1: whatever the list was, after [handleTabStopAdd] the tab stops are
    the old ones and the new position, in ascending order. *)
Theorem tab_stop_add_sorts (position : Q) (prev : list Q) :
  Permutation (position :: prev) (handleTabStopAdd position prev)
  /\ StronglySorted Qle (handleTabStopAdd position prev)
  /\ List.length (handleTabStopAdd position prev) = S (List.length prev).
Proof.
  split; [apply handleTabStopAdd_perm | split; [apply sort_sorted_Qle |]].
  rewrite <- (Permutation_length (handleTabStopAdd_perm position prev)). reflexivity.
Qed.

Lemma band_guard (p : EditorRulerProps) (pos : Q) :
  gtb pos 0 && ltb pos (pageWidth p - leftMargin p - rightMargin p) = true
  <-> 0 < pos < band p.
Proof. rewrite andb_true_iff, gtb_spec, ltb_spec. reflexivity. Qed.

Lemma mouseMove_tab_inside (s : EditorState) (i : nat) (x : Q) :
  0 < clickPos (propsOf s) x < band (propsOf s) ->
  stops (mouseMove s (draggingTab i) x)
  = handleTabStopAdd (snap (clickPos (propsOf s) x))
                     (handleTabStopRemove (nth_error (stops s) i) (stops s)).
Proof.
  intros H. apply band_guard in H.
  unfold mouseMove, handleMouseMove, clickPos in *. simpl in *. now rewrite H.
Qed.

(** X2: an accepted drag-move of tab stop [i] leaves exactly the new snapped
    position and the old stops farther than 0.05 inch from the dragged one. *)
Theorem tab_drag_moves_the_stop (s : EditorState) (i : nat) (x v : Q) :
  nth_error (stops s) i = Some v ->
  0 < clickPos (propsOf s) x < band (propsOf s) ->
  forall t,
    In t (stops (mouseMove s (draggingTab i) x))
    <-> t = snap (clickPos (propsOf s) x)
        \/ (In t (stops s) /\ ~ Qabs (t - v) <= 5#100).
Proof.
  intros Hi Hpos t. rewrite (mouseMove_tab_inside s i x Hpos), Hi.
  rewrite <- In_handleTabStopRemove.
  split; intros H.
  - apply (Permutation_in _ (Permutation_sym (handleTabStopAdd_perm _ _))) in H.
    destruct H as [H | H]; auto.
  - apply (Permutation_in _ (handleTabStopAdd_perm _ _)).
    destruct H as [H | H]; [left; auto | right; auto].
Qed.

Lemma tab_drag_moves_the_stop_witness :
  In (3#2) (stops (mouseMove initialState (draggingTab 0) 290))
  /\ ~ In (1#2) (stops (mouseMove initialState (draggingTab 0) 290)).
Proof.
  assert (0 < clickPos (propsOf initialState) 290 < band (propsOf initialState))
    as Hpos by (split; reflexivity).
  pose proof (tab_drag_moves_the_stop initialState 0 290 (1#2) eq_refl Hpos) as H.
  split.
  - apply H. right. split; [simpl; auto |].
    intros Hc. vm_compute in Hc. now apply Hc.
  - intros Hin. apply H in Hin. destruct Hin as [Hin | [_ Hfar]].
    + vm_compute in Hin. discriminate Hin.
    + apply Hfar. discriminate.
Defined.

(** X3: when the index of the dragged tab stop is no longer inside the list,
    an accepted drag-move removes every tab stop and leaves only the new
    snapped position. *)
Theorem tab_drag_stale_index_clears (s : EditorState) (i : nat) (x : Q) :
  nth_error (stops s) i = None ->
  0 < clickPos (propsOf s) x < band (propsOf s) ->
  stops (mouseMove s (draggingTab i) x) = [snap (clickPos (propsOf s) x)].
Proof.
  intros Hi Hpos. rewrite (mouseMove_tab_inside s i x Hpos), Hi.
  now rewrite handleTabStopRemove_undefined.
Qed.

Lemma tab_drag_stale_index_clears_witness :
  stops (mouseMove initialState (draggingTab 8) 288) = [8#4].
Proof.
  apply (tab_drag_stale_index_clears initialState 8 288); [reflexivity |].
  split; reflexivity.
Defined.


Lemma band_guard_false (p : EditorRulerProps) (pos : Q) :
  ~ (0 < pos < band p) ->
  gtb pos 0 && ltb pos (pageWidth p - leftMargin p - rightMargin p) = false.
Proof.
  intros H. destruct (gtb pos 0 && ltb pos _) eqn:E; [| reflexivity].
  apply band_guard in E. contradiction.
Qed.

(** X4: gestures the ruler ignores leave the editor state as it is: a click
    while a handle is dragged, a mouse move while nothing is dragged (so any
    move after the mouse button is released or the pointer has left), and a
    click or a tab drag outside the content band; when the margins leave no
    band at all, no click and no tab drag changes anything. *)
Theorem ignored_gestures_change_nothing (s : EditorState) (x : Q) :
  (forall d, dragging d <> None -> click s d x = s)
  /\ (forall d, dragging d = None -> mouseMove s d x = s)
  /\ (forall d, mouseMove s (handleMouseUp d) x = s)
  /\ (~ 0 < clickPos (propsOf s) x < band (propsOf s) ->
      (forall d, click s d x = s) /\ (forall i, mouseMove s (draggingTab i) x = s))
  /\ (band (propsOf s) <= 0 ->
      (forall d, click s d x = s) /\ (forall i, mouseMove s (draggingTab i) x = s)).
Proof.
  assert (~ 0 < clickPos (propsOf s) x < band (propsOf s) ->
          (forall d, click s d x = s) /\ (forall i, mouseMove s (draggingTab i) x = s))
    as Hout.
  { intros H. apply band_guard_false in H. split.
    - intros d. unfold click, handleRulerClick, clickPos in *.
      destruct (dragging d); [reflexivity |]. simpl in *. now rewrite H.
    - intros i. unfold mouseMove, handleMouseMove, clickPos in *. simpl in *.
      now rewrite H. }
  split; [| split; [| split; [| split]]].
  - intros d Hd. unfold click, handleRulerClick.
    destruct (dragging d); [reflexivity | congruence].
  - intros d Hd. unfold mouseMove, handleMouseMove. now rewrite Hd.
  - intros d. reflexivity.
  - exact Hout.
  - intros H. apply Hout. intros [H1 H2]. lra.
Qed.

Lemma ignored_gestures_change_nothing_witness :
  click initialState idle 48 = initialState.
Proof.
  assert (~ 0 < clickPos (propsOf initialState) 48 < band (propsOf initialState))
    as Hout by (intros [H _]; vm_compute in H; discriminate H).
  apply (proj1 (proj1 (proj2 (proj2 (proj2 (ignored_gestures_change_nothing
                                               initialState 48)))) Hout)).
Defined.

(** X6: the zoom handler clamps: the stored zoom is always between 50 and
    200, a value in that range is stored as it is, and clamping twice is
    clamping once. *)
Theorem zoom_is_clamped (newZoom : Q) :
  50 <= handleZoomChange newZoom <= 200
  /\ (50 <= newZoom <= 200 -> handleZoomChange newZoom == newZoom)
  /\ (newZoom <= 50 -> handleZoomChange newZoom == 50)
  /\ (200 <= newZoom -> handleZoomChange newZoom == 200)
  /\ handleZoomChange (handleZoomChange newZoom) == handleZoomChange newZoom.
Proof.
  assert (forall q, 50 <= q <= 200 -> handleZoomChange q == q) as Hfix.
  { intros q [H1 H2]. unfold handleZoomChange.
    destruct (Math_max_spec 50 q) as (M1 & M2 & M3).
    destruct (Math_min_spec 200 (Math_max 50 q)) as (N1 & N2 & N3).
    destruct M3, N3; lra. }
  pose proof (handleZoomChange_range newZoom) as Hr.
  repeat split; try apply Hr; try (intros; now apply Hfix).
  - intros H. unfold handleZoomChange.
    destruct (Math_max_spec 50 newZoom) as (M1 & M2 & M3).
    destruct (Math_min_spec 200 (Math_max 50 newZoom)) as (N1 & N2 & N3).
    destruct M3, N3; lra.
  - intros H. unfold handleZoomChange.
    destruct (Math_max_spec 50 newZoom) as (M1 & M2 & M3).
    destruct (Math_min_spec 200 (Math_max 50 newZoom)) as (N1 & N2 & N3).
    destruct M3, N3; lra.
Qed.

Lemma zoom_is_clamped_witness :
  handleZoomChange (100 + 10) == 110 /\ handleZoomChange (200 + 10) == 200.
Proof.
  split.
  - apply (proj1 (proj2 (zoom_is_clamped (100 + 10)))). split; discriminate.
  - apply (proj1 (proj2 (proj2 (proj2 (zoom_is_clamped (200 + 10)))))). discriminate.
Defined.


Lemma generateMarks_In (p : EditorRulerProps) (m : Mark) :
  In m (generateMarks p) <-> exists i, (i < markCount p)%nat /\ m = mark p i.
Proof.
  unfold generateMarks. rewrite in_map_iff. split.
  - intros (i & <- & Hi). apply in_seq in Hi. exists i. split; [lia | reflexivity].
  - intros (i & Hi & ->). exists i. split; [reflexivity |]. apply in_seq. lia.
Qed.

(** X7: the ruler draws [floor (pageWidth * 8) + 1] ticks; tick [i] is
    drawn where [i / 64] inch is, so at any zoom between 50 and 200 every tick
    lies in the first eighth of the ruler, and the major tick labelled [n] is
    drawn at one eighth of the distance of [n] inches; ticks are labelled
    exactly when their index is a multiple of 8. *)
Theorem ruler_marks_layout (p : EditorRulerProps) :
  0 <= pageWidth p -> 50 <= zoom p <= 200 ->
  List.length (generateMarks p) = Z.to_nat (Qfloor (pageWidth p * 8) + 1)
  /\ forall m,
       In m (generateMarks p) ->
       markPos m == inchesToPx (zoom p) (inject_Z (Z.of_nat (markIndex m)) / 64)
       /\ 0 <= markPos m <= rulerWidth p / 8
       /\ (forall n, markLabel m = Some n ->
                     isMajor m = true /\ markPos m == inchesToPx (zoom p) n / 8)
       /\ (markLabel m <> None <-> (markIndex m mod 8 = 0)%nat).
Proof.
  intros Hpw Hz. split.
  - unfold generateMarks. now rewrite length_map, length_seq.
  - intros m Hm. apply generateMarks_In in Hm. destruct Hm as (i & Hi & ->).
    unfold mark, rulerWidth, inchesToPx.
    cbn [markPos markIndex isMajor isHalf markLabel].
    assert (inject_Z (Z.of_nat i) <= pageWidth p * 8) as Hle.
    { unfold markCount in Hi.
      assert (Z.of_nat i <= Qfloor (pageWidth p * 8))%Z as H by lia.
      rewrite Zle_Qle in H. pose proof (Qfloor_le (pageWidth p * 8)). lra. }
    assert (0 <= inject_Z (Z.of_nat i)) as Hi0
        by (change 0 with (inject_Z 0); rewrite <- Zle_Qle; lia).
    set (q := inject_Z (Z.of_nat i)) in *.
    split; [field |]. split; [| split].
    + assert (q * ((125 # 1000) * 96 * (zoom p / 100)) / 8
              == q * zoom p * (15 # 1000)) as -> by field.
      assert (pageWidth p * 96 * (zoom p / 100) / 8
              == pageWidth p * 8 * zoom p * (15 # 1000)) as -> by field.
      split; [nra | nra].
    + intros n Hn. destruct (i mod 8 =? 0)%nat eqn:E; [| discriminate].
      injection Hn as <-. split; [reflexivity | field].
    + destruct (i mod 8 =? 0)%nat eqn:E.
      * apply Nat.eqb_eq in E. split; [auto | intros _; discriminate].
      * apply Nat.eqb_neq in E. split; [congruence | contradiction].
Qed.

Lemma ruler_marks_layout_witness :
  List.length (generateMarks (propsOf initialState)) = 69%nat.
Proof.
  refine (proj1 (ruler_marks_layout (propsOf initialState) _ _)).
  - discriminate.
  - split; discriminate.
Defined.


Lemma onGrid_sub (a b : Q) : onGrid a -> onGrid b -> onGrid (a - b).
Proof.
  intros [k Hk] [j Hj]. exists (k - j)%Z.
  unfold Z.sub. rewrite inject_Z_plus, inject_Z_opp, Hk, Hj. field.
Qed.

Lemma onGrid_one : onGrid 1.
Proof. exists 4%Z. reflexivity. Qed.

Lemma handleTabStopAdd_keeps (v : Q) (l : list Q) :
  onGrid v -> Forall onGrid l ->
  Forall onGrid (handleTabStopAdd v l) /\ StronglySorted Qle (handleTabStopAdd v l).
Proof.
  intros Hv Hl. split; [| apply sort_sorted_Qle].
  eapply Permutation_Forall; [apply handleTabStopAdd_perm |]. now constructor.
Qed.

Lemma handleTabStopRemove_keeps (o : option Q) (l : list Q) :
  Forall onGrid l -> StronglySorted Qle l ->
  Forall onGrid (handleTabStopRemove o l)
  /\ StronglySorted Qle (handleTabStopRemove o l).
Proof.
  intros Hg Hs. destruct o; simpl;
    (split; [now apply filter_Forall | now apply filter_sorted_Qle]).
Qed.

Lemma rulerStep_inv (s : EditorState) (d : DragState) (ev : RulerEvent) :
  rulerInv s ->
  rulerInv (fst (rulerStep (s, d) ev))
  /\ pageSizeWidth (fst (rulerStep (s, d) ev)) = pageSizeWidth s
  /\ zoomPct (fst (rulerStep (s, d) ev)) = zoomPct s.
Proof.
  intros Inv. pose proof Inv as ([Hz1 Hz2] & Hpw & Hgl & Hgr & Hl & Hr & Hsum & Hg & Hs).
  destruct ev as [x | i | side | i | x | |]; simpl; try (now repeat split).
  - (* click *)
    unfold click, handleRulerClick.
    destruct (dragging d); [now repeat split |].
    destruct (gtb _ 0 && ltb _ _); [| now repeat split].
    destruct (handleTabStopAdd_keeps (snap (pxToInches (zoom (propsOf s)) x
                                              - leftMargin (propsOf s)))
                                     (stops s) (snap_onGrid _) Hg) as [A B].
    repeat split; (assumption || reflexivity).
  - (* double click on a tab stop *)
    destruct (handleTabStopRemove_keeps (nth_error (stops s) i) (stops s) Hg Hs)
      as [A B].
    repeat split; (assumption || reflexivity).
  - (* mouse move *)
    unfold mouseMove, handleMouseMove.
    destruct (dragging d) as [[| |] |]; [| | | now repeat split].
    + destruct (margin_clamp_snap (pageSizeWidth s - marginRight s - 1)
                                  (pxToInches (zoomPct s) x)) as (A & B & C).
      { apply onGrid_sub; [now apply onGrid_sub | apply onGrid_one]. }
      { lra. }
      simpl. repeat split; try assumption.
      cbn [marginLeft marginRight pageSizeWidth]. lra.
    + destruct (margin_clamp_snap (pageSizeWidth s - marginLeft s - 1)
                                  (pageSizeWidth s - pxToInches (zoomPct s) x))
        as (A & B & C).
      { apply onGrid_sub; [now apply onGrid_sub | apply onGrid_one]. }
      { lra. }
      simpl. repeat split; try assumption.
      cbn [marginLeft marginRight pageSizeWidth]. lra.
    + destruct (dragTabIndex d) as [i |]; [| now repeat split].
      destruct (gtb _ 0 && ltb _ _); [| now repeat split].
      destruct (handleTabStopRemove_keeps (nth_error (stops s) i) (stops s) Hg Hs)
        as [A B].
      destruct (handleTabStopAdd_keeps
                  (snap (pxToInches (zoom (propsOf s)) x - leftMargin (propsOf s)))
                  _ (snap_onGrid _) A) as [A' B'].
      repeat split; (assumption || reflexivity).
Qed.

Lemma rulerInv_initial : rulerInv initialState.
Proof.
  unfold rulerInv. simpl.
  assert (forall k : Z, onGrid (inject_Z k / 4)) as G by (intros k; now exists k).
  repeat split; try discriminate.
  - exists 34%Z. reflexivity.
  - apply onGrid_one.
  - apply onGrid_one.
  - repeat constructor;
      [exists 2%Z | exists 4%Z | exists 6%Z | exists 8%Z
       | exists 10%Z | exists 12%Z | exists 14%Z | exists 16%Z]; reflexivity.
  - repeat (constructor; [| repeat constructor; discriminate]). constructor.
Qed.

(** X8: whatever sequence of ruler gestures is made from a state with both
    margins on the quarter-inch grid, at least 0.25 inch each and at least one
    inch apart, and with the tab stops on the grid in ascending order, the
    state stays such: the content band never gets narrower than one inch, the
    margins and tab stops stay on the grid, the tab stops stay sorted, and
    the page width and the zoom are never changed. *)
Theorem ruler_gestures_keep_state_sound (evs : list RulerEvent)
        (s : EditorState) (d : DragState) :
  rulerInv s ->
  let s' := fst (rulerRun (s, d) evs) in
  rulerInv s'
  /\ 1 <= pageSizeWidth s' - marginLeft s' - marginRight s'
  /\ pageSizeWidth s' = pageSizeWidth s
  /\ zoomPct s' = zoomPct s.
Proof.
  revert s d. induction evs as [| ev evs IH]; intros s d Inv.
  - simpl. pose proof Inv as (Hz & Hpw & Hgl & Hgr & Hl & Hr & Hsum & Hg & Hs).
    repeat split; try assumption; try apply Hz. lra.
  - change (rulerRun (s, d) (ev :: evs)) with (rulerRun (rulerStep (s, d) ev) evs).
    destruct (rulerStep_inv s d ev Inv) as (Inv' & Hw & Hzm).
    destruct (rulerStep (s, d) ev) as [s1 d1] eqn:E.
    cbn [fst] in Inv', Hw, Hzm.
    destruct (IH s1 d1 Inv') as (A & B & C & D).
    split; [exact A | split; [exact B | split]].
    + now rewrite C.
    + now rewrite D.
Qed.

Lemma ruler_gestures_keep_state_sound_witness :
  let s' := fst (rulerRun (initialState, idle)
                          [MarginMouseDown LeftSide; MouseMove 768; MouseUp;
                           Click 300; TabMouseDown 2; MouseMove 500; MouseLeave]) in
  1 <= pageSizeWidth s' - marginLeft s' - marginRight s'.
Proof.
  intros s'.
  apply (ruler_gestures_keep_state_sound _ initialState idle rulerInv_initial).
Defined.

End RulerEventsFacts.

(** ** More on find and replace *)

Module FindReplaceDialogFacts.
Import JS JSFacts FindReplace FindReplaceFacts FindReplaceDialog.
Local Open Scope nat_scope.

Section ScannerFacts.
Variable term : text.
Variable cs : bool.
Hypothesis term_nonempty : term <> [].

Lemma matchHere_inside (s : text) (j : nat) :
  matchHere cs term (skipn j s) = true -> j + List.length term <= List.length s.
Proof.
  intros H. apply matchHere_length in H. rewrite length_skipn in H.
  pose proof (term_length_pos term term_nonempty). lia.
Qed.

(** [indexFrom] finds the first occurrence. *)
Lemma indexFrom_first (s : text) (i k : nat) :
  matchHere cs term (skipn k s) = true ->
  exists j, indexFrom term cs s i = Some j /\ j <= i + k.
Proof.
  revert i k. induction s as [| c s IH]; intros i k H.
  - rewrite skipn_nil in H. simpl. rewrite H. exists i. split; [reflexivity | lia].
  - simpl. destruct (matchHere cs term (c :: s)) eqn:E.
    + exists i. split; [reflexivity | lia].
    + destruct k as [| k]; [simpl in H; congruence |].
      simpl in H. destruct (IH (S i) k H) as (j & Hj & Hle).
      exists j. split; [exact Hj | lia].
Qed.

Lemma exec_first (s : text) (lastIndex j : nat) :
  lastIndex <= j -> matchHere cs term (skipn j s) = true ->
  exists i, exec term cs s lastIndex = Some i /\ i <= j.
Proof.
  intros Hle H. pose proof (matchHere_inside s j H) as Hin.
  unfold exec. assert ((lastIndex <=? List.length s) = true) as ->
      by (apply Nat.leb_le; lia).
  destruct (indexFrom_first (skipn lastIndex s) lastIndex (j - lastIndex))
    as (i & Hi & Hij).
  - rewrite skipn_skipn. now replace (j - lastIndex + lastIndex) with j by lia.
  - exists i. split; [exact Hi | lia].
Qed.

(** Every occurrence at or after [lastIndex] starts inside a reported match. *)
Lemma execLoop_covers (fuel : nat) (s : text) (lastIndex j : nat) :
  List.length s < lastIndex + fuel ->
  lastIndex <= j -> matchHere cs term (skipn j s) = true ->
  exists i, In i (execLoop term cs fuel s lastIndex) /\ i <= j < i + List.length term.
Proof.
  revert lastIndex. induction fuel as [| fuel IH]; intros li Hf Hle H.
  - apply matchHere_inside in H. lia.
  - simpl. destruct (exec_first s li j Hle H) as (i & Hi & Hij). rewrite Hi.
    destruct (Nat.lt_ge_cases j (i + List.length term)) as [Hlt | Hge].
    + exists i. split; [now left | lia].
    + apply (exec_spec term cs term_nonempty) in Hi.
      pose proof (term_length_pos term term_nonempty).
      destruct (IH (i + List.length term)) as (i' & Hi' & Hb); [lia | lia | exact H |].
      exists i'. split; [now right | exact Hb].
Qed.

Lemma execLoop_apart (fuel : nat) (s : text) (lastIndex : nat) :
  StronglySorted (fun i j => i + List.length term <= j)
                 (execLoop term cs fuel s lastIndex).
Proof.
  revert lastIndex. induction fuel as [| fuel IH]; intros li; simpl; [constructor |].
  destruct (exec term cs s li) as [i |] eqn:E; [| constructor].
  constructor; [apply IH |].
  apply Forall_forall. intros j Hj.
  apply (execLoop_In term cs term_nonempty) in Hj. lia.
Qed.

Lemma visit_apart (n : Node) (pos : nat) :
  StronglySorted (fun a b => to a <= from b) (visit term cs (n, pos)).
Proof.
  destruct n as [t |]; simpl; [| constructor].
  unfold matchIndices.
  induction (execLoop_apart (S (List.length t)) t 0)
    as [| i l Hl IH Hi]; simpl; constructor; [exact IH |].
  apply Forall_map. eapply Forall_impl; [| exact Hi]. simpl. intros; lia.
Qed.

Lemma visit_within (n : Node) (pos : nat) (m : SearchResult) :
  In m (visit term cs (n, pos)) ->
  pos <= from m /\ to m = from m + List.length term /\ to m <= pos + nodeSize n.
Proof.
  destruct n as [t |]; simpl; [| intros []].
  intros H. apply in_map_iff in H. destruct H as (i & <- & Hi).
  apply (execLoop_In term cs term_nonempty) in Hi. simpl. lia.
Qed.

Lemma scanFrom_apart (d : Doc) (pos : nat) :
  StronglySorted (fun a b => to a <= from b)
                 (flat_map (visit term cs) (descendantsFrom pos d)).
Proof.
  revert pos. induction d as [| n d IH]; intros pos; simpl; [constructor |].
  apply StronglySorted_app; [apply visit_apart | apply IH |].
  intros x y Hx Hy. apply visit_within in Hx.
  apply (scanFrom_bounds term cs term_nonempty) in Hy. lia.
Qed.

Lemma scan_covers (d : Doc) (t : text) (pos j : nat) :
  In (TextNode t, pos) (descendants d) ->
  matchHere cs term (skipn j t) = true ->
  exists m, In m (scan term cs d)
            /\ from m <= pos + j < to m
            /\ pos <= from m /\ to m <= pos + List.length t.
Proof.
  intros Hn H.
  destruct (execLoop_covers (S (List.length t)) t 0 j) as (i & Hi & Hb);
    [lia | lia | exact H |].
  pose proof (execLoop_In term cs term_nonempty _ _ _ _ Hi) as (_ & Hin & _).
  exists {| from := pos + i; to := pos + i + List.length term |}.
  split; [| simpl; lia].
  unfold scan. apply in_flat_map. exists (TextNode t, pos). split; [exact Hn |].
  simpl. apply in_map_iff. exists i. split; [reflexivity | exact Hi].
Qed.
End ScannerFacts.

(** X9: the matches of a scan come in document order and do not overlap:
    each one ends before the next one starts, and each has the length of the
    search term. *)
Theorem scan_matches_in_order_and_apart (term : text) (cs : bool) (d : Doc) :
  term <> [] ->
  StronglySorted (fun a b => to a <= from b) (scan term cs d)
  /\ Forall (fun m => from m < to m /\ to m = from m + List.length term)
            (scan term cs d).
Proof.
  intros Hne. split; [now apply scanFrom_apart |].
  apply Forall_forall. intros m Hm.
  unfold scan in Hm. apply in_flat_map in Hm. destruct Hm as ([n pos] & _ & Hm).
  apply (visit_within term cs Hne) in Hm.
  pose proof (term_length_pos term Hne). lia.
Qed.

Lemma scan_matches_in_order_and_apart_witness :
  StronglySorted (fun a b => to a <= from b) (scan (T "aa") true [TextNode (T "aaaaa")]).
Proof.
  apply (scan_matches_in_order_and_apart (T "aa") true [TextNode (T "aaaaa")]).
  discriminate.
Defined.

(** X10: the scan misses no occurrence except by overlap: wherever the term
    occurs inside a text node, a reported match of that node starts at or
    before the occurrence and ends after its first character. *)
Theorem scan_misses_only_overlaps (term : text) (cs : bool) (d : Doc)
        (t : text) (pos j : nat) :
  term <> [] ->
  In (TextNode t, pos) (descendants d) ->
  matchHere cs term (skipn j t) = true ->
  exists m, In m (scan term cs d)
            /\ from m <= pos + j < to m
            /\ pos <= from m /\ to m <= pos + List.length t.
Proof. intros Hne. now apply scan_covers. Qed.

Lemma scan_misses_only_overlaps_witness :
  exists m, In m (scan (T "aa") true [Token; TextNode (T "aaaaa")])
            /\ from m <= 1 + 3 < to m
            /\ 1 <= from m /\ to m <= 1 + 5.
Proof.
  apply (scan_misses_only_overlaps (T "aa") true [Token; TextNode (T "aaaaa")]
                                   (T "aaaaa") 1 3).
  - discriminate.
  - right. left. reflexivity.
  - reflexivity.
Defined.

Lemma matchHere_ignoring_case (pat s : text) :
  matchHere true pat s = true -> matchHere false pat s = true.
Proof.
  revert s. induction pat as [| p pat IH]; intros s H; [reflexivity |].
  destruct s as [| c s]; simpl in *; [discriminate |].
  apply andb_true_iff in H. destruct H as [H1 H2].
  apply Ascii.eqb_eq in H1. subst c. rewrite Ascii.eqb_refl. now apply IH.
Qed.

(** X11: switching "Match case" off never loses an occurrence: every match
    found with the flag on starts inside a match found with the flag off, so
    a search that finds nothing without the flag finds nothing with it. *)
Theorem match_case_off_finds_no_less (term : text) (d : Doc) :
  term <> [] ->
  (forall m, In m (scan term true d) ->
             exists m', In m' (scan term false d) /\ from m' <= from m < to m')
  /\ (scan term false d = [] -> scan term true d = []).
Proof.
  intros Hne.
  assert (forall m, In m (scan term true d) ->
                    exists m', In m' (scan term false d) /\ from m' <= from m < to m')
    as Hcover.
  { intros m Hm. destruct (scan_In term true d m Hne Hm)
      as (t & pos & Hn & Hpos & _ & _ & Hmatch).
    apply matchHere_ignoring_case in Hmatch.
    destruct (scan_covers term false Hne d t pos (from m - pos) Hn Hmatch)
      as (m' & Hm' & Hb & _).
    exists m'. split; [exact Hm' |].
    replace (pos + (from m - pos)) with (from m) in Hb by lia. exact Hb. }
  split; [exact Hcover |].
  intros Hnone. destruct (scan term true d) as [| m l] eqn:E; [reflexivity |].
  destruct (Hcover m (or_introl eq_refl)) as (m' & Hm' & _).
  rewrite Hnone in Hm'. destruct Hm'.
Qed.

Lemma match_case_off_finds_no_less_witness :
  scan (T "cat") true [TextNode (T "dog")] = [].
Proof.
  apply (proj2 (match_case_off_finds_no_less (T "cat") [TextNode (T "dog")]
                                             ltac:(discriminate))).
  reflexivity.
Defined.


Lemma setCurrentIndex_back (s : Session) (j : Z) :
  setCurrentIndex (currentIndex s) (setCurrentIndex j s) = s.
Proof. now destruct s. Qed.

Lemma next_then_previous_index (i n : Z) :
  (0 <= i < n)%Z -> ((((i + 1) mod n) - 1 + n) mod n = i)%Z.
Proof.
  intros H. destruct (Z.eq_dec (i + 1) n) as [E | E].
  - rewrite E, Z.mod_same by lia. replace (0 - 1 + n)%Z with i by lia.
    apply Z.mod_small. lia.
  - rewrite (Z.mod_small (i + 1)) by lia.
    replace (i + 1 - 1 + n)%Z with (i + 1 * n)%Z by lia.
    rewrite Z.mod_add by lia. apply Z.mod_small. lia.
Qed.

Lemma previous_then_next_index (i n : Z) :
  (0 <= i < n)%Z -> ((((i - 1 + n) mod n) + 1) mod n = i)%Z.
Proof.
  intros H. destruct (Z.eq_dec i 0) as [E | E].
  - subst i. replace (0 - 1 + n)%Z with (n - 1)%Z by lia.
    rewrite (Z.mod_small (n - 1)) by lia.
    replace (n - 1 + 1)%Z with n by lia. apply Z.mod_same. lia.
  - replace (i - 1 + n)%Z with (i - 1 + 1 * n)%Z by lia.
    rewrite Z.mod_add by lia. rewrite (Z.mod_small (i - 1)) by lia.
    replace (i - 1 + 1)%Z with i by lia. apply Z.mod_small. lia.
Qed.

Lemma scan_insideText (term : text) (cs : bool) (d : Doc) (m : SearchResult) :
  term <> [] -> In m (scan term cs d) -> insideText d m.
Proof.
  intros Hne Hin.
  destruct (scan_In term cs d m Hne Hin) as (t & pos & Hn & H1 & H2 & H3 & _).
  exists t, pos. split; [exact Hn | lia].
Qed.

(** X12: when every match lies inside a text node of the document and the
    current index is valid, "next" sets the index to the following one
    (cyclically) and selects the match there, and "previous" after it
    brings the dialog back to the session it had, with the match at the
    old index selected and the document as it was; and the same with
    "previous" first and "next" after it. Both calls return. *)
Theorem next_and_previous_undo_each_other (s : Session) (e : Editor) :
  results s <> [] ->
  (0 <= currentIndex s < Z.of_nat (List.length (results s)))%Z ->
  Forall (insideText (doc e)) (results s) ->
  let n := Z.of_nat (List.length (results s)) in
  exists m,
    nth_error (results s) (Z.to_nat (currentIndex s)) = Some m
    /\ (exists m1 s1 e1 e2,
          nth_error (results s) (Z.to_nat ((currentIndex s + 1) mod n)) = Some m1
          /\ goToNext (s, e) = ((s1, e1), Returns)
          /\ currentIndex s1 = ((currentIndex s + 1) mod n)%Z
          /\ selection e1 = Some (from m1, to m1)
          /\ goToPrevious (s1, e1) = ((s, e2), Returns)
          /\ doc e2 = doc e /\ selection e2 = Some (from m, to m))
    /\ (exists m1 s1 e1 e2,
          nth_error (results s) (Z.to_nat ((currentIndex s - 1 + n) mod n)) = Some m1
          /\ goToPrevious (s, e) = ((s1, e1), Returns)
          /\ currentIndex s1 = ((currentIndex s - 1 + n) mod n)%Z
          /\ selection e1 = Some (from m1, to m1)
          /\ goToNext (s1, e1) = ((s, e2), Returns)
          /\ doc e2 = doc e /\ selection e2 = Some (from m, to m)).
Proof.
  intros Hne Hi Hall n.
  rewrite Forall_forall in Hall.
  destruct (at_index_valid (results s) (currentIndex s) Hi) as (m & _ & Hm).
  assert (insideText (doc e) m) as Hmin by (apply Hall; eapply nth_error_In; exact Hm).
  exists m. split; [exact Hm |]. split.
  - destruct (goToNext_valid s e Hne Hi) as (m1 & Hm1 & Hj1 & Hnext).
    fold n in Hm1, Hj1, Hnext.
    set (j := ((currentIndex s + 1) mod n)%Z) in *.
    assert (insideText (doc e) m1) as Hin1
        by (apply Hall; eapply nth_error_In; exact Hm1).
    rewrite (highlightMatch_inside m1 e Hin1) in Hnext. cbn [fst snd] in Hnext.
    set (e1 := {| doc := doc e; selection := Some (from m1, to m1) |}) in *.
    destruct (goToPrevious_valid (setCurrentIndex j s) e1 Hne Hj1)
      as (m' & Hm' & _ & Hprev).
    change (results (setCurrentIndex j s)) with (results s) in Hm', Hprev.
    change (currentIndex (setCurrentIndex j s)) with j in Hm', Hprev.
    fold n in Hm', Hprev. unfold j in Hm', Hprev at 2.
    rewrite next_then_previous_index in Hm', Hprev by exact Hi.
    assert (m' = m) as -> by congruence.
    rewrite (highlightMatch_inside m e1 Hmin) in Hprev. cbn [fst snd e1 doc] in Hprev.
    rewrite setCurrentIndex_back in Hprev.
    exists m1, (setCurrentIndex j s), e1, {| doc := doc e; selection := Some (from m, to m) |}.
    repeat split; assumption || reflexivity.
  - destruct (goToPrevious_valid s e Hne Hi) as (m1 & Hm1 & Hj1 & Hprev).
    fold n in Hm1, Hj1, Hprev.
    set (j := ((currentIndex s - 1 + n) mod n)%Z) in *.
    assert (insideText (doc e) m1) as Hin1
        by (apply Hall; eapply nth_error_In; exact Hm1).
    rewrite (highlightMatch_inside m1 e Hin1) in Hprev. cbn [fst snd] in Hprev.
    set (e1 := {| doc := doc e; selection := Some (from m1, to m1) |}) in *.
    destruct (goToNext_valid (setCurrentIndex j s) e1 Hne Hj1)
      as (m' & Hm' & _ & Hnext).
    change (results (setCurrentIndex j s)) with (results s) in Hm', Hnext.
    change (currentIndex (setCurrentIndex j s)) with j in Hm', Hnext.
    fold n in Hm', Hnext. unfold j in Hm', Hnext at 2.
    rewrite previous_then_next_index in Hm', Hnext by exact Hi.
    assert (m' = m) as -> by congruence.
    rewrite (highlightMatch_inside m e1 Hmin) in Hnext. cbn [fst snd e1 doc] in Hnext.
    rewrite setCurrentIndex_back in Hnext.
    exists m1, (setCurrentIndex j s), e1, {| doc := doc e; selection := Some (from m, to m) |}.
    repeat split; assumption || reflexivity.
Qed.

Lemma next_and_previous_undo_each_other_witness :
  exists e1 e2,
    goToNext catState
    = ((setCurrentIndex 1 (fst catState), e1), Returns)
    /\ selection e1 = Some (5, 8)
    /\ goToPrevious (setCurrentIndex 1 (fst catState), e1) = ((fst catState, e2), Returns)
    /\ selection e2 = Some (1, 4).
Proof.
  assert (Forall (insideText (doc (snd catState))) (results (fst catState))) as Hall.
  { apply Forall_forall. intros m Hm.
    apply (scan_insideText (T "cat") false); [discriminate | exact Hm]. }
  destruct (next_and_previous_undo_each_other (fst catState) (snd catState)
              ltac:(discriminate) ltac:(split; [discriminate | reflexivity]) Hall)
    as (m & Hm & (m1 & s1 & e1 & e2 & Hm1 & Hnext & Hs1 & Hsel1 & Hprev & _ & Hsel2) & _).
  injection Hm as <-. injection Hm1 as <-.
  assert (s1 = setCurrentIndex 1 (fst catState)) as ->
      by (vm_compute in Hnext; now injection Hnext as <- _).
  exists e1, e2. repeat split; assumption.
Defined.


(** X13: [replaceOne] replaces the current match and nothing else: with the
    scanner's matches as the match list, a valid index and a plain-text
    replacement, the text node that holds the current match keeps the
    characters before and after the match and has the replacement between
    them, every other node stays, and the cursor is put after the inserted
    text; with no matches the state is left as it is. *)
Theorem replaceOne_replaces_current_match (s : Session) (e : Editor) :
  (results s = [] -> replaceOne (s, e) = Some ((s, e), Returns))
  /\ (searchTerm s <> [] ->
      isPlainText (replaceTerm s) = true ->
      results s = scan (searchTerm s) (caseSensitive s) (doc e) ->
      results s <> [] ->
      (0 <= currentIndex s < Z.of_nat (List.length (results s)))%Z ->
      exists m pre t post,
        nth_error (results s) (Z.to_nat (currentIndex s)) = Some m
        /\ doc e = pre ++ TextNode t :: post
        /\ docSize pre <= from m /\ from m < to m
        /\ to m <= docSize pre + List.length t
        /\ replaceOne (s, e)
           = Some ((s, {| doc := pre ++ TextNode (firstn (from m - docSize pre) t
                                                   ++ replaceTerm s
                                                   ++ skipn (to m - docSize pre) t)
                                     :: post;
                          selection := Some (from m + List.length (replaceTerm s),
                                             from m + List.length (replaceTerm s)) |}),
                   Returns)).
Proof.
  split.
  - intros H. unfold replaceOne. now rewrite H.
  - intros Hne Hplain Hres Hnon Hi.
    destruct (at_index_valid (results s) (currentIndex s) Hi) as (m & Hat & Hnth).
    assert (In m (scan (searchTerm s) (caseSensitive s) (doc e))) as Hin
        by (rewrite <- Hres; eapply nth_error_In; exact Hnth).
    destruct (scan_In _ _ _ _ Hne Hin) as (t & pos & Hn & Hpos & Hto & Hend & _).
    apply descendantsFrom_In in Hn. destruct Hn as (pre & post & Hdoc & Hp).
    simpl in Hp. subst pos.
    pose proof (term_length_pos _ Hne) as Hlen.
    exists m, pre, t, post. repeat split; try assumption; try lia.
    unfold replaceOne.
    assert ((List.length (results s) =? 0) = false) as ->.
    { apply Nat.eqb_neq. destruct (results s); [congruence | discriminate]. }
    rewrite Hat.
    rewrite (insertContentAt_inside pre post t _ m e Hplain Hdoc) by lia.
    reflexivity.
Qed.

Lemma replaceOne_replaces_current_match_witness :
  exists m pre t post,
    nth_error (results (fst catState)) 0 = Some m
    /\ catDoc = pre ++ TextNode t :: post
    /\ docSize pre <= from m /\ from m < to m
    /\ to m <= docSize pre + List.length t
    /\ replaceOne catState
       = Some ((fst catState,
                {| doc := pre ++ TextNode (firstn (from m - docSize pre) t
                                            ++ T "dog"
                                            ++ skipn (to m - docSize pre) t) :: post;
                   selection := Some (from m + 3, from m + 3) |}), Returns).
Proof.
  apply (proj2 (replaceOne_replaces_current_match (fst catState) (snd catState))).
  - discriminate.
  - reflexivity.
  - reflexivity.
  - discriminate.
  - split; [discriminate | reflexivity].
Defined.

Lemma replaceAll_on_scan (s : Session) (e : Editor) :
  searchTerm s <> [] ->
  isPlainText (replaceTerm s) = true ->
  results s = scan (searchTerm s) (caseSensitive s) (doc e) ->
  exists e',
    replaceAll (s, e) = Some (s, e')
    /\ doc e' = map (replaceInNode (searchTerm s) (caseSensitive s) (replaceTerm s))
                    (doc e).
Proof.
  intros Hne Hplain Hres.
  destruct (replaceEach_doc (searchTerm s) (caseSensitive s) (replaceTerm s) Hne
                            Hplain (doc e) [] e eq_refl) as (e' & He' & Hdoc).
  change (descendantsFrom (docSize []) (doc e)) with (descendants (doc e)) in He'.
  fold (scan (searchTerm s) (caseSensitive s) (doc e)) in He'.
  rewrite <- Hres in He'.
  assert (sortedResults (results s) = rev (results s)) as Hsort.
  { apply sortedResults_rev. rewrite Hres. now apply scanFrom_sorted. }
  exists e'. simpl in Hdoc. split; [| exact Hdoc].
  unfold replaceAll. rewrite Hsort.
  destruct (results s) as [| m rs] eqn:Hrs.
  - simpl in *. now injection He' as <-.
  - rewrite He'. reflexivity.
Qed.

Lemma matchHere_exact (pat s : text) :
  matchHere true pat s = true -> firstn (List.length pat) s = pat.
Proof.
  revert s. induction pat as [| p pat IH]; intros s H; [reflexivity |].
  destruct s as [| c s]; simpl in *; [discriminate |].
  apply andb_true_iff in H. destruct H as [H1 H2].
  apply Ascii.eqb_eq in H1. subst c. f_equal. now apply IH.
Qed.

Lemma replaceLoop_same (term : text) (fuel : nat) (s : text) (lastIndex : nat) :
  term <> [] ->
  replaceLoop term true fuel term s lastIndex = skipn lastIndex s.
Proof.
  intros Hne. revert lastIndex.
  induction fuel as [| fuel IH]; intros li; simpl; [reflexivity |].
  destruct (exec term true s li) as [i |] eqn:E; [| reflexivity].
  apply (exec_spec term true Hne) in E. destruct E as (E1 & E2 & E3).
  rewrite IH. apply matchHere_exact in E3.
  rewrite <- (firstn_skipn (i - li) (skipn li s)) at 2. f_equal.
  rewrite skipn_skipn. replace (i - li + li) with i by lia.
  rewrite <- (firstn_skipn (List.length term) (skipn i s)) at 1.
  rewrite E3, skipn_skipn. f_equal. f_equal. lia.
Qed.

(** X14: with "Match case" on, replacing every match of a plain-text term
    (no markup character) by the term itself leaves the document exactly as
    it was. *)
Theorem replacing_a_term_by_itself_changes_nothing (s : Session) (e : Editor) :
  isPlainText (searchTerm s) = true ->
  caseSensitive s = true ->
  replaceTerm s = searchTerm s ->
  results s = scan (searchTerm s) (caseSensitive s) (doc e) ->
  exists e', replaceAll (s, e) = Some (s, e') /\ doc e' = doc e.
Proof.
  intros Hplain Hcs Hr Hres.
  assert (searchTerm s <> []) as Hne
      by (intros Hc; rewrite Hc in Hplain; discriminate Hplain).
  rewrite <- Hr in Hplain.
  destruct (replaceAll_on_scan s e Hne Hplain Hres) as (e' & Hall & Hdoc).
  exists e'. split; [exact Hall |]. rewrite Hdoc, Hcs, Hr.
  rewrite <- (map_id (doc e)) at 2. apply map_ext.
  intros [t |]; [| reflexivity]. simpl. unfold replaceInText.
  now rewrite replaceLoop_same.
Qed.

Lemma replacing_a_term_by_itself_changes_nothing_witness :
  let s := {| searchTerm := T "cat"; replaceTerm := T "cat";
              results := scan (T "cat") true catDoc;
              currentIndex := 0; caseSensitive := true |} in
  exists e', replaceAll (s, {| doc := catDoc; selection := Some (0, 0) |}) = Some (s, e')
             /\ doc e' = catDoc.
Proof.
  intros s.
  apply (replacing_a_term_by_itself_changes_nothing
           s {| doc := catDoc; selection := Some (0, 0) |});
    [reflexivity | reflexivity | reflexivity | reflexivity].
Defined.


Lemma findMatches_indexValid (st : State) :
  indexValid (fst (fst (findMatches st))) /\ snd (findMatches st) = Returns.
Proof.
  destruct st as [s e]. unfold findMatches, indexValid.
  destruct (searchTerm s) as [| c0 term] eqn:Et; [split; [now left | reflexivity] |].
  destruct (scan _ _ _) as [| m0 l] eqn:Es; [split; [now left | reflexivity] |].
  assert (insideText (doc e) m0) as Hin.
  { apply (scan_insideText (c0 :: term) (caseSensitive s)); [discriminate |].
    rewrite Es. now left. }
  rewrite (highlightMatch_inside m0 e Hin). split; [| reflexivity].
  right. simpl. lia.
Qed.

Lemma findMatchesWith_indexValid (term : text) (cs : bool) (d : Dialog) :
  indexValid (session (fst (findMatchesWith term cs d)))
  /\ snd (findMatchesWith term cs d) = Returns.
Proof.
  unfold findMatchesWith.
  pose proof (findMatches_indexValid
                (setCaseSensitive cs (setSearchTerm term (session d)), editor d)) as H.
  destruct (findMatches _) as [st' c]. exact H.
Qed.

Lemma searchEffect_indexValid (d : Dialog) :
  indexValid (session d) ->
  indexValid (session (fst (searchEffect d))) /\ snd (searchEffect d) = Returns.
Proof.
  intros H. unfold searchEffect.
  destruct (isOpen d); [| split; [exact H | reflexivity]].
  destruct (searchTerm (session d));
    [split; [exact H | reflexivity] | apply findMatchesWith_indexValid].
Qed.

Lemma closeEffect_indexValid (d : Dialog) :
  indexValid (session d) -> indexValid (session (closeEffect d)).
Proof.
  intros H. unfold closeEffect. destruct (isOpen d); [exact H | now left].
Qed.

Lemma goToNext_indexValid (s : Session) (e : Editor) :
  indexValid s ->
  indexValid (fst (fst (goToNext (s, e)))) /\ snd (goToNext (s, e)) <> TypeError.
Proof.
  intros [H | H].
  - unfold goToNext. rewrite H. split; [now left | discriminate].
  - assert (results s <> []) as Hne by (destruct (results s); [simpl in H; lia | discriminate]).
    destruct (goToNext_valid s e Hne H) as (m & _ & Hj & ->).
    split; [right; exact Hj | apply highlightMatch_not_TypeError].
Qed.

Lemma goToPrevious_indexValid (s : Session) (e : Editor) :
  indexValid s ->
  indexValid (fst (fst (goToPrevious (s, e)))) /\ snd (goToPrevious (s, e)) <> TypeError.
Proof.
  intros [H | H].
  - unfold goToPrevious. rewrite H. split; [now left | discriminate].
  - assert (results s <> []) as Hne by (destruct (results s); [simpl in H; lia | discriminate]).
    destruct (goToPrevious_valid s e Hne H) as (m & _ & Hj & ->).
    split; [right; exact Hj | apply highlightMatch_not_TypeError].
Qed.

Lemma replaceOne_session (s : Session) (e : Editor) (st' : State) (c : Completion) :
  indexValid s ->
  replaceOne (s, e) = Some (st', c) -> fst st' = s /\ c = Returns.
Proof.
  intros Hv. unfold replaceOne.
  destruct (List.length (results s) =? 0) eqn:E.
  - intros [= <- <-]. split; reflexivity.
  - destruct Hv as [Hv | Hv]; [rewrite Hv in E; discriminate |].
    destruct (at_index_valid _ _ Hv) as (m & -> & _).
    destruct (insertContentAt m (replaceTerm s) e); [| discriminate].
    intros [= <- <-]. split; reflexivity.
Qed.

Lemma replaceAll_session (s : Session) (e : Editor) (st' : State) :
  replaceAll (s, e) = Some st' -> fst st' = s.
Proof.
  unfold replaceAll. destruct (List.length (results s) =? 0); [now intros [= <-] |].
  destruct (replaceEach _ _ _); [now intros [= <-] | discriminate].
Qed.

Lemma dialogStep_indexValid (d d' : Dialog) (ev : Event) (c : Completion) :
  indexValid (session d) ->
  dialogStep d ev = Some (d', c) ->
  indexValid (session d') /\ c <> TypeError.
Proof.
  intros Hv.
  pose proof (goToNext_indexValid (session d) (editor d) Hv) as Hn.
  pose proof (goToPrevious_indexValid (session d) (editor d) Hv) as Hp.
  assert (forall d0, indexValid (session d0) ->
                     Some (searchEffect d0) = Some (d', c) ->
                     indexValid (session d') /\ c <> TypeError) as Hsearch.
  { intros d0 H0 [= E]. destruct (searchEffect_indexValid d0 H0) as [H1 H2].
    rewrite E in H1, H2. cbn [fst snd] in H1, H2. subst c.
    split; [exact H1 | discriminate]. }
  destruct ev as [t | t | b | | | | | term mc | key shift | open | e'];
    unfold dialogStep; cbv zeta.
  - destruct (text_eqb t _); [intros [= <- <-]; split; [exact Hv | discriminate] |].
    apply Hsearch. exact Hv.
  - intros [= <- <-]. split; [exact Hv | discriminate].
  - destruct (Bool.eqb b _); [intros [= <- <-]; split; [exact Hv | discriminate] |].
    apply Hsearch. exact Hv.
  - intros [= <- <-]. exact Hn.
  - intros [= <- <-]. exact Hp.
  - destruct (replaceOne (session d, editor d)) as [[st' c'] |] eqn:E; [| discriminate].
    intros [= <- <-]. destruct (replaceOne_session _ _ _ _ Hv E) as [Hs ->].
    cbn [withState session]. rewrite Hs. split; [exact Hv | discriminate].
  - destruct (replaceAll (session d, editor d)) as [st' |] eqn:E; [| discriminate].
    intros [= <- <-]. cbn [withState session].
    rewrite (replaceAll_session _ _ _ E). split; [exact Hv | discriminate].
  - intros [= E]. destruct (findMatchesWith_indexValid term mc d) as [H1 H2].
    rewrite E in H1, H2. cbn [fst snd] in H1, H2. subst c.
    split; [exact H1 | discriminate].
  - destruct (negb (isOpen d)); [intros [= <- <-]; split; [exact Hv | discriminate] |].
    destruct (String.eqb key "Enter" && negb shift); [intros [= <- <-]; exact Hn |].
    destruct (String.eqb key "Enter" && shift); [intros [= <- <-]; exact Hp |].
    destruct (String.eqb key "Escape"); intros [= <- <-];
      (split; [| discriminate]); [now left | exact Hv].
  - destruct (Bool.eqb open (isOpen d));
      [intros [= <- <-]; split; [exact Hv | discriminate] |].
    destruct (searchEffect_indexValid
                {| isOpen := open; session := session d; editor := editor d |} Hv)
      as [H1 H2].
    destruct (searchEffect _) as [d1 c1]. cbn [fst snd] in H1, H2.
    intros [= <- <-]. split; [now apply closeEffect_indexValid | rewrite H2; discriminate].
  - intros [= <- <-]. split; [exact Hv | discriminate].
Qed.

Lemma dialogStep_total (d : Dialog) (ev : Event) :
  isReplace ev = false -> dialogStep d ev <> None.
Proof.
  destruct ev; try discriminate; intros _; unfold dialogStep; cbv zeta;
    repeat match goal with
           | |- context [if ?b then _ else _] => destruct b
           | |- context [let (_, _) := ?x in _] => destruct x
           end; discriminate.
Qed.

(** X15: the current index always points into the match list, unless the
    list is empty: whatever the user does in the dialog (typing, toggling
    "Match case", next, previous, replace, replace all, keys, opening and
    closing), whatever rescans fire and however the document is edited
    meanwhile, as long as the edits of the dialog stay within the modelled
    ranges, no handler ever reads a match that is not there, so none throws
    a TypeError; a call may still throw a RangeError, when it goes to a
    match that lies beyond an edited document, and the index is valid after
    it too. Without replace events every sequence is followed to its end. *)
Theorem dialog_never_reads_a_missing_match (evs : list Event) (d : Dialog) :
  indexValid (session d) ->
  (forall d' cs,
      dialogRun d evs = Some (d', cs) ->
      indexValid (session d') /\ ~ In TypeError cs
      /\ List.length cs = List.length evs)
  /\ (existsb isReplace evs = false -> dialogRun d evs <> None).
Proof.
  revert d. induction evs as [| ev evs IH]; intros d Hv; simpl.
  - split; [| discriminate]. intros d' cs [= <- <-]. repeat split; [exact Hv | intros []].
  - split.
    + intros d' cs. destruct (dialogStep d ev) as [[d1 c] |] eqn:E; [| discriminate].
      destruct (dialogStep_indexValid d d1 ev c Hv E) as [Hv1 Hc].
      destruct (dialogRun d1 evs) as [[d2 cs2] |] eqn:E2; [| discriminate].
      intros [= <- <-]. destruct (proj1 (IH d1 Hv1) d2 cs2 E2) as (H1 & H2 & H3).
      split; [exact H1 |]. split; [| simpl; now rewrite H3].
      intros [Hin | Hin]; [now apply Hc | now apply H2].
    + intros Hno. apply orb_false_iff in Hno. destruct Hno as [Hev Hevs].
      pose proof (dialogStep_total d ev Hev) as Hst.
      destruct (dialogStep d ev) as [[d1 c] |] eqn:E; [| congruence].
      destruct (dialogStep_indexValid d d1 ev c Hv E) as [Hv1 _].
      pose proof (proj2 (IH d1 Hv1) Hevs) as Hrun.
      destruct (dialogRun d1 evs) as [[d2 cs2] |]; [discriminate | congruence].
Qed.

Lemma dialog_never_reads_a_missing_match_witness :
  let evs := [OpenChange true; SearchInput (T "cat"); ClickPrevious;
              KeyDown "Enter" false; ReplaceInput (T "dog"); ClickReplace;
              Rescan (T "cat") false;
              DocEdited {| doc := [Token; TextNode (T "dog"); Token];
                           selection := Some (1, 1) |};
              ClickNext; KeyDown "Escape" false] in
  exists d' cs,
    dialogRun (initialDialog {| doc := catDoc; selection := Some (0, 0) |}) evs
    = Some (d', cs)
    /\ cs = [Returns; Returns; Returns; Returns; Returns; Returns; Returns; Returns;
             RangeError; Returns]
    /\ indexValid (session d') /\ ~ In TypeError cs.
Proof.
  intros evs.
  destruct (dialogRun (initialDialog {| doc := catDoc; selection := Some (0, 0) |}) evs)
    as [[d' cs] |] eqn:E; [| vm_compute in E; discriminate E].
  exists d', cs. split; [reflexivity |].
  split; [vm_compute in E; now injection E as _ <- |].
  destruct (proj1 (dialog_never_reads_a_missing_match
                     evs (initialDialog {| doc := catDoc; selection := Some (0, 0) |})
                     (or_introl eq_refl)) d' cs E) as (H1 & H2 & _).
  split; assumption.
Defined.

End FindReplaceDialogFacts.

(** ** Page sizes and orientation *)

Module PageSizesFacts.
Import JS JSFacts PageSetup PageSizes.
Local Open Scope string_scope.

Lemma ltb_asym (a b : Q) : ltb a b = true -> ltb b a = false.
Proof.
  intros H. apply ltb_spec in H. destruct (ltb b a) eqn:E; [| reflexivity].
  apply ltb_spec in E. lra.
Qed.

Lemma ltb_false_ge (a b : Q) : ltb a b = false -> b <= a.
Proof.
  intros H. destruct (Qlt_le_dec a b) as [Hlt | Hle]; [| exact Hle].
  apply ltb_spec in Hlt. congruence.
Qed.

(** X16: [handleApply] hands on a page that fits the chosen orientation:
    at least as wide as high for landscape, at most as wide as high for
    portrait; it is the page of the dialog or that page turned, with its name,
    and the margins are handed on as they are; applying again from the
    re-opened dialog changes nothing. *)
Theorem apply_fits_orientation (st : Setup) :
  let final := fst (handleApply st) in
  (orientation st = Landscape -> height final <= width final)
  /\ (orientation st = Portrait -> width final <= height final)
  /\ (final = localPageSize st \/ final = swapped (localPageSize st))
  /\ name final = name (localPageSize st)
  /\ snd (handleApply st) = localMargins st
  /\ handleApply (reopen (handleApply st) (orientation st)) = handleApply st.
Proof.
  destruct st as [size m o]. unfold handleApply, reopen, gtb.
  cbn [fst snd localPageSize localMargins orientation].
  destruct o.
  - destruct (ltb (height size) (width size)) eqn:E.
    + pose proof (ltb_asym _ _ E) as E'. apply ltb_spec in E.
      cbn [width height name swapped]. rewrite E'.
      repeat split; try discriminate; auto. intros _. lra.
    + rewrite E. repeat split; try discriminate; auto.
      intros _. now apply ltb_false_ge.
  - destruct (ltb (width size) (height size)) eqn:E.
    + pose proof (ltb_asym _ _ E) as E'. apply ltb_spec in E.
      cbn [width height name swapped]. rewrite E'.
      repeat split; try discriminate; auto. intros _. lra.
    + rewrite E. repeat split; try discriminate; auto.
      intros _. now apply ltb_false_ge.
Qed.

Lemma apply_fits_orientation_witness :
  height (fst (handleApply {| localPageSize := {| name := "A4"; width := 827#100;
                                                  height := 1169#100 |};
                              localMargins := {| top := Fin 1; bottom := Fin 1;
                                                 left := Fin 1; right := Fin 1 |};
                              orientation := Landscape |}))
  <= width (fst (handleApply {| localPageSize := {| name := "A4"; width := 827#100;
                                                    height := 1169#100 |};
                                localMargins := {| top := Fin 1; bottom := Fin 1;
                                                   left := Fin 1; right := Fin 1 |};
                                orientation := Landscape |})).
Proof.
  apply (proj1 (apply_fits_orientation
                  {| localPageSize := {| name := "A4"; width := 827#100;
                                         height := 1169#100 |};
                     localMargins := {| top := Fin 1; bottom := Fin 1;
                                        left := Fin 1; right := Fin 1 |};
                     orientation := Landscape |})).
  reflexivity.
Defined.

Lemma lookup_keys (key : string) (size : PageSize) :
  lookup key PAGE_SIZES = Some size ->
  In (key, size) PAGE_SIZES.
Proof.
  unfold PAGE_SIZES. simpl.
  repeat (destruct (String.eqb key _) eqn:E;
          [apply String.eqb_eq in E; subst key; intros [= <-]; tauto | clear E]).
  discriminate.
Qed.

(** X17: the page-size select shows what was chosen: after choosing any key
    of the table, [getCurrentPageSizeKey] is that key, also when the chosen
    page has been turned by applying it in landscape. *)
Theorem page_size_key_round_trip (key : string) (size : PageSize) (st : Setup) :
  lookup key PAGE_SIZES = Some size ->
  localPageSize (handlePageSizeSelect key st) = size
  /\ getCurrentPageSizeKey (handlePageSizeSelect key st) = key
  /\ (forall o,
        getCurrentPageSizeKey
          (reopen (handleApply {| localPageSize := size; localMargins := localMargins st;
                                  orientation := o |}) o) = key).
Proof.
  intros H. unfold handlePageSizeSelect. rewrite H.
  apply lookup_keys in H. unfold PAGE_SIZES in H. simpl in H.
  repeat (destruct H as [[= <- <-] | H];
          [split; [reflexivity | split; [reflexivity | intros [|]; reflexivity]] |]).
  destruct H.
Qed.

Lemma page_size_key_round_trip_witness :
  getCurrentPageSizeKey
    (reopen (handleApply {| localPageSize := {| name := "A4"; width := 827#100;
                                                height := 1169#100 |};
                            localMargins := {| top := Fin 1; bottom := Fin 1;
                                               left := Fin 1; right := Fin 1 |};
                            orientation := Landscape |}) Landscape) = "a4".
Proof.
  refine (proj2 (proj2 (page_size_key_round_trip "a4" _
            {| localPageSize := {| name := "Letter"; width := 85#10; height := 11 |};
               localMargins := {| top := Fin 1; bottom := Fin 1;
                                  left := Fin 1; right := Fin 1 |};
               orientation := Portrait |} eq_refl)) Landscape).
Defined.

End PageSizesFacts.

(** ** Word and character counts *)

Module WordCountFacts.
Import FindReplace WordCount.
Local Open Scope nat_scope.

Lemma splitFrom_count (s : text) (cur : text) (inSep : bool) :
  (inSep = true -> cur = []) ->
  List.length (filter nonEmpty (splitFrom cur inSep s))
  = (if nonEmpty cur then 1 else 0) + wordStarts (nonEmpty cur) s.
Proof.
  revert cur inSep. induction s as [| c s IH]; intros cur inSep Hinv; simpl.
  - destruct (nonEmpty cur); reflexivity.
  - destruct (isSpace c).
    + destruct inSep.
      * rewrite (Hinv eq_refl). rewrite IH by reflexivity. reflexivity.
      * simpl. destruct (nonEmpty cur); simpl; rewrite IH by reflexivity; reflexivity.
    + rewrite IH by discriminate.
      assert (nonEmpty (cur ++ [c]) = true) as -> by (destruct cur; reflexivity).
      destruct (nonEmpty cur); simpl; lia.
Qed.

Lemma split_count (s : text) :
  List.length (filter nonEmpty (split s)) = wordStarts false s.
Proof. unfold split. now rewrite splitFrom_count. Qed.

Lemma wordStarts_spaces (ws : text) (b : bool) :
  forallb isSpace ws = true -> wordStarts b ws = 0.
Proof.
  revert b. induction ws as [| c ws IH]; intros b H; simpl in *; [reflexivity |].
  apply andb_true_iff in H. destruct H as [-> H]. now apply IH.
Qed.

Lemma wordStarts_leading (ws s : text) :
  forallb isSpace ws = true -> wordStarts false (ws ++ s) = wordStarts false s.
Proof.
  induction ws as [| c ws IH]; intros H; simpl in *; [reflexivity |].
  apply andb_true_iff in H. destruct H as [-> H]. now apply IH.
Qed.

Lemma wordStarts_trailing (s ws : text) (b : bool) :
  forallb isSpace ws = true -> wordStarts b (s ++ ws) = wordStarts b s.
Proof.
  intros H. revert b. induction s as [| c s IH]; intros b; simpl.
  - now apply wordStarts_spaces.
  - destruct (isSpace c); now rewrite IH.
Qed.

Lemma wordStarts_app_space (a s : text) (c : ascii) (b : bool) :
  isSpace c = true ->
  wordStarts b (a ++ c :: s) = wordStarts b a + wordStarts false s.
Proof.
  intros Hc. revert b. induction a as [| x a IH]; intros b; simpl.
  - now rewrite Hc.
  - destruct (isSpace x); rewrite IH; lia.
Qed.

Lemma trimStart_decomp (s : text) :
  exists ws, forallb isSpace ws = true /\ s = ws ++ trimStart s.
Proof.
  induction s as [| c s (ws & Hws & IH)]; simpl.
  - now exists [].
  - destruct (isSpace c) eqn:E.
    + exists (c :: ws). simpl. rewrite E, Hws. split; [reflexivity | now f_equal].
    + now exists [].
Qed.

Lemma forallb_rev (f : ascii -> bool) (l : text) :
  forallb f l = true -> forallb f (rev l) = true.
Proof.
  rewrite !forallb_forall. intros H x Hx. apply H. now apply in_rev.
Qed.

Lemma trimEnd_decomp (s : text) :
  exists ws, forallb isSpace ws = true /\ s = trimEnd s ++ ws.
Proof.
  destruct (trimStart_decomp (rev s)) as (ws & Hws & H).
  exists (rev ws). split; [now apply forallb_rev |].
  unfold trimEnd. rewrite <- rev_app_distr, <- H. now rewrite rev_involutive.
Qed.

(** Counting words is counting the places where a word starts. *)
Lemma countWords_wordStarts (s : text) : countWords s = wordStarts false s.
Proof.
  unfold countWords, trim. rewrite split_count.
  destruct (trimStart_decomp s) as (w1 & H1 & E1).
  destruct (trimEnd_decomp (trimStart s)) as (w2 & H2 & E2).
  rewrite E1 at 2. rewrite wordStarts_leading by exact H1.
  rewrite E2 at 2. now rewrite wordStarts_trailing.
Qed.

Lemma wordStarts_no_space (s : text) :
  forallb (fun c => negb (isSpace c)) s = true ->
  wordStarts true s = 0 /\ wordStarts false s = (if nonEmpty s then 1 else 0).
Proof.
  induction s as [| c s IH]; intros H; simpl in *; [auto |].
  apply andb_true_iff in H. destruct H as [Hc H].
  apply negb_true_iff in Hc. rewrite Hc.
  destruct (IH H) as [IH1 IH2]. rewrite IH1. auto.
Qed.

(** X18: the word count is the number of runs of characters that are not
    white space: a text of white space only (or empty) has no words, a
    text that is not empty and has no white space is one word, white space
    around a text does not count, the words of two texts joined by a
    white-space character add up, so any number of such words, each
    followed by a white-space character, are counted as that number; and
    the [trim] before the split makes no difference to the count. *)
Theorem word_count_counts_runs :
  (forall s, forallb isSpace s = true -> countWords s = 0)
  /\ (forall w,
        w <> [] -> forallb (fun c => negb (isSpace c)) w = true -> countWords w = 1)
  /\ (forall w1 s w2,
        forallb isSpace w1 = true -> forallb isSpace w2 = true ->
        countWords (w1 ++ s ++ w2) = countWords s)
  /\ (forall a c b,
        isSpace c = true -> countWords (a ++ c :: b) = countWords a + countWords b)
  /\ (forall (ws : list text) (c : ascii),
        isSpace c = true ->
        Forall (fun w => w <> [] /\ forallb (fun c => negb (isSpace c)) w = true) ws ->
        countWords (flat_map (fun w => w ++ [c]) ws) = List.length ws)
  /\ (forall s, List.length (filter nonEmpty (split s)) = countWords s).
Proof.
  assert (forall w, w <> [] -> forallb (fun c => negb (isSpace c)) w = true ->
                    countWords w = 1) as Hone.
  { intros w Hne Hw. rewrite countWords_wordStarts.
    rewrite (proj2 (wordStarts_no_space w Hw)). destruct w; [congruence | reflexivity]. }
  assert (forall a c b, isSpace c = true ->
                        countWords (a ++ c :: b) = countWords a + countWords b) as Hadd.
  { intros a c b H. rewrite !countWords_wordStarts. now apply wordStarts_app_space. }
  split; [| split; [exact Hone | split; [| split; [exact Hadd | split]]]].
  - intros s H. rewrite countWords_wordStarts. now apply wordStarts_spaces.
  - intros w1 s w2 H1 H2. rewrite !countWords_wordStarts.
    rewrite wordStarts_leading by exact H1. now apply wordStarts_trailing.
  - intros ws c Hc Hall. induction Hall as [| w ws [Hne Hw] _ IH]; [reflexivity |].
    cbn [flat_map List.length]. rewrite <- app_assoc. cbn [app].
    rewrite (Hadd w c _ Hc), (Hone w Hne Hw), IH. reflexivity.
  - intros s. now rewrite countWords_wordStarts, split_count.
Qed.

Lemma word_count_counts_runs_witness :
  countWords (T "two words ") = 2
  /\ countWords (T "two words" ++ T " " ++ T "and three more ")
     = countWords (T "two words") + countWords (T "and three more ").
Proof.
  split.
  - apply (proj1 (proj2 (proj2 (proj2 (proj2 word_count_counts_runs))))
                 [T "two"; T "words"] " "%char); [reflexivity |].
    repeat constructor; discriminate.
  - apply (proj1 (proj2 (proj2 (proj2 word_count_counts_runs)))
                 (T "two words") " "%char).
    reflexivity.
Defined.

Lemma wordStarts_le (s : text) (b : bool) :
  wordStarts b s <= List.length (filter (fun c => negb (isSpace c)) s).
Proof.
  revert b. induction s as [| c s IH]; intros b; simpl; [lia |].
  destruct (isSpace c); simpl.
  - apply IH.
  - specialize (IH true). destruct b; lia.
Qed.

Lemma filter_length_le (A : Type) (f : A -> bool) (l : list A) :
  List.length (filter f l) <= List.length l.
Proof.
  induction l as [| x l IH]; simpl; [lia |]. destruct (f x); simpl; lia.
Qed.

(** X19: in the toolbar's statistics the words are at most the characters
    without spaces, and these at most the characters; the characters are the
    characters without spaces plus the white-space characters; there are no
    words exactly when there is no character other than white space. *)
Theorem word_count_statistics (d : Doc) :
  let c := getWordCount d in
  words c <= charactersNoSpaces c <= characters c
  /\ characters c
     = charactersNoSpaces c + List.length (filter isSpace (textContent d))
  /\ (words c = 0 <-> charactersNoSpaces c = 0)
  /\ words c = updateWordCount d.
Proof.
  unfold getWordCount, updateWordCount. cbn [words characters charactersNoSpaces].
  fold (countWords (textContent d)). rewrite countWords_wordStarts.
  set (s := textContent d).
  split; [split; [apply wordStarts_le | apply filter_length_le] |].
  split; [| split; [| reflexivity]].
  - clear. induction s as [| c s IH]; simpl; [reflexivity |].
    destruct (isSpace c); simpl; lia.
  - clear. split.
    + induction s as [| c s IH]; simpl; [reflexivity |].
      destruct (isSpace c); simpl; [exact IH | lia].
    + intros H. pose proof (wordStarts_le s false). lia.
Qed.

Lemma textContent_no_space (d : Doc) :
  (forall t, In (TextNode t) d -> forallb (fun c => negb (isSpace c)) t = true) ->
  forallb (fun c => negb (isSpace c)) (textContent d) = true.
Proof.
  induction d as [| n d IH]; intros H; simpl; [reflexivity |].
  destruct n as [t |].
  - rewrite forallb_app, (H t (or_introl eq_refl)). simpl.
    apply IH. intros t' Ht'. apply H. now right.
  - apply IH. intros t' Ht'. apply H. now right.
Qed.

(** X20: words are counted in the text of the whole document, where nothing
    separates one block from the next: a document none of whose text nodes
    contains white space counts as one word, however many blocks it has (and
    as none when it has no text). *)
Theorem blocks_do_not_separate_words (d : Doc) :
  (forall t, In (TextNode t) d -> forallb (fun c => negb (isSpace c)) t = true) ->
  updateWordCount d = (if nonEmpty (textContent d) then 1 else 0).
Proof.
  intros H. unfold updateWordCount. rewrite countWords_wordStarts.
  now apply wordStarts_no_space, textContent_no_space.
Qed.

Lemma blocks_do_not_separate_words_witness :
  updateWordCount [Token; TextNode (T "Hello"); Token; Token; TextNode (T "World"); Token]
  = 1.
Proof.
  apply (blocks_do_not_separate_words
           [Token; TextNode (T "Hello"); Token; Token; TextNode (T "World"); Token]).
  intros t [H | [H | [H | [H | [H | [H | []]]]]]]; try discriminate H;
    injection H as <-; reflexivity.
Defined.

End WordCountFacts.

(** ** Numbers as strings *)

Module JSStringFacts.
Import JSString.
Local Open Scope string_scope.

Lemma parseDigits_uint (d : Decimal.uint) (rest : string) (acc : nat) (seen : bool) :
  parseDigits 10 (NilEmpty.string_of_uint d ++ rest) acc seen
  = parseDigits 10 rest (Nat.of_uint_acc d acc)
                (seen || match d with Decimal.Nil => false | _ => true end).
Proof.
  revert acc seen.
  induction d as [| d IH | d IH | d IH | d IH | d IH | d IH | d IH | d IH | d IH | d IH];
    intros acc seen;
    [simpl; now rewrite orb_false_r | ..];
    simpl NilEmpty.string_of_uint; simpl append; cbn [parseDigits];
    match goal with
    | |- context [digitValue 10 ?c] =>
        let v := eval vm_compute in (digitValue 10 c) in
        change (digitValue 10 c) with v
    end;
    cbv iota beta; rewrite IH; cbn [Nat.of_uint_acc orb];
    rewrite Nat.tail_mul_spec, orb_true_r;
    f_equal; f_equal; lia.
Qed.

Lemma to_uint_nonNil (n : nat) : Nat.to_uint n <> Decimal.Nil.
Proof.
  intros H. pose proof (DecimalNat.Unsigned.to_of (Nat.to_uint n)) as E.
  rewrite DecimalNat.Unsigned.of_to in E. rewrite H in E at 2.
  simpl in E. rewrite H in E. discriminate E.
Qed.

Lemma digit_is_plain (c : ascii) (v : nat) :
  digitValue 10 c = Some v ->
  PageSetup.isWhiteSpace c = false /\ Ascii.eqb c "-" = false
  /\ Ascii.eqb c "+" = false /\ c <> "x"%char /\ c <> "X"%char.
Proof.
  intros H.
  destruct c as [[] [] [] [] [] [] [] []]; vm_compute in H; try discriminate H;
    repeat split; try reflexivity; discriminate.
Qed.

Lemma parseInt_plain (u : string) :
  plainStart u ->
  parseInt u = option_map Z.of_nat (parseDigits 10 u 0 false)
  /\ parseInt ("-" ++ u) = option_map (fun n => (- Z.of_nat n)%Z) (parseDigits 10 u 0 false).
Proof.
  destruct u as [| c0 u1]; [intros [] |]. intros [[v Hv] Hhex].
  destruct (digit_is_plain c0 v Hv) as (W & M & P & _).
  assert ((let (radix, digits) :=
             match String c0 u1 with
             | String c0 (String c1 u') =>
                 if Ascii.eqb c0 "0" && (Ascii.eqb c1 "x" || Ascii.eqb c1 "X")
                 then (16%nat, u') else (10%nat, String c0 u1)
             | _ => (10%nat, String c0 u1)
             end in
           parseDigits radix digits 0 false)
          = parseDigits 10 (String c0 u1) 0 false) as E.
  { destruct u1 as [| c1 u']; [reflexivity |]. destruct Hhex as [Hx HX].
    apply Ascii.eqb_neq in Hx. apply Ascii.eqb_neq in HX.
    now rewrite Hx, HX, andb_false_r. }
  split.
  - unfold parseInt. cbn [PageSetup.trimStart]. rewrite W, M, P.
    destruct u1 as [| c1 u']; [now destruct (parseDigits 10 _ 0 false) |].
    destruct Hhex as [Hx HX].
    apply Ascii.eqb_neq in Hx. apply Ascii.eqb_neq in HX.
    rewrite Hx, HX, andb_false_r. now destruct (parseDigits 10 _ 0 false).
  - unfold parseInt. cbn [append PageSetup.trimStart].
    change (PageSetup.isWhiteSpace "-") with false. cbv iota.
    change (Ascii.eqb "-" "-") with true. cbv iota.
    destruct u1 as [| c1 u']; [now destruct (parseDigits 10 _ 0 false) |].
    destruct Hhex as [Hx HX].
    apply Ascii.eqb_neq in Hx. apply Ascii.eqb_neq in HX.
    rewrite Hx, HX, andb_false_r. now destruct (parseDigits 10 _ 0 false).
Qed.

Lemma string_of_uint_head (d : Decimal.uint) :
  d <> Decimal.Nil ->
  exists c d', NilEmpty.string_of_uint d = String c (NilEmpty.string_of_uint d')
               /\ exists v, digitValue 10 c = Some v.
Proof.
  destruct d as [| d | d | d | d | d | d | d | d | d | d]; [congruence | ..];
    intros _; eexists _, d; (split; [reflexivity |]); eexists; reflexivity.
Qed.

Lemma number_plainStart (d : Decimal.uint) (rest : string) :
  d <> Decimal.Nil -> endsNumber rest ->
  plainStart (NilEmpty.string_of_uint d ++ rest).
Proof.
  intros Hd Hrest.
  destruct (string_of_uint_head d Hd) as (c & d' & -> & Hc).
  cbn [append plainStart]. split; [exact Hc |].
  destruct (Decimal.uint_eq_dec d' Decimal.Nil) as [-> | Hd'].
  - simpl. destruct rest as [| c1 r]; [exact I | apply Hrest].
  - destruct (string_of_uint_head d' Hd') as (c1 & d'' & -> & v & Hv).
    cbn [append]. now destruct (digit_is_plain c1 v Hv) as (_ & _ & _ & Hx & HX).
Qed.

Lemma parseDigits_end (rest : string) (n : nat) :
  endsNumber rest -> parseDigits 10 rest n true = Some n.
Proof.
  destruct rest as [| c r]; [reflexivity |]. intros (H & _). simpl. now rewrite H.
Qed.

(** Reading back a number that was written out gives the number, whatever
    follows it that is not a digit (nor an [x] after a lone zero). *)
Lemma parseInt_String_of_nat (n : nat) (rest : string) :
  endsNumber rest ->
  parseInt (String_of_nat n ++ rest) = Some (Z.of_nat n)
  /\ parseInt ("-" ++ String_of_nat n ++ rest) = Some (- Z.of_nat n)%Z.
Proof.
  intros Hrest. unfold String_of_nat.
  pose proof (number_plainStart (Nat.to_uint n) rest (to_uint_nonNil n) Hrest) as Hp.
  destruct (parseInt_plain _ Hp) as [E1 E2]. rewrite E1, E2.
  rewrite parseDigits_uint.
  change (Nat.of_uint_acc (Nat.to_uint n) 0) with (Nat.of_uint (Nat.to_uint n)).
  rewrite DecimalNat.Unsigned.of_to.
  assert ((false || match Nat.to_uint n with Decimal.Nil => false | _ => true end)
          = true) as ->.
  { pose proof (to_uint_nonNil n). now destruct (Nat.to_uint n). }
  rewrite (parseDigits_end rest n Hrest). split; reflexivity.
Qed.

Lemma parseInt_String_of_Z (z : Z) (rest : string) :
  endsNumber rest -> parseInt (String_of_Z z ++ rest) = Some z.
Proof.
  intros Hrest. unfold String_of_Z. destruct (z <? 0)%Z eqn:E.
  - apply Z.ltb_lt in E.
    replace (("-" ++ String_of_nat (Z.to_nat (- z))) ++ rest)
      with ("-" ++ String_of_nat (Z.to_nat (- z)) ++ rest) by reflexivity.
    rewrite (proj2 (parseInt_String_of_nat _ rest Hrest)). f_equal. lia.
  - apply Z.ltb_ge in E.
    rewrite (proj1 (parseInt_String_of_nat _ rest Hrest)). f_equal. lia.
Qed.

Lemma substring_all (s : string) : String.substring 0 (String.length s) s = s.
Proof. induction s as [| c s IH]; simpl; [reflexivity | now rewrite IH]. Qed.

End JSStringFacts.

(** ** Font sizes *)

Module FontSizesFacts.
Import JSString JSStringFacts FontSizes.
Local Open Scope string_scope.
Local Open Scope Z_scope.

Lemma append_empty (s : string) : (s ++ "")%string = s.
Proof. induction s as [| c s IH]; simpl; [reflexivity | now rewrite IH]. Qed.

Lemma parseInt_String (z : Z) : parseInt (String_of_Z z) = Some z.
Proof.
  rewrite <- (append_empty (String_of_Z z)). now apply parseInt_String_of_Z.
Qed.

Lemma offer_size (v : Z) (fontSize : string) :
  parseInt (handleFontSizeChange (String_of_Z v) fontSize)
  = if (1 <=? v) && (v <=? 400) then Some v else parseInt fontSize.
Proof.
  unfold handleFontSizeChange. rewrite parseInt_String.
  destruct ((1 <=? v) && (v <=? 400)); [apply parseInt_String | reflexivity].
Qed.

Ltac split_ltb :=
  repeat match goal with
         | |- context [(?a <? ?b)] => destruct (Z.ltb_spec a b); try lia
         end.

Lemma nextSize_spec (c : Z) :
  c < nextSize c
  /\ (c < 72 -> In (nextSize c) FONT_SIZES
                /\ forall s, In s FONT_SIZES -> c < s -> nextSize c <= s)
  /\ (72 <= c -> nextSize c = c + 2).
Proof.
  unfold nextSize, FONT_SIZES. cbn [find].
  split_ltb; (split; [lia |]); (split; [| intros; lia]);
    intros ?; try lia; (split; [simpl; tauto |]);
    intros s Hs ?; simpl in Hs; lia.
Qed.

Lemma prevSize_spec (c : Z) :
  1 <= c ->
  1 <= prevSize c <= c
  /\ (8 < c -> In (prevSize c) FONT_SIZES /\ prevSize c < c
               /\ forall s, In s FONT_SIZES -> s < c -> s <= prevSize c)
  /\ (3 <= c <= 8 -> prevSize c = c - 2)
  /\ (c <= 2 -> prevSize c = 1).
Proof.
  intros H1. unfold prevSize, FONT_SIZES. cbn [rev app find].
  split_ltb; (split; [lia |]); (split; [| split; intros; lia]);
    intros ?; try lia; (split; [simpl; tauto |]); (split; [lia |]);
    intros s Hs ?; simpl in Hs; lia.
Qed.


Lemma increase_reads (fontSize : string) (c : Z) :
  parseInt fontSize = Some c -> 1 <= c <= 400 ->
  parseInt (increaseFontSize fontSize)
  = Some (if nextSize c <=? 400 then nextSize c else c).
Proof.
  intros Hc Hr. unfold increaseFontSize. rewrite Hc, offer_size, Hc.
  pose proof (nextSize_spec c) as (Hlt & _).
  destruct (Z.leb_spec 1 (nextSize c)); [| lia].
  destruct (Z.leb_spec (nextSize c) 400); reflexivity.
Qed.

Lemma decrease_reads (fontSize : string) (c : Z) :
  parseInt fontSize = Some c -> 1 <= c <= 400 ->
  parseInt (decreaseFontSize fontSize) = Some (prevSize c).
Proof.
  intros Hc Hr. unfold decreaseFontSize. rewrite Hc, offer_size.
  pose proof (prevSize_spec c (proj1 Hr)) as (Hb & _).
  destruct (Z.leb_spec 1 (prevSize c)); [| lia].
  destruct (Z.leb_spec (prevSize c) 400); [reflexivity | lia].
Qed.

Lemma table_max (s : Z) : In s FONT_SIZES -> 8 <= s <= 72.
Proof. unfold FONT_SIZES. simpl. lia. Qed.

(** X21: in the menu-bar toolbar the font size, once between 1 and 400,
    stays there whatever is typed or clicked. "Increase" goes to the next
    size of the list, or two points up above 72, and stops where 400 would
    be passed; "decrease" goes to the next smaller size of the list, which
    is 72 from anywhere above 72, or two points down below 8, and stops at
    1. From a size of the list below 72, "increase" then "decrease" comes
    back to it. *)
Theorem font_size_stays_in_range (fontSize : string) (c : Z) :
  parseInt fontSize = Some c -> 1 <= c <= 400 ->
  (forall newSize, exists c',
        parseInt (handleFontSizeChange newSize fontSize) = Some c' /\ 1 <= c' <= 400)
  /\ (exists up,
        parseInt (increaseFontSize fontSize) = Some up
        /\ c <= up <= 400 /\ (up = c <-> 398 < c)
        /\ (c < 72 -> In up FONT_SIZES) /\ (72 <= c <= 398 -> up = c + 2))
  /\ (exists down,
        parseInt (decreaseFontSize fontSize) = Some down
        /\ 1 <= down <= c /\ (down = c <-> c = 1)
        /\ (8 < c -> In down FONT_SIZES) /\ (72 < c -> down = 72)
        /\ (3 <= c <= 8 -> down = c - 2))
  /\ (In c FONT_SIZES -> c < 72 ->
      parseInt (decreaseFontSize (increaseFontSize fontSize)) = Some c).
Proof.
  intros Hc Hr.
  pose proof (nextSize_spec c) as (Nlt & Ntab & Nbig).
  pose proof (prevSize_spec c (proj1 Hr)) as (Pb & Ptab & Pmid & Plow).
  split; [| split; [| split]].
  - intros newSize. unfold handleFontSizeChange.
    destruct (parseInt newSize) as [size |] eqn:E; [| eauto].
    destruct ((1 <=? size) && (size <=? 400)) eqn:G; [| eauto].
    apply andb_true_iff in G. destruct G as [G1 G2].
    apply Z.leb_le in G1. apply Z.leb_le in G2. eauto.
  - rewrite (increase_reads fontSize c Hc Hr).
    eexists. split; [reflexivity |].
    destruct (Z.leb_spec (nextSize c) 400) as [Hle | Hgt].
    + repeat split; try lia. intros L. now destruct (Ntab L).
    + assert (72 <= c) as G.
      { destruct (Z.lt_ge_cases c 72) as [L | G]; [| exact G].
        destruct (Ntab L) as (Hin & _). apply table_max in Hin. lia. }
      specialize (Nbig G). repeat split; try lia.
  - rewrite (decrease_reads fontSize c Hc Hr).
    eexists. split; [reflexivity |]. split; [exact Pb |].
    split; [| split; [| split]].
    + split; [| intros ->; apply Plow; lia].
      intros H. destruct (Z.lt_ge_cases 8 c) as [L | G]; [destruct (Ptab L); lia |].
      destruct (Z.le_gt_cases c 2) as [L2 | G2]; [specialize (Plow L2); lia |].
      assert (prevSize c = c - 2) by (apply Pmid; lia). lia.
    + intros L. now destruct (Ptab L).
    + intros L. assert (8 < c) as L8 by lia. destruct (Ptab L8) as (Hin & Hlt & Hmax).
      apply table_max in Hin.
      assert (72 <= prevSize c) by (apply Hmax; [unfold FONT_SIZES; simpl; tauto | lia]).
      lia.
    + exact Pmid.
  - intros Hin L. destruct (Ntab L) as (Uin & Umin).
    pose proof (table_max _ Uin) as Ub. pose proof (table_max _ Hin) as Cb.
    assert (parseInt (increaseFontSize fontSize) = Some (nextSize c)) as Hup.
    { rewrite (increase_reads fontSize c Hc Hr).
      destruct (Z.leb_spec (nextSize c) 400); [reflexivity | lia]. }
    rewrite (decrease_reads _ _ Hup) by lia. f_equal.
    destruct (prevSize_spec (nextSize c) ltac:(lia)) as (_ & Qtab & _).
    destruct (Qtab ltac:(lia)) as (Qin & Qlt & Qmax).
    assert (c <= prevSize (nextSize c)) by (apply Qmax; [exact Hin | lia]).
    destruct (Z.eq_dec (prevSize (nextSize c)) c) as [E | NE]; [exact E |].
    assert (nextSize c <= prevSize (nextSize c)) by (apply Umin; [exact Qin | lia]).
    lia.
Qed.

Lemma font_size_stays_in_range_witness :
  parseInt (decreaseFontSize (increaseFontSize "11")) = Some 11.
Proof.
  apply (proj2 (proj2 (proj2 (font_size_stays_in_range "11" 11 eq_refl
                                ltac:(lia))))).
  - unfold FONT_SIZES. simpl. tauto.
  - reflexivity.
Defined.

(** X22: in the compact toolbar the font size is always a size of the list:
    "increase" goes to the next size of the list and stays at 72,
    "decrease" goes to the one before and stays at 8, and each undoes the
    other between these ends. *)
Theorem font_size_stays_in_list (c : Z) :
  In c FONT_SIZES ->
  In (increaseFontSizeIn c) FONT_SIZES /\ In (decreaseFontSizeIn c) FONT_SIZES
  /\ c <= increaseFontSizeIn c /\ decreaseFontSizeIn c <= c
  /\ (increaseFontSizeIn c = c <-> c = 72) /\ (decreaseFontSizeIn c = c <-> c = 8)
  /\ (c <> 72 -> decreaseFontSizeIn (increaseFontSizeIn c) = c)
  /\ (c <> 8 -> increaseFontSizeIn (decreaseFontSizeIn c) = c)
  /\ (forall s, In s FONT_SIZES -> c < s -> increaseFontSizeIn c <= s).
Proof.
  intros H. unfold FONT_SIZES in H. simpl in H.
  repeat (destruct H as [H | H];
          [subst c;
           repeat match goal with
                  | |- context [increaseFontSizeIn ?x] =>
                      let v := eval vm_compute in (increaseFontSizeIn x) in
                      change (increaseFontSizeIn x) with v
                  | |- context [decreaseFontSizeIn ?x] =>
                      let v := eval vm_compute in (decreaseFontSizeIn x) in
                      change (decreaseFontSizeIn x) with v
                  end;
           unfold FONT_SIZES; simpl In; intuition lia |]).
  destruct H.
Qed.

Lemma font_size_stays_in_list_witness :
  decreaseFontSizeIn (increaseFontSizeIn 11) = 11.
Proof.
  apply (proj1 (proj2 (proj2 (proj2 (proj2 (proj2 (proj2
           (font_size_stays_in_list 11 ltac:(unfold FONT_SIZES; simpl; tauto))))))))).
  discriminate.
Defined.

End FontSizesFacts.

(** ** The document outline *)

Module OutlineFacts.
Import JSString JSStringFacts Outline.
Local Open Scope string_scope.
Local Open Scope nat_scope.

Lemma PNode_nested_ind (P : PNode -> Prop) :
  (forall t, P (PText t)) -> P PLeaf ->
  (forall typeName lvl content, Forall P content -> P (PBlock typeName lvl content)) ->
  forall n, P n.
Proof.
  intros Ht Hl Hb. fix IH 1. intros [t | | typeName lvl content].
  - apply Ht.
  - apply Hl.
  - apply Hb. induction content as [| c content IHc]; constructor;
      [apply IH | exact IHc].
Qed.

Lemma visitNode_block (typeName : string) (lvl : nat) (content : list PNode) (pos : nat) :
  visitNode (PBlock typeName lvl content) pos
  = (PBlock typeName lvl content, pos) :: visitNodes content (pos + 1).
Proof.
  reflexivity.
Qed.

Lemma inRange_widen (lo hi lo' hi' : nat) (l : list (PNode * nat)) :
  lo' <= lo -> hi <= hi' -> Forall (inRange lo hi) l -> Forall (inRange lo' hi') l.
Proof.
  intros H1 H2. apply Forall_impl. intros np [A B]. unfold inRange. lia.
Qed.

Lemma heading_size (n : PNode) : isHeading n = true -> 2 <= nodeSize n.
Proof. destruct n; simpl; [discriminate | discriminate | lia]. Qed.

Lemma visitNodes_ordered (l : list PNode) :
  Forall (fun n => forall pos,
              Forall (inRange pos (pos + nodeSize n)) (visitNode n pos)
              /\ StronglySorted before (visitNode n pos)) l ->
  forall p,
    Forall (inRange p (p + list_sum (map nodeSize l))) (visitNodes l p)
    /\ StronglySorted before (visitNodes l p).
Proof.
  induction 1 as [| c l Hc _ IH]; intros p; simpl; [split; constructor |].
  destruct (Hc p) as [Rc Sc]. destruct (IH (p + nodeSize c)) as [Rl Sl].
  split.
  - apply Forall_app. split; eapply inRange_widen; try eassumption; lia.
  - apply FindReplaceFacts.StronglySorted_app; [exact Sc | exact Sl |].
    intros a b Ha Hb.
    rewrite Forall_forall in Rc, Rl.
    destruct (Rc a Ha) as [A1 A2]. destruct (Rl b Hb) as [B1 B2].
    split; [lia |]. intros Hh. apply heading_size in Hh. lia.
Qed.

Lemma visitNode_ordered (n : PNode) (pos : nat) :
  Forall (inRange pos (pos + nodeSize n)) (visitNode n pos)
  /\ StronglySorted before (visitNode n pos).
Proof.
  revert pos. induction n as [t | | typeName lvl content IH] using PNode_nested_ind;
    intros pos.
  - simpl. split; repeat constructor; simpl; lia.
  - simpl. split; repeat constructor; simpl; lia.
  - rewrite visitNode_block.
    destruct (visitNodes_ordered content IH (pos + 1)) as [R S].
    split.
    + constructor; [unfold inRange; simpl; lia |].
      eapply inRange_widen; [| | exact R]; simpl; lia.
    + constructor; [exact S |].
      eapply Forall_impl; [| exact R]. intros np [A B]. unfold before. simpl. lia.
Qed.

Lemma descendants_ordered (doc : list PNode) : StronglySorted before (descendants doc).
Proof.
  apply visitNodes_ordered. apply Forall_forall. intros n _ pos.
  apply visitNode_ordered.
Qed.

Lemma headingPositions_sorted (visited : list (PNode * nat)) :
  StronglySorted before visited -> StronglySorted lt (headingPositions visited).
Proof.
  unfold headingPositions.
  induction 1 as [| a l Hl IH Ha]; simpl; [constructor |].
  destruct (isHeading (fst a)) eqn:E; [| exact IH].
  simpl. constructor; [exact IH |].
  apply Forall_map. apply Forall_forall. intros b Hb.
  apply filter_In in Hb. destruct Hb as [Hb _].
  rewrite Forall_forall in Ha. destruct (Ha b Hb) as [_ H]. now apply H.
Qed.

Lemma updateHeadings_ids (visited : list (PNode * nat)) :
  map id (flat_map headingOf visited) = map headingId (headingPositions visited).
Proof.
  unfold headingPositions.
  induction visited as [| [n pos] l IH]; [reflexivity |].
  simpl. destruct n as [t | | typeName lvl content]; simpl; try exact IH.
  destruct (String.eqb typeName "heading"); simpl; [now rewrite IH | exact IH].
Qed.

Lemma StronglySorted_lt_NoDup (l : list nat) : StronglySorted lt l -> NoDup l.
Proof.
  induction 1 as [| a l Hl IH Ha]; constructor; [| exact IH].
  intros Hin. rewrite Forall_forall in Ha. specialize (Ha a Hin). lia.
Qed.

Lemma handleHeadingClick_headingId (pos : nat) :
  handleHeadingClick (headingId pos) = Some (Z.of_nat pos).
Proof.
  unfold handleHeadingClick, headingId.
  assert (replaceFirst "heading-" "" ("heading-" ++ String_of_nat pos)
          = String_of_nat pos) as ->.
  { assert (forall x, String.prefix "" x = true) as Hp by (intros []; reflexivity).
    simpl. rewrite Hp, Nat.sub_0_r. apply substring_all. }
  rewrite <- (FontSizesFacts.append_empty (String_of_nat pos)).
  now apply parseInt_String_of_nat.
Qed.

Lemma headingId_injective (p q : nat) : headingId p = headingId q -> p = q.
Proof.
  intros H. pose proof (handleHeadingClick_headingId p) as Hp.
  rewrite H, handleHeadingClick_headingId in Hp. injection Hp. lia.
Qed.

Lemma updateHeadings_length (visited : list (PNode * nat)) :
  List.length (flat_map headingOf visited)
  = List.length (filter (fun np => isHeading (fst np)) visited).
Proof.
  induction visited as [| [n pos] l IH]; [reflexivity |].
  cbn [flat_map filter fst]. rewrite length_app, IH.
  destruct n as [t | | typeName lvl content]; cbn [headingOf isHeading]; try reflexivity.
  destruct (String.eqb typeName "heading"); reflexivity.
Qed.

(** X23: the outline lists the headings, all of them and nothing else, in
    document order, and gives each its own id: every heading node that
    [descendants] visits is listed with its level, its text content and the
    id made from its position, the outline has as many entries as there are
    heading nodes, the ids are pairwise different and name strictly
    increasing positions, every entry comes from a heading node, and
    clicking an entry gives the position of that node. In a document with
    the headings "Title" and "Sub" around a paragraph the ids are heading-0
    and heading-14. *)
Theorem outline_ids_lead_back (doc : list PNode) :
  (forall typeName lvl content pos,
      In (PBlock typeName lvl content, pos) (descendants doc) ->
      typeName = "heading" ->
      In {| level := lvl;
            text := textContent (PBlock typeName lvl content);
            id := "heading-" ++ String_of_nat pos |} (updateHeadings doc))
  /\ List.length (updateHeadings doc)
     = List.length (filter (fun np => isHeading (fst np)) (descendants doc))
  /\ NoDup (map id (updateHeadings doc))
  /\ (exists positions,
        map id (updateHeadings doc) = map headingId positions
        /\ StronglySorted lt positions)
  /\ (forall h, In h (updateHeadings doc) ->
        exists n pos,
          In (n, pos) (descendants doc) /\ isHeading n = true
          /\ text h = textContent n
          /\ handleHeadingClick (id h) = Some (Z.of_nat pos))
  /\ (let d := [PBlock "heading" 1 [PText "Title"];
                PBlock "paragraph" 0 [PText "body"; PLeaf];
                PBlock "heading" 2 [PText "Sub"]] in
      updateHeadings d
      = [{| level := 1; text := "Title"; id := "heading-0" |};
         {| level := 2; text := "Sub"; id := "heading-14" |}]
      /\ handleHeadingClick "heading-14" = Some 14%Z).
Proof.
  pose proof (headingPositions_sorted _ (descendants_ordered doc)) as Hs.
  unfold updateHeadings. split; [| split; [| split; [| split; [| split]]]].
  - intros typeName lvl content pos Hin ->. apply in_flat_map.
    exists (PBlock "heading" lvl content, pos). split; [exact Hin |].
    cbn [headingOf]. rewrite String.eqb_refl. now left.
  - apply updateHeadings_length.
  - rewrite updateHeadings_ids. apply StronglySorted_lt_NoDup in Hs.
    induction Hs as [| p l Hp Hl IH]; simpl; constructor; [| exact IH].
    intros Hin. apply in_map_iff in Hin. destruct Hin as (q & Hq & Hin).
    apply headingId_injective in Hq. now subst q.
  - exists (headingPositions (descendants doc)).
    split; [apply updateHeadings_ids | exact Hs].
  - intros h Hh. apply in_flat_map in Hh. destruct Hh as ([n pos] & Hin & Hh).
    exists n, pos. destruct n as [t | | typeName lvl content]; simpl in Hh;
      try contradiction.
    destruct (String.eqb typeName "heading") eqn:E; [| contradiction].
    destruct Hh as [<- | []]. cbn [isHeading text id].
    repeat split; try assumption. apply handleHeadingClick_headingId.
  - split; reflexivity.
Qed.

End OutlineFacts.

(** ** The indent extension *)

Module IndentFacts.
Import JS JSFacts JSString JSStringFacts Indent.

Lemma indentNode_typeName (options : IndentOptions) (d : bool) (node : Node) :
  typeName (indentNode options d node) = typeName node.
Proof.
  unfold indentNode. destruct (includes _ _); [| reflexivity].
  cbv zeta. destruct (ltb _ _); [| reflexivity]. now destruct d.
Qed.

Lemma outdentNode_typeName (options : IndentOptions) (d : bool) (node : Node) :
  typeName (outdentNode options d node) = typeName node.
Proof.
  unfold outdentNode. destruct (includes _ _); [| reflexivity].
  cbv zeta. destruct (gtb _ _); [| reflexivity]. now destruct d.
Qed.

Lemma whole_step (q lo hi : Q) (k klo khi : Z) :
  q == inject_Z k -> lo == inject_Z klo -> hi == inject_Z khi ->
  (q < hi -> q + 1 <= hi) /\ (lo < q -> lo <= q - 1).
Proof.
  intros Hq Hlo Hhi. split; intros H.
  - rewrite Hq, Hhi in *. rewrite <- Zlt_Qlt in H.
    change 1 with (inject_Z 1). rewrite <- inject_Z_plus, <- Zle_Qle. lia.
  - rewrite Hq, Hlo in *. rewrite <- Zlt_Qlt in H.
    setoid_replace (inject_Z k - 1) with (inject_Z (k - 1)).
    + rewrite <- Zle_Qle. lia.
    + unfold Z.sub. rewrite inject_Z_plus. reflexivity.
Qed.

Section Limits.
Variable options : IndentOptions.
Variables kmin kmax : Z.
Hypothesis min_whole : minIndent options == inject_Z kmin.
Hypothesis max_whole : maxIndent options == inject_Z kmax.
Hypothesis min_zero : minIndent options <= 0.
Hypothesis max_zero : 0 <= maxIndent options.

Lemma indentNode_levelOk (d : bool) (node : Node) :
  levelOk options node -> levelOk options (indentNode options d node).
Proof.
  unfold levelOk, indentNode. intros H.
  destruct (includes _ _); [| exact H]. cbv zeta.
  destruct (ltb _ _) eqn:E; [| exact H]. destruct d; [| exact H].
  apply ltb_spec in E. cbn [indent].
  destruct (indent node) as [q |]; cbn [orZero] in *.
  - destruct H as [[k Hk] [H1 H2]].
    split; [exists (k + 1)%Z; rewrite inject_Z_plus, Hk; reflexivity |].
    split; [lra |].
    now apply (whole_step q (minIndent options) (maxIndent options) k kmin kmax).
  - split; [exists 1%Z; reflexivity |]. split; [lra |].
    now apply (whole_step 0 (minIndent options) (maxIndent options) 0 kmin kmax).
Qed.

Lemma outdentNode_levelOk (d : bool) (node : Node) :
  levelOk options node -> levelOk options (outdentNode options d node).
Proof.
  unfold levelOk, outdentNode. intros H.
  destruct (includes _ _); [| exact H]. cbv zeta.
  destruct (gtb _ _) eqn:E; [| exact H]. destruct d; [| exact H].
  apply gtb_spec in E. cbn [indent].
  destruct (indent node) as [q |]; cbn [orZero] in *.
  - destruct H as [[k Hk] [H1 H2]].
    split; [exists (k - 1)%Z; unfold Z.sub; rewrite inject_Z_plus, Hk; reflexivity |].
    split; [| lra].
    now apply (whole_step q (minIndent options) (maxIndent options) k kmin kmax).
  - split; [exists (-1)%Z; reflexivity |]. split; [| lra].
    now apply (whole_step 0 (minIndent options) (maxIndent options) 0 kmin kmax).
Qed.

Lemma click_levelOk (nodes : list Node) (c : Command) :
  Forall (levelOk options) nodes -> Forall (levelOk options) (click options nodes c).
Proof.
  intros H. destruct c; cbn [click indentCommand outdentCommand fst];
    apply Forall_map; revert H; apply Forall_impl; intros node;
    [apply indentNode_levelOk | apply outdentNode_levelOk].
Qed.

Lemma clicks_levelOk (cs : list Command) (nodes : list Node) :
  Forall (levelOk options) nodes -> Forall (levelOk options) (clicks options nodes cs).
Proof.
  unfold clicks. revert nodes. induction cs as [| c cs IH]; intros nodes H;
    [exact H |]. cbn [fold_left]. apply IH. now apply click_levelOk.
Qed.

End Limits.

Lemma click_typeNames (options : IndentOptions) (nodes : list Node) (c : Command) :
  map typeName (click options nodes c) = map typeName nodes.
Proof.
  destruct c; cbn [click indentCommand outdentCommand fst]; rewrite map_map;
    apply map_ext; intros node;
    [apply indentNode_typeName | apply outdentNode_typeName].
Qed.

Lemma clicks_typeNames (options : IndentOptions) (cs : list Command) (nodes : list Node) :
  map typeName (clicks options nodes cs) = map typeName nodes.
Proof.
  unfold clicks. revert nodes. induction cs as [| c cs IH]; intros nodes;
    [reflexivity |]. cbn [fold_left]. rewrite IH. apply click_typeNames.
Qed.

Lemma click_other_types (options : IndentOptions) (c : Command) (nodes : list Node) :
  Forall (fun node => includes (types options) (typeName node) = false) nodes ->
  click options nodes c = nodes.
Proof.
  intros H. destruct c; cbn [click indentCommand outdentCommand fst];
    rewrite <- (map_id nodes) at 2; apply map_ext_Forall; revert H;
    apply Forall_impl; intros node Hn; unfold indentNode, outdentNode;
    now rewrite Hn.
Qed.

(** X24: indent levels stay whole and within the limits. With the limits of
    the extension (0 and 8), and with any whole limits around 0, when every
    selected node has a whole indent between the limits (or none), it still
    has after any sequence of indent and outdent clicks; the clicks keep the
    nodes and their types, and leave a selection without indentable nodes as
    it is. *)
Theorem indent_levels_stay_within_limits
    (options : IndentOptions) (kmin kmax : Z) (cs : list Command) (nodes : list Node) :
  minIndent options == inject_Z kmin -> maxIndent options == inject_Z kmax ->
  minIndent options <= 0 -> 0 <= maxIndent options ->
  Forall (levelOk options) nodes ->
  Forall (levelOk options) (clicks options nodes cs)
  /\ map typeName (clicks options nodes cs) = map typeName nodes
  /\ (Forall (fun node => includes (types options) (typeName node) = false) nodes ->
      clicks options nodes cs = nodes).
Proof.
  intros Hmin Hmax H0 H8 H. split; [| split].
  - now apply (clicks_levelOk options kmin kmax).
  - apply clicks_typeNames.
  - intros Hother. unfold clicks. induction cs as [| c cs IH]; [reflexivity |].
    cbn [fold_left]. now rewrite click_other_types.
Qed.

Lemma indent_levels_stay_within_limits_witness :
  let nodes := [ {| typeName := "paragraph"; indent := Some 7 |};
                 {| typeName := "heading"; indent := None |};
                 {| typeName := "image"; indent := Some 0 |} ] in
  let cs := [IndentCmd; IndentCmd; IndentCmd; OutdentCmd] in
  Forall (levelOk addOptions) nodes
  /\ Forall (levelOk addOptions) (clicks addOptions nodes cs)
  /\ map indent (clicks addOptions nodes cs)
     = map indent [ {| typeName := "paragraph"; indent := Some (7 + 1 - 1) |};
                    {| typeName := "heading"; indent := Some (0 + 1 + 1 + 1 - 1) |};
                    {| typeName := "image"; indent := Some 0 |} ].
Proof.
  intros nodes cs.
  assert (Forall (levelOk addOptions) nodes) as H.
  { repeat constructor; try (now exists 7%Z); try (now exists 0%Z);
      cbn; try lra; discriminate. }
  split; [exact H |]. split; [| reflexivity].
  apply (indent_levels_stay_within_limits addOptions 0 8 cs nodes);
    [reflexivity | reflexivity | cbn; lra | cbn; lra | exact H].
Defined.

(** X25: outdent undoes indent below the upper limit, and indent undoes
    outdent above the lower limit: for a node of an indented type with an
    indent attribute below [maxIndent], indent then outdent gives the
    attribute back when the new value is above [minIndent]; symmetrically for
    outdent then indent. At the upper limit indent changes nothing, at the
    lower limit outdent changes nothing. *)
Theorem indent_and_outdent_undo_each_other (options : IndentOptions) (node : Node) (q : Q) :
  includes (types options) (typeName node) = true ->
  indent node = Some q ->
  (q < maxIndent options -> minIndent options < q + 1 ->
   sameIndent (indent (outdentNode options true (indentNode options true node))) (Some q))
  /\ (minIndent options < q -> q - 1 < maxIndent options ->
      sameIndent (indent (indentNode options true (outdentNode options true node))) (Some q))
  /\ (maxIndent options <= q -> indentNode options true node = node)
  /\ (q <= minIndent options -> outdentNode options true node = node).
Proof.
  intros Ht Hq. split; [| split; [| split]].
  - intros H1 H2. unfold indentNode. rewrite Ht, Hq. cbv zeta. cbn [orZero].
    rewrite (proj2 (ltb_spec _ _) H1).
    unfold outdentNode. cbn [typeName indent orZero]. rewrite Ht.
    rewrite (proj2 (gtb_spec _ _) H2). cbn [indent sameIndent]. ring.
  - intros H1 H2. unfold outdentNode. rewrite Ht, Hq. cbv zeta. cbn [orZero].
    rewrite (proj2 (gtb_spec _ _) H1).
    unfold indentNode. cbn [typeName indent orZero]. rewrite Ht.
    rewrite (proj2 (ltb_spec _ _) H2). cbn [indent sameIndent]. ring.
  - intros H. unfold indentNode. rewrite Ht, Hq. cbv zeta. cbn [orZero].
    destruct (ltb q (maxIndent options)) eqn:E; [| reflexivity].
    apply ltb_spec in E. lra.
  - intros H. unfold outdentNode. rewrite Ht, Hq. cbv zeta. cbn [orZero].
    destruct (gtb q (minIndent options)) eqn:E; [| reflexivity].
    apply gtb_spec in E. lra.
Qed.

Lemma indent_and_outdent_undo_each_other_witness :
  let node := {| typeName := "listItem"; indent := Some 3 |} in
  sameIndent (indent (outdentNode addOptions true (indentNode addOptions true node)))
             (Some 3)
  /\ indentNode addOptions true {| typeName := "listItem"; indent := Some 8 |}
     = {| typeName := "listItem"; indent := Some 8 |}.
Proof.
  intros node. split.
  - apply (indent_and_outdent_undo_each_other addOptions node 3);
      [reflexivity | reflexivity | cbn; lra | cbn; lra].
  - apply (indent_and_outdent_undo_each_other addOptions
             {| typeName := "listItem"; indent := Some 8 |} 8);
      [reflexivity | reflexivity | cbn; lra].
Defined.

(** X26: a whole-number indent survives writing and reading HTML: the
    margin that [renderHTML] writes for the level (none for level 0, 40px a
    level otherwise) is read back by [parseHTML] as the same level. *)
Theorem indent_html_round_trip (level : Z) :
  exists q, parseHTML (marginLeft (renderHTML level)) = Some q /\ q == inject_Z level.
Proof.
  unfold renderHTML. destruct (level =? 0)%Z eqn:E.
  - apply Z.eqb_eq in E. subst level. exists 0. split; reflexivity.
  - apply Z.eqb_neq in E.
    assert (marginLeft (Some ("margin-left: " ++ String_of_Z (level * 40) ++ "px")%string)
            = (String_of_Z (level * 40) ++ "px")%string) as ->.
    { assert (forall x, String.prefix "" x = true) as Hp by (intros []; reflexivity).
      cbn [marginLeft]. simpl. rewrite Hp, Nat.sub_0_r. apply substring_all. }
    unfold parseHTML.
    assert (String.eqb (String_of_Z (level * 40) ++ "px") "" = false) as ->.
    { apply String.eqb_neq. intros Hc.
      assert (parseInt (String_of_Z (level * 40) ++ "px") = Some (level * 40)%Z) as Hp
        by (apply parseInt_String_of_Z; cbn; repeat split; discriminate).
      rewrite Hc in Hp. discriminate Hp. }
    rewrite parseInt_String_of_Z by (cbn; repeat split; discriminate).
    eexists. split; [reflexivity |].
    rewrite inject_Z_mult. field.
Qed.

End IndentFacts.

(** ** The AI sidebar *)

Module AISidebarFacts.
Import FindReplace WordCount AISidebar.
Local Open Scope nat_scope.

Lemma last_cons_default {A : Type} (a d : A) (l : list A) : last (a :: l) d = last l a.
Proof.
  revert a d. induction l as [| b l IH]; intros a d; [reflexivity |].
  change (last (a :: b :: l) d) with (last (b :: l) d).
  now rewrite !IH.
Qed.

Lemma reveal_nth (c : text) (fuel i j : nat) (p : text) :
  nth_error (reveal fuel c i) j = Some p ->
  p = firstn (i + 10 * (j + 1)) c /\ i + 10 * j < List.length c.
Proof.
  revert i j. induction fuel as [| fuel IH]; intros i j H; simpl in H.
  - destruct j; discriminate H.
  - destruct (i <? List.length c) eqn:E; [| destruct j; discriminate H].
    apply Nat.ltb_lt in E. destruct j as [| j]; simpl in H.
    + injection H as <-. split; [f_equal; lia | lia].
    + apply IH in H. destruct H as [-> H]. split; [f_equal; lia | lia].
Qed.

Lemma reveal_last (c : text) (fuel i : nat) (d : text) :
  List.length c <= i + 10 * fuel -> i < List.length c ->
  last (reveal fuel c i) d = c.
Proof.
  revert i d. induction fuel as [| fuel IH]; intros i d Hf Hi; [lia |].
  simpl. rewrite (proj2 (Nat.ltb_lt _ _) Hi). rewrite last_cons_default.
  destruct (Nat.lt_ge_cases (i + 10) (List.length c)) as [Hlt | Hge].
  - apply IH; lia.
  - assert (reveal fuel c (i + 10) = []) as ->.
    { destruct fuel; [reflexivity |]. simpl.
      now rewrite (proj2 (Nat.ltb_ge _ _) Hge). }
    simpl. now apply firstn_all2.
Qed.

Lemma reveal_length (c : text) (fuel i : nat) :
  List.length c <= i + 10 * fuel ->
  List.length (reveal fuel c i) = (List.length c - i + 9) / 10.
Proof.
  revert i. induction fuel as [| fuel IH]; intros i Hf.
  - cbn [reveal List.length]. replace (List.length c - i) with 0 by lia. reflexivity.
  - cbn [reveal]. destruct (i <? List.length c) eqn:E.
    + apply Nat.ltb_lt in E. cbn [List.length]. rewrite IH by lia.
      destruct (Nat.le_gt_cases (List.length c) (i + 10)) as [Hle | Hgt].
      * replace (List.length c - (i + 10)) with 0 by lia.
        change ((0 + 9) / 10) with 0.
        apply (Nat.div_unique _ 10 1 (List.length c - i - 1)); lia.
      * replace (List.length c - i + 9)
          with (1 * 10 + (List.length c - (i + 10) + 9)) by lia.
        now rewrite Nat.div_add_l by lia.
    + apply Nat.ltb_ge in E. cbn [List.length].
      replace (List.length c - i) with 0 by lia. reflexivity.
Qed.

Lemma previews_last (c : text) : last (previews c) [] = c.
Proof.
  unfold previews. destruct c as [| a c]; [reflexivity |].
  apply reveal_last; simpl; lia.
Qed.

Lemma split_nonempty (sep : ascii) (s : text) : split sep s <> [].
Proof.
  destruct s as [| c s]; simpl; [discriminate |].
  destruct (Ascii.eqb c sep); [discriminate |]. destruct (split sep s); discriminate.
Qed.

Lemma split_noSep (sep : ascii) (s : text) : Forall (fun w => ~ In sep w) (split sep s).
Proof.
  induction s as [| c s IH]; simpl.
  - constructor; [intros [] | constructor].
  - destruct (Ascii.eqb c sep) eqn:E.
    + constructor; [intros [] | exact IH].
    + apply Ascii.eqb_neq in E. destruct (split sep s) as [| w ws].
      * constructor; [| constructor]. intros [H | []]. now apply E.
      * inversion IH as [| ? ? Hw Hws]; subst. constructor; [| exact Hws].
        intros [H | H]; [now apply E | now apply Hw].
Qed.

Lemma join_split (sep : ascii) (s : text) : join [sep] (split sep s) = s.
Proof.
  induction s as [| c s IH]; [reflexivity |]. simpl.
  destruct (Ascii.eqb c sep) eqn:E.
  - apply Ascii.eqb_eq in E. subst c.
    pose proof (split_nonempty sep s) as Hn.
    cbn [join]. destruct (split sep s) as [| w ws]; [now elim Hn |].
    simpl. simpl in IH. now rewrite IH.
  - pose proof (split_nonempty sep s) as Hn.
    destruct (split sep s) as [| w ws]; [now elim Hn |].
    cbn [join] in *. destruct ws; simpl; now rewrite <- IH.
Qed.

Lemma split_word (sep : ascii) (w : text) : ~ In sep w -> split sep w = [w].
Proof.
  induction w as [| c w IH]; intros H; [reflexivity |]. simpl.
  destruct (Ascii.eqb c sep) eqn:E.
  - apply Ascii.eqb_eq in E. elim H. now left.
  - rewrite IH; [reflexivity |]. intros Hin. apply H. now right.
Qed.

Lemma split_app_sep (sep : ascii) (w rest : text) :
  ~ In sep w -> split sep (w ++ sep :: rest) = w :: split sep rest.
Proof.
  induction w as [| c w IH]; intros H; simpl.
  - now rewrite Ascii.eqb_refl.
  - destruct (Ascii.eqb c sep) eqn:E.
    + apply Ascii.eqb_eq in E. elim H. now left.
    + rewrite IH; [reflexivity |]. intros Hin. apply H. now right.
Qed.

Lemma split_join (sep : ascii) (ws : list text) :
  ws <> [] -> Forall (fun w => ~ In sep w) ws -> split sep (join [sep] ws) = ws.
Proof.
  induction ws as [| w ws IH]; intros Hn H; [now elim Hn |].
  inversion H as [| ? ? Hw Hws]; subst.
  destruct ws as [| w' ws].
  - simpl. now apply split_word.
  - change (join [sep] (w :: w' :: ws)) with (w ++ sep :: join [sep] (w' :: ws)).
    rewrite split_app_sep by exact Hw. f_equal. apply IH; [discriminate | exact Hws].
Qed.

Lemma join_firstn (sep : text) (ws : list text) (k : nat) :
  exists rest, join sep ws = join sep (firstn k ws) ++ rest.
Proof.
  revert k. induction ws as [| w ws IH]; intros k.
  - exists []. destruct k; reflexivity.
  - destruct k as [| k]; [now exists (join sep (w :: ws)) |].
    destruct ws as [| w' ws].
    + exists []. destruct k; simpl; now rewrite app_nil_r.
    + destruct k as [| k].
      * exists (sep ++ join sep (w' :: ws)). reflexivity.
      * destruct (IH (S k)) as [rest Hrest]. exists rest.
        change (join sep (w :: w' :: ws)) with (w ++ sep ++ join sep (w' :: ws)).
        rewrite Hrest.
        change (firstn (S (S k)) (w :: w' :: ws)) with (w :: w' :: firstn k ws).
        change (firstn (S k) (w' :: ws)) with (w' :: firstn k ws).
        change (join sep (w :: w' :: firstn k ws))
          with (w ++ sep ++ join sep (w' :: firstn k ws)).
        now rewrite <- !app_assoc.
Qed.

Lemma Math_ceil_half_spec (n : nat) : Math_ceil_half n = (n + 1) / 2.
Proof.
  unfold Math_ceil_half.
  pose proof (Qle_ceiling (inject_Z (Z.of_nat n) / 2)) as H1.
  pose proof (Qceiling_lt (inject_Z (Z.of_nat n) / 2)) as H2.
  set (z := Qceiling (inject_Z (Z.of_nat n) / 2)) in *.
  assert (inject_Z (Z.of_nat n) == 2 * (inject_Z (Z.of_nat n) / 2))%Q as Hh by field.
  revert H1 H2 Hh. generalize (inject_Z (Z.of_nat n) / 2)%Q. intros h H1 H2 Hh.
  assert (inject_Z (Z.of_nat n) <= inject_Z (2 * z))%Q as H3
    by (rewrite inject_Z_mult; change (inject_Z 2) with 2%Q; lra).
  assert (inject_Z (2 * z - 2) < inject_Z (Z.of_nat n))%Q as H4.
  { replace (2 * z - 2)%Z with (2 * (z - 1))%Z by lia.
    rewrite inject_Z_mult. change (inject_Z 2) with 2%Q. lra. }
  rewrite <- Zle_Qle in H3. rewrite <- Zlt_Qlt in H4.
  apply (Nat.div_unique _ 2 _ (n + 1 - 2 * Z.to_nat z)); lia.
Qed.

Section SidebarFacts.
Variable generateSampleDocument : text -> text -> text -> option Z -> text.
Variable toUpperCase : text -> text.

(** X27: the streamed preview ends with the whole generated text. With a
    topic that is not blank, [handleGenerate] shows the sample text ten
    characters more at a time: preview number j is the first 10 (j + 1)
    characters of the text, there are as many previews as tens the text
    needs, and the state it ends in has the whole text as preview and is no
    longer generating. With a blank topic it changes nothing. *)
Theorem generated_preview_is_revealed_in_full (s : State) :
  let sampleContent :=
    generateSampleDocument (topic s) (documentType s) (tone s) (hd_error (pages s)) in
  (trim (topic s) <> [] ->
   generatedPreview (handleGenerate generateSampleDocument s) = sampleContent
   /\ isGenerating (handleGenerate generateSampleDocument s) = false
   /\ topic (handleGenerate generateSampleDocument s) = topic s
   /\ (forall j p, nth_error (previews sampleContent) j = Some p ->
         p = firstn (10 * (j + 1)) sampleContent /\ 10 * j < List.length sampleContent)
   /\ List.length (previews sampleContent) = (List.length sampleContent + 9) / 10)
  /\ (trim (topic s) = [] -> handleGenerate generateSampleDocument s = s).
Proof.
  intros sampleContent. unfold handleGenerate. fold sampleContent. split.
  - intros Ht. destruct (trim (topic s)) as [| c t]; [now elim Ht |].
    cbn [generatedPreview isGenerating topic].
    split; [apply previews_last |]. split; [reflexivity |]. split; [reflexivity |].
    split.
    + intros j p H. apply reveal_nth in H. exact H.
    + unfold previews. rewrite reveal_length by lia. now rewrite Nat.sub_0_r.
  - intros Ht. now rewrite Ht.
Qed.

(** X28: the rewrite action reverses the order of the words and nothing
    else: for words without a space, joined by single spaces, the result is
    [[Rewritten] ] followed by the same words in reverse order, joined by
    single spaces; every text is such a sequence of words (possibly empty
    ones); for two words [a] and [b], "a b" gives "[Rewritten] b a"; "the
    quick brown fox" gives "[Rewritten] fox brown quick the". *)
Theorem rewrite_reverses_the_words :
  (forall ws,
      ws <> [] -> Forall (fun w => ~ In " "%char w) ws ->
      transformText toUpperCase (join [" "%char] ws) Rewrite
      = str "[Rewritten] " ++ join [" "%char] (rev ws))
  /\ (forall t, exists ws,
        ws <> [] /\ Forall (fun w => ~ In " "%char w) ws /\ t = join [" "%char] ws)
  /\ (forall a b,
        ~ In " "%char a -> ~ In " "%char b ->
        transformText toUpperCase (a ++ " "%char :: b) Rewrite
        = str "[Rewritten] " ++ b ++ " "%char :: a)
  /\ transformText toUpperCase (str "the quick brown fox") Rewrite
     = str "[Rewritten] fox brown quick the".
Proof.
  assert (forall ws,
             ws <> [] -> Forall (fun w => ~ In " "%char w) ws ->
             transformText toUpperCase (join [" "%char] ws) Rewrite
             = str "[Rewritten] " ++ join [" "%char] (rev ws)) as Hgen.
  { intros ws Hne Hws. cbn [transformText]. now rewrite split_join. }
  split; [exact Hgen |]. split; [| split; [| reflexivity]].
  - intros t. exists (split " " t).
    split; [apply split_nonempty |]. split; [apply split_noSep |].
    now rewrite join_split.
  - intros a b Ha Hb.
    apply (Hgen [a; b]); [discriminate | repeat constructor; assumption].
Qed.

(** X29: the summarize action keeps the first half of the words: for [n]
    words without a space, joined by single spaces, the result is the first
    ceil(n / 2) of them, joined by single spaces, followed by three dots;
    for every text the result is a beginning of the text followed by three
    dots; a text without a space is kept whole; "a b c d e" gives
    "a b c...". *)
Theorem summarize_keeps_the_first_half :
  (forall ws,
      ws <> [] -> Forall (fun w => ~ In " "%char w) ws ->
      transformText toUpperCase (join [" "%char] ws) Summarize
      = join [" "%char] (firstn ((List.length ws + 1) / 2) ws) ++ str "...")
  /\ (forall t, exists body rest,
        transformText toUpperCase t Summarize = body ++ str "..." /\ t = body ++ rest)
  /\ (forall w,
        ~ In " "%char w -> transformText toUpperCase w Summarize = w ++ str "...")
  /\ transformText toUpperCase (str "a b c d e") Summarize = str "a b c...".
Proof.
  assert (forall ws,
             ws <> [] -> Forall (fun w => ~ In " "%char w) ws ->
             transformText toUpperCase (join [" "%char] ws) Summarize
             = join [" "%char] (firstn ((List.length ws + 1) / 2) ws) ++ str "...")
    as Hgen.
  { intros ws Hne Hws. cbn [transformText].
    now rewrite split_join, Math_ceil_half_spec. }
  split; [exact Hgen |]. split; [| split; [| reflexivity]].
  - intros t. cbn [transformText]. rewrite Math_ceil_half_spec.
    destruct (join_firstn [" "%char] (split " " t)
                          ((List.length (split " " t) + 1) / 2)) as [rest Hrest].
    exists (join [" "%char] (firstn ((List.length (split " " t) + 1) / 2) (split " " t))),
           rest.
    split; [reflexivity |]. now rewrite <- Hrest, join_split.
  - intros w Hw. apply (Hgen [w]); [discriminate | repeat constructor; assumption].
Qed.

End SidebarFacts.

Lemma generated_preview_is_revealed_in_full_witness :
  let gen := fun (topic _ _ : text) (_ : option Z) => str "# " ++ topic ++ str " and more text" in
  let s := {| topic := str "Rocq"; documentType := str "blog"; tone := str "formal";
              pages := [2%Z]; isGenerating := false; generatedPreview := [] |} in
  trim (topic s) <> []
  /\ generatedPreview (handleGenerate gen s) = str "# Rocq and more text"
  /\ previews (str "# Rocq and more text") = [str "# Rocq and"; str "# Rocq and more text"].
Proof.
  intros gen s.
  assert (trim (topic s) <> []) as H by (vm_compute; discriminate).
  split; [exact H |]. split; [| reflexivity].
  exact (proj1 (proj1 (generated_preview_is_revealed_in_full gen s) H)).
Defined.

Lemma rewrite_reverses_the_words_witness :
  transformText (fun t => t) (str "hello wide world") Rewrite
  = str "[Rewritten] world wide hello".
Proof.
  apply (proj1 (rewrite_reverses_the_words (fun t => t))
               [str "hello"; str "wide"; str "world"]).
  - discriminate.
  - repeat constructor; intros H; repeat (destruct H as [H | H]; [discriminate H |]);
      exact H.
Defined.

Lemma summarize_keeps_the_first_half_witness :
  transformText (fun t => t) (str "one two three") Summarize = str "one two...".
Proof.
  apply (proj1 (summarize_keeps_the_first_half (fun t => t))
               [str "one"; str "two"; str "three"]).
  - discriminate.
  - repeat constructor; intros H; repeat (destruct H as [H | H]; [discriminate H |]);
      exact H.
Defined.

End AISidebarFacts.
